(** * Match orchestration and scoring engine: a shallow embedding

    The development follows the server of the trivia game:
    - [question.service]  : validation, correctness, correct-answer extraction;
    - [answer.service]    : scoring rules, answer submission, ledger queries;
    - [reveal.service]    : closest-number resolution and the reveal payload;
    - [state-machine.service] : the phase state machine and its timer;
    - the [answer:submit] socket handler and the leaderboard recomputation.

    Conventions.  Integers of the code (indices, milliseconds, Prisma [Int]
    columns, zod [.int()] fields) are [Z]; other JavaScript numbers
    ([correctValue], parsed numeric answers, the speed threshold) are exact
    rationals [Q], so rounding of doubles is outside the model.  Strings are
    [string], read as the UTF-8 bytes of the JavaScript string (a string
    literal of this file is its UTF-8 bytes as well), so that a character
    beyond ASCII is two or three bytes; the Redis keyspace and the match table are [gmap]s keyed by
    strings; the player table and the answer ledger are lists of rows
    because query order and the unique index matter.  JSON serialisation to and from Redis is the
    identity on the modelled values. *)

From Stdlib Require Import ZArith QArith Qabs Lia Ascii String Permutation Sorted.
From stdpp Require Import base option list strings gmap pretty.

Close Scope Q_scope.
Open Scope Z_scope.

(** ** JavaScript primitives used by the services *)

Module Js.

(** [arr[i]] for an integer index: [undefined] outside the array. *)
Definition index {A} (l : list A) (i : Z) : option A :=
  if (i <? 0)%Z then None else l !! Z.to_nat i.

(** [arr[i] = x]: in range the slot is replaced; past the end the array
    is extended, the holes reading back as [hole] ([null] after JSON). *)
Definition array_set {A} (hole : A) (l : list A) (i : Z) (x : A) : list A :=
  if (i <? 0)%Z then l
  else let n := Z.to_nat i in
       if (n <? length l)%nat then <[n := x]> l
       else l ++ replicate (n - length l) hole ++ [x].

(** The white space and line terminator characters of ECMAScript that
    are one byte long: TAB, LF, VT, FF, CR and SP. *)
Definition is_whitespace (c : ascii) : bool :=
  let n := nat_of_ascii c in
  ((n =? 32) || (n =? 9) || (n =? 10) || (n =? 11) || (n =? 12) || (n =? 13))%nat.

(** The one that is two bytes long: U+00A0, the no-break space. *)
Definition is_whitespace2 (a b : ascii) : bool :=
  ((nat_of_ascii a =? 194) && (nat_of_ascii b =? 160))%nat.

(** Those that are three bytes long: U+1680; U+2000 to U+200A, U+2028,
    U+2029 and U+202F; U+205F; U+3000; U+FEFF. *)
Definition is_whitespace3 (a b c : ascii) : bool :=
  let x := nat_of_ascii a in
  let y := nat_of_ascii b in
  let z := nat_of_ascii c in
  ((x =? 225) && (y =? 154) && (z =? 128)
   || (x =? 226) && (y =? 128)
      && ((128 <=? z) && (z <=? 138) || (z =? 168) || (z =? 169) || (z =? 175))
   || (x =? 226) && (y =? 129) && (z =? 159)
   || (x =? 227) && (y =? 128) && (z =? 128)
   || (x =? 239) && (y =? 187) && (z =? 191))%nat.

(** Leading white space removed.  With [backwards] the bytes of the
    string come last byte first, as in a reversed string. *)
Fixpoint strip (backwards : bool) (s : string) : string :=
  match s with
  | EmptyString => EmptyString
  | String a r1 =>
      if is_whitespace a then strip backwards r1
      else
        match r1 with
        | EmptyString => s
        | String b r2 =>
            if (if backwards then is_whitespace2 b a else is_whitespace2 a b)
            then strip backwards r2
            else
              match r2 with
              | EmptyString => s
              | String c r3 =>
                  if (if backwards then is_whitespace3 c b a
                      else is_whitespace3 a b c)
                  then strip backwards r3
                  else s
              end
        end
  end.

(** [String.prototype.trimStart] *)
Definition trim_start (s : string) : string := strip false s.

Definition rev_string (s : string) : string :=
  string_of_list_ascii (rev (list_ascii_of_string s)).

(** [String.prototype.trim]: white space and line terminators are removed
    at both ends. *)
Definition trim (s : string) : string :=
  rev_string (strip true (rev_string (trim_start s))).

Definition lower_ascii (c : ascii) : ascii :=
  let n := nat_of_ascii c in
  if ((65 <=? n) && (n <=? 90))%nat then ascii_of_nat (n + 32) else c.

(** [String.prototype.toLowerCase] on ASCII letters. *)
Fixpoint toLowerCase (s : string) : string :=
  match s with
  | String c r => String (lower_ascii c) (toLowerCase r)
  | EmptyString => EmptyString
  end.

Definition bool_toString (b : bool) : string :=
  if b then "true"%string else "false"%string.

(** [s.split(sep)] for a one-character separator. *)
Fixpoint split_go (sep : ascii) (acc : list ascii) (s : string) : list string :=
  match s with
  | EmptyString => [string_of_list_ascii (rev acc)]
  | String c r =>
      if Ascii.eqb c sep
      then string_of_list_ascii (rev acc) :: split_go sep [] r
      else split_go sep (c :: acc) r
  end.

Definition split (sep : ascii) (s : string) : list string := split_go sep [] s.

Definition digit_of (c : ascii) : option Z :=
  let n := nat_of_ascii c in
  if ((48 <=? n) && (n <=? 57))%nat then Some (Z.of_nat (n - 48)) else None.

(** Longest prefix of decimal digits: its value, how many digits were
    read, and the rest of the string. *)
Fixpoint digits (acc : Z) (cnt : nat) (s : string) : Z * nat * string :=
  match s with
  | String c r =>
      match digit_of c with
      | Some d => digits (10 * acc + d) (S cnt) r
      | None => (acc, cnt, s)
      end
  | EmptyString => (acc, cnt, s)
  end.

Definition sign_of (s : string) : Z * string :=
  match s with
  | String "-" r => (-1, r)
  | String "+" r => (1, r)
  | _ => (1, s)
  end.

(** [parseInt(s, 10)]; [None] is [NaN].  [parseInt(undefined, 10)] is
    [NaN] as well, which is the [None] argument.  The value is the exact
    integer: the code's is the nearest double, the same up to [2^53]. *)
Definition parseInt (o : option string) : option Z :=
  match o with
  | None => None
  | Some s =>
      let '(sg, r) := sign_of (trim_start s) in
      let '(v, cnt, _) := digits 0 0 r in
      if (cnt =? 0)%nat then None else Some (sg * v)
  end.

Definition pow10 (n : nat) : positive := Pos.pow 10 (Pos.of_nat n).

(** [parseFloat(s)] on decimal literals: leading white space, an optional
    sign, integer digits, an optional fraction, an optional exponent;
    trailing characters are ignored and [None] is [NaN].  The value is the
    exact rational, where the code has the nearest double: the two agree on
    integers up to [2^53] written in digits.  The literal [Infinity] is not
    covered: it reads as [NaN] here. *)
Definition parseFloat (s : string) : option Q :=
  let '(sg, r) := sign_of (trim_start s) in
  let '(ip, icnt, r1) := digits 0 0 r in
  let '(fp, fcnt, r2) :=
    match r1 with
    | String "." r' => digits 0 0 r'
    | _ => (0, 0%nat, r1)
    end in
  if ((icnt =? 0) && (fcnt =? 0))%nat then None
  else
    let mant : Q :=
      Qplus (inject_Z ip)
            (if (fcnt =? 0)%nat then 0%Q else Qmake fp (pow10 fcnt)) in
    let ex : Z :=
      match r2 with
      | String c r' =>
          if (Ascii.eqb c "e" || Ascii.eqb c "E")%bool then
            let '(esg, r3) := sign_of r' in
            let '(ev, ecnt, _) := digits 0 0 r3 in
            if (ecnt =? 0)%nat then 0 else esg * ev
          else 0
      | EmptyString => 0
      end in
    Some (Qmult (inject_Z sg) (Qmult mant (Qpower (inject_Z 10) ex))).

(** [Math.abs] on the rationals. *)
Definition abs (q : Q) : Q := Qabs q.

(** The last-but-[k] element of [parts], as [parts[parts.length - k]]. *)
Definition from_end {A} (l : list A) (k : Z) : option A :=
  index l (Z.of_nat (length l) - k).

End Js.

(** A JavaScript value of type [string | number | boolean], or [undefined]. *)
Inductive JsValue : Type :=
| JsString (s : string)
| JsNumber (q : Q)
| JsBoolean (b : bool)
| JsUndefined.

(** ** Shared types *)

Inductive MatchPhase : Type := LOBBY | QUESTION | REVEAL | STRETCH | POSTGAME.

Inductive MatchStatus : Type := ST_LOBBY | IN_PROGRESS | COMPLETED | ABANDONED.

Inductive QuestionType : Type := mc | tf | closest | media.

#[global] Instance MatchPhase_eq_dec : EqDecision MatchPhase.
Proof. solve_decision. Defined.
#[global] Instance MatchStatus_eq_dec : EqDecision MatchStatus.
Proof. solve_decision. Defined.
#[global] Instance QuestionType_eq_dec : EqDecision QuestionType.
Proof. solve_decision. Defined.

(** The settings the engine reads ([allowReactions], [allowHeckles] and
    [showMap] never reach it). *)
Record MatchSettings : Type := {
  grandSlam : bool;
  speedBonus : bool;
  timerSec : Z;
}.

(** The question union of the pack schema, discriminated by its tag. *)
Inductive QuestionBody : Type :=
| McBody (choices : list string) (correctIndex : Z)
| TfBody (correctAnswer : bool)
| ClosestBody (correctValue : Q)
| MediaBody (choices : list string) (correctIndex : Z).

Record Question : Type := {
  q_text : string;
  q_mediaUrl : option string;
  q_clipUrl : option string;
  q_body : QuestionBody;
}.

Definition q_type (q : Question) : QuestionType :=
  match q_body q with
  | McBody _ _ => mc
  | TfBody _ => tf
  | ClosestBody _ => closest
  | MediaBody _ _ => media
  end.

Record QuestionPayload : Type := {
  qp_id : string;
  qp_type : QuestionType;
  qp_text : string;
  qp_choices : option (list string);
  qp_mediaUrl : option string;
  qp_timerSec : Z;
  qp_inning : Z;
  qp_questionIdx : Z;
}.

(** ** question.service *)

Module QuestionService.

Record FormatQuestionOptions : Type := {
  fo_matchId : string;
  fo_question : Question;
  fo_inning : Z;
  fo_questionIdx : Z;
  fo_timerSec : Z;
}.

(** The id template [`${matchId}-${inning}-${questionIdx}`]. *)
Definition question_id (matchId : string) (inning questionIdx : Z) : string :=
  (matchId ++ "-" ++ pretty inning ++ "-" ++ pretty questionIdx)%string.

(** A string is truthy when it is present and not empty. *)
Definition truthy (o : option string) : bool :=
  match o with
  | Some s => negb (String.eqb s "")
  | None => false
  end.

Definition formatQuestion (o : FormatQuestionOptions) : QuestionPayload :=
  let q := fo_question o in
  let choices :=
    match q_body q with
    | McBody cs _ | MediaBody cs _ => Some cs
    | TfBody _ => Some ["True"; "False"]%string
    | ClosestBody _ => None
    end in
  let mediaUrl :=
    match q_body q with
    | MediaBody _ _ => q_mediaUrl q
    | _ => if truthy (q_mediaUrl q) then q_mediaUrl q else None
    end in
  {| qp_id := question_id (fo_matchId o) (fo_inning o) (fo_questionIdx o);
     qp_type := q_type q;
     qp_text := q_text q;
     qp_choices := choices;
     qp_mediaUrl := mediaUrl;
     qp_timerSec := fo_timerSec o;
     qp_inning := fo_inning o;
     qp_questionIdx := fo_questionIdx o |}.

(** The result [{ valid, error? }]. *)
Inductive Validation : Type :=
| Valid
| Invalid (error : string).

Definition check_choices (kind : string) (cs : list string) (ci : Z) : Validation :=
  if (Z.of_nat (length cs) <? 2)%Z
  then Invalid (kind ++ " questions require at least 2 choices")
  else if ((ci <? 0) || (Z.of_nat (length cs) <=? ci))%Z
  then Invalid ("Invalid correct index for " ++ Js.toLowerCase kind ++ " question")
  else Valid.

(** The [typeof] tests of the true/false and closest branches and the
    [default] branch for an unknown tag cannot fail on the typed union, so
    these two branches accept. *)
Definition validateQuestion (q : Question) : Validation :=
  if String.eqb (q_text q) "" || (String.length (Js.trim (q_text q)) =? 0)%nat
  then Invalid "Question text is required"
  else
    match q_body q with
    | McBody cs ci => check_choices "Multiple choice" cs ci
    | MediaBody cs ci =>
        if negb (truthy (q_mediaUrl q))
        then Invalid "Media questions require a mediaUrl"
        else check_choices "Media" cs ci
    | TfBody _ => Valid
    | ClosestBody _ => Valid
    end.

Definition getCorrectAnswer (q : Question) : JsValue :=
  match q_body q with
  | McBody cs ci | MediaBody cs ci =>
      match Js.index cs ci with
      | Some s => JsString s
      | None => JsUndefined
      end
  | TfBody b => JsBoolean b
  | ClosestBody v => JsNumber v
  end.

Definition isAnswerCorrect (q : Question) (answer : string) : bool :=
  match q_body q with
  | McBody cs ci | MediaBody cs ci =>
      match Js.index cs ci with
      | Some s => String.eqb s answer
      | None => false
      end
  | TfBody b =>
      String.eqb (Js.toLowerCase answer) (Js.toLowerCase (Js.bool_toString b))
  | ClosestBody _ => false
  end.

End QuestionService.

(** ** Durable records (Prisma) and volatile state (Redis) *)

Record MatchAnswer : Type := {
  a_id : nat;
  a_matchId : string;
  a_playerId : string;
  a_inningIdx : Z;
  a_questionIdx : Z;
  a_choice : string;
  a_isCorrect : bool;
  a_answerMs : Z;
  a_bonusAwarded : bool;
}.

Record MatchPlayer : Type := {
  p_id : string;
  p_matchId : string;
  p_nickname : string;
  p_avatar : option string;
  p_leftAt : option Z;
}.

Record Inning : Type := {
  i_theme : string;
  i_questions : list Question;
}.

(** A match row joined with its pack ([include: { pack: true }]). *)
Record Match : Type := {
  m_status : MatchStatus;
  m_settings : MatchSettings;
  m_startedAt : option Z;
  m_endedAt : option Z;
  m_innings : list Inning;
}.

Record PlayerScore : Type := {
  ps_playerId : string;
  ps_nickname : string;
  ps_avatar : option string;
  ps_runs : Z;
  ps_correct : Z;
  ps_total : Z;
  ps_totalTimeMs : Z;
}.

Record MatchState : Type := {
  ms_matchId : string;
  ms_phase : MatchPhase;
  ms_inning : Z;
  ms_questionIdx : Z;
  ms_question : option QuestionPayload;
  ms_endsAt : option Z;
  ms_lineScore : list (option Z);
  ms_leaderboard : list PlayerScore;
  ms_players : list MatchPlayer;
}.

(** The entry [submitAnswer] adds to the per-question Redis set. *)
Record CachedAnswer : Type := {
  c_playerId : string;
  c_choice : string;
  c_isCorrect : bool;
  c_runsAwarded : Z;
  c_bonusAwarded : bool;
  c_answerMs : Z;
}.

Record PlayerResult : Type := {
  pr_playerId : string;
  pr_nickname : string;
  pr_isCorrect : bool;
  pr_runsAwarded : Z;
}.

Record QuestionRevealPayload : Type := {
  rp_questionId : string;
  rp_correctAnswer : JsValue;   (* sent as [correctAnswer.toString()] *)
  rp_correctIndex : option Z;
  rp_clipUrl : option string;
  rp_playerResults : list PlayerResult;
}.

(** What [io.to(matchId).emit] sends to the room of a match. *)
Inductive Event : Type :=
| StateUpdate (s : MatchState)
| QuestionShow (q : option QuestionPayload) (endsAt : option Z)
| QuestionReveal (p : QuestionRevealPayload)
| StretchStart (durationSec : Z)
| MatchEnd (finalScores : list PlayerScore) (mvp : string)
| MatchPaused (timestamp : Z)
| MatchResumed (timestamp : Z) (endsAt : option Z)
| ScoreUpdate (leaderboard : list PlayerScore) (lineScore : list (option Z)).

(** A pending [setTimeout]: when it is due and the state machine instance
    its callback closes over. *)
Record Timer : Type := {
  t_due : Z;
  t_matchId : string;
  t_this : option MatchState;
}.

Record World : Type := {
  redis_state : gmap string MatchState;
  redis_sets : gmap string (list CachedAnswer);
  redis_paused : gset string;
  db_match : gmap string Match;
  db_matchPlayer : list MatchPlayer;
  db_matchAnswer : list MatchAnswer;
  emitted : list (string * Event);
  timers : list Timer;
}.

Definition with_redis_state (f : gmap string MatchState → gmap string MatchState)
    (w : World) : World :=
  {| redis_state := f (redis_state w); redis_sets := redis_sets w;
     redis_paused := redis_paused w; db_match := db_match w;
     db_matchPlayer := db_matchPlayer w; db_matchAnswer := db_matchAnswer w;
     emitted := emitted w; timers := timers w |}.

Definition with_redis_sets
    (f : gmap string (list CachedAnswer) → gmap string (list CachedAnswer))
    (w : World) : World :=
  {| redis_state := redis_state w; redis_sets := f (redis_sets w);
     redis_paused := redis_paused w; db_match := db_match w;
     db_matchPlayer := db_matchPlayer w; db_matchAnswer := db_matchAnswer w;
     emitted := emitted w; timers := timers w |}.

Definition with_redis_paused (f : gset string → gset string) (w : World) : World :=
  {| redis_state := redis_state w; redis_sets := redis_sets w;
     redis_paused := f (redis_paused w); db_match := db_match w;
     db_matchPlayer := db_matchPlayer w; db_matchAnswer := db_matchAnswer w;
     emitted := emitted w; timers := timers w |}.

Definition with_db_match (f : gmap string Match → gmap string Match)
    (w : World) : World :=
  {| redis_state := redis_state w; redis_sets := redis_sets w;
     redis_paused := redis_paused w; db_match := f (db_match w);
     db_matchPlayer := db_matchPlayer w; db_matchAnswer := db_matchAnswer w;
     emitted := emitted w; timers := timers w |}.

Definition with_db_matchAnswer (f : list MatchAnswer → list MatchAnswer)
    (w : World) : World :=
  {| redis_state := redis_state w; redis_sets := redis_sets w;
     redis_paused := redis_paused w; db_match := db_match w;
     db_matchPlayer := db_matchPlayer w; db_matchAnswer := f (db_matchAnswer w);
     emitted := emitted w; timers := timers w |}.

Definition with_emitted (f : list (string * Event) → list (string * Event))
    (w : World) : World :=
  {| redis_state := redis_state w; redis_sets := redis_sets w;
     redis_paused := redis_paused w; db_match := db_match w;
     db_matchPlayer := db_matchPlayer w; db_matchAnswer := db_matchAnswer w;
     emitted := f (emitted w); timers := timers w |}.

Definition with_timers (f : list Timer → list Timer) (w : World) : World :=
  {| redis_state := redis_state w; redis_sets := redis_sets w;
     redis_paused := redis_paused w; db_match := db_match w;
     db_matchPlayer := db_matchPlayer w; db_matchAnswer := db_matchAnswer w;
     emitted := emitted w; timers := f (timers w) |}.

(** ** Errors and the effect monad *)

(** The exceptions of the services, one constructor per thrown message. *)
Inductive Err : Type :=
| MatchStateNotFound          (* 'Match state not found' *)
| NoStateToSave               (* 'No state to save' *)
| InvalidStateTransition (from to : MatchPhase)
| StartNotFromLobby           (* 'Match can only be started from lobby phase' *)
| MatchNotFound               (* 'Match not found' *)
| InvalidQuestion (error : string)  (* `Invalid question: ${error}` *)
| RevealNotInQuestionPhase    (* 'Can only reveal answer during question phase' *)
| NoCurrentQuestion           (* 'No current question to reveal' *)
| SkipNotAllowed              (* 'Can only skip during question or reveal phase' *)
| NotClosestQuestion          (* 'Question is not a closest question' *)
| UniqueConstraintViolation   (* Prisma P2002 on the MatchAnswer unique index *)
| PrismaValidation            (* a NaN passed for an Int column *)
| TypeError                   (* property access on undefined *)
| PlayerNotAuthenticated      (* 'Player not authenticated' *)
| PlayerNotInMatch            (* 'Player not found in match' *)
| QuestionNotFound            (* 'Question not found' *)
| RecordNotFound.             (* Prisma P2025: update of a missing row *)

(** The error taxonomy of the specification. *)
Inductive ErrKind : Type :=
| NotFound | StateConflict | InvalidContent | DuplicateSubmission
| Unauthorized | Unavailable.

#[global] Instance ErrKind_eq_dec : EqDecision ErrKind.
Proof. solve_decision. Defined.

Definition kind_of (e : Err) : ErrKind :=
  match e with
  | MatchStateNotFound | MatchNotFound | QuestionNotFound | RecordNotFound
  | PlayerNotInMatch | NoCurrentQuestion => NotFound
  | InvalidStateTransition _ _ | StartNotFromLobby
  | RevealNotInQuestionPhase | SkipNotAllowed => StateConflict
  | InvalidQuestion _ | NotClosestQuestion => InvalidContent
  | UniqueConstraintViolation => DuplicateSubmission
  | PlayerNotAuthenticated => Unauthorized
  | NoStateToSave | PrismaValidation | TypeError => Unavailable
  end.

Inductive Res (A : Type) : Type :=
| Ok (a : A)
| Throw (e : Err).
Arguments Ok {A} a.
Arguments Throw {A} e.

(** A computation over a store [S]: when it throws, the writes it made
    before the exception stay in the store. *)
Definition M (S A : Type) : Type := S → Res A * S.

Definition ret {S A} (a : A) : M S A := fun s => (Ok a, s).
Definition throw {S A} (e : Err) : M S A := fun s => (Throw e, s).
Definition bind {S A B} (c : M S A) (k : A → M S B) : M S B :=
  fun s => match c s with
           | (Ok a, s') => k a s'
           | (Throw e, s') => (Throw e, s')
           end.
Definition get {S} : M S S := fun s => (Ok s, s).
Definition gets {S A} (f : S → A) : M S A := fun s => (Ok (f s), s).
Definition modify {S} (f : S → S) : M S unit := fun s => (Ok tt, f s).

Declare Scope m_scope.
Delimit Scope m_scope with m.
Notation "'let*' x ':=' c 'in' k" := (bind c (fun x => k))
  (at level 10, x name, c at level 100, k at level 200) : m_scope.
Notation "c ';;' k" := (bind c (fun _ => k))
  (at level 100, k at level 200, right associativity) : m_scope.
Open Scope m_scope.


(** ** answer.service *)

Module AnswerService.

Record SubmitAnswerRequest : Type := {
  r_matchId : string;
  r_playerId : string;
  r_questionId : string;
  r_choice : string;
  r_clientLatencyMs : Z;
}.

Record SubmitAnswerResult : Type := {
  sr_isCorrect : bool;
  sr_correctAnswer : JsValue;
  sr_runsAwarded : Z;
  sr_bonusAwarded : bool;
  sr_answerMs : Z;
}.

Record Runs : Type := { runs : Z; bonusAwarded : bool }.

(** First 25% of the timer, in milliseconds: [timerSec * 1000 * 0.25]. *)
Definition speedThreshold (settings : MatchSettings) : Q :=
  (inject_Z (timerSec settings) * inject_Z 1000 * (1 # 4))%Q.

Definition calculateRuns (isCorrect : bool) (answerMs : Z)
    (settings : MatchSettings) (isGrandSlam : bool) : Runs :=
  if negb isCorrect then {| runs := 0; bonusAwarded := false |}
  else if grandSlam settings && isGrandSlam
  then {| runs := 4; bonusAwarded := true |}
  else if speedBonus settings
  then if Qle_bool (inject_Z answerMs) (speedThreshold settings)
       then {| runs := 4; bonusAwarded := true |}
       else {| runs := 1; bonusAwarded := false |}
  else {| runs := 1; bonusAwarded := false |}.

(** The [where] clause [{ matchId, inningIdx, questionIdx }]. *)
Definition for_question (matchId : string) (inningIdx questionIdx : Z)
    (a : MatchAnswer) : bool :=
  String.eqb (a_matchId a) matchId
  && (a_inningIdx a =? inningIdx)%Z && (a_questionIdx a =? questionIdx)%Z.

Definition correct_for_question (matchId : string) (inningIdx questionIdx : Z)
    (a : MatchAnswer) : bool :=
  for_question matchId inningIdx questionIdx a && a_isCorrect a.

(** The pure content of [isGrandSlam]: no correct answer is recorded in
    the ledger for this question. *)
Definition noCorrectYet (ledger : list MatchAnswer) (matchId : string)
    (inningIdx questionIdx : Z) : bool :=
  (length (filter (λ a, correct_for_question matchId inningIdx questionIdx a = true)
                  ledger) =? 0)%nat.

Definition isGrandSlam (matchId : string) (inningIdx questionIdx : Z)
    : M World bool :=
  gets (λ w, noCorrectYet (db_matchAnswer w) matchId inningIdx questionIdx).

(** The columns of the unique index
    [MatchAnswer_matchId_playerId_inningIdx_questionIdx_key]. *)
Definition answer_key (a : MatchAnswer) : string * string * Z * Z :=
  (a_matchId a, a_playerId a, a_inningIdx a, a_questionIdx a).

Definition has_key (k : string * string * Z * Z) (a : MatchAnswer) : bool :=
  bool_decide (answer_key a = k).

(** [prisma.matchAnswer.create]: the insert is refused when a row with
    the same index columns exists; the new row gets a fresh id.  That
    Prisma also refuses an [answerMs] that is no 32-bit integer is not
    modelled: see [Rules.fits_int]. *)
Definition matchAnswer_create (matchId playerId : string) (inningIdx questionIdx : Z)
    (choice : string) (isCorrect : bool) (answerMs : Z) (bonus : bool)
    : M World unit :=
  fun w =>
    let ledger := db_matchAnswer w in
    if existsb (has_key (matchId, playerId, inningIdx, questionIdx)) ledger
    then (Throw UniqueConstraintViolation, w)
    else
      let row := {| a_id := length ledger; a_matchId := matchId;
                    a_playerId := playerId; a_inningIdx := inningIdx;
                    a_questionIdx := questionIdx; a_choice := choice;
                    a_isCorrect := isCorrect; a_answerMs := answerMs;
                    a_bonusAwarded := bonus |} in
      (Ok tt, with_db_matchAnswer (λ l, l ++ [row]) w).

(** The key [`match:${matchId}:answers:${inningIdx}:${questionIdx}`]. *)
Definition cacheKey (matchId : string) (inningIdx questionIdx : Z) : string :=
  ("match:" ++ matchId ++ ":answers:" ++ pretty inningIdx ++ ":"
     ++ pretty questionIdx)%string.

#[global] Instance CachedAnswer_eq_dec : EqDecision CachedAnswer.
Proof. solve_decision. Defined.

(** [redisClient.sadd]: a set, so an equal member is not added twice.
    Expiry of keys is not modelled. *)
Definition sadd (key : string) (c : CachedAnswer) : M World unit :=
  modify (with_redis_sets (λ m,
    let old := default [] (m !! key) in
    if bool_decide (c ∈ old) then m else <[key := old ++ [c]]> m)).

Definition smembers (key : string) : M World (list CachedAnswer) :=
  gets (λ w, default [] (redis_sets w !! key)).

(** [questionId.split('-')] and the two [parseInt]s. *)
Definition parse_questionId (questionId : string) : option Z * option Z :=
  let parts := Js.split "-" questionId in
  (Js.parseInt (Js.from_end parts 2), Js.parseInt (Js.from_end parts 1)).

(** Prisma refuses [NaN] for an [Int] argument. *)
Definition int_arg (o : option Z) : M World Z :=
  match o with
  | Some z => ret z
  | None => throw PrismaValidation
  end.

Definition submitAnswer (request : SubmitAnswerRequest) (question : Question)
    (settings : MatchSettings) : M World SubmitAnswerResult :=
  let matchId := r_matchId request in
  let playerId := r_playerId request in
  let choice := r_choice request in
  let clientLatencyMs := r_clientLatencyMs request in
  let '(inningIdx, questionIdx) := parse_questionId (r_questionId request) in
  let correct := QuestionService.isAnswerCorrect question choice in
  let* inningIdx := int_arg inningIdx in
  let* questionIdx := int_arg questionIdx in
  let* grandSlam := isGrandSlam matchId inningIdx questionIdx in
  let r := calculateRuns correct clientLatencyMs settings grandSlam in
  matchAnswer_create matchId playerId inningIdx questionIdx choice correct
    clientLatencyMs (bonusAwarded r) ;;
  sadd (cacheKey matchId inningIdx questionIdx)
    {| c_playerId := playerId; c_choice := choice; c_isCorrect := correct;
       c_runsAwarded := runs r; c_bonusAwarded := bonusAwarded r;
       c_answerMs := clientLatencyMs |} ;;
  ret {| sr_isCorrect := correct;
         sr_correctAnswer := QuestionService.getCorrectAnswer question;
         sr_runsAwarded := runs r;
         sr_bonusAwarded := bonusAwarded r;
         sr_answerMs := clientLatencyMs |}.

(** The scoring decision of a submission whose question id parses to
    [(i, q)], against a given ledger. *)
Definition decided_runs (ledger : list MatchAnswer) (request : SubmitAnswerRequest)
    (question : Question) (settings : MatchSettings) (i q : Z) : Runs :=
  calculateRuns (QuestionService.isAnswerCorrect question (r_choice request))
    (r_clientLatencyMs request) settings
    (noCorrectYet ledger (r_matchId request) i q).

(** The row a successful submission appends. *)
Definition submitted_row (ledger : list MatchAnswer) (request : SubmitAnswerRequest)
    (question : Question) (settings : MatchSettings) (i q : Z) : MatchAnswer :=
  {| a_id := length ledger; a_matchId := r_matchId request;
     a_playerId := r_playerId request; a_inningIdx := i; a_questionIdx := q;
     a_choice := r_choice request;
     a_isCorrect := QuestionService.isAnswerCorrect question (r_choice request);
     a_answerMs := r_clientLatencyMs request;
     a_bonusAwarded := bonusAwarded (decided_runs ledger request question settings i q) |}.

Definition submitted_cache (ledger : list MatchAnswer) (request : SubmitAnswerRequest)
    (question : Question) (settings : MatchSettings) (i q : Z) : CachedAnswer :=
  let r := decided_runs ledger request question settings i q in
  {| c_playerId := r_playerId request; c_choice := r_choice request;
     c_isCorrect := QuestionService.isAnswerCorrect question (r_choice request);
     c_runsAwarded := runs r; c_bonusAwarded := bonusAwarded r;
     c_answerMs := r_clientLatencyMs request |}.

Definition submitted_result (ledger : list MatchAnswer) (request : SubmitAnswerRequest)
    (question : Question) (settings : MatchSettings) (i q : Z) : SubmitAnswerResult :=
  let r := decided_runs ledger request question settings i q in
  {| sr_isCorrect := QuestionService.isAnswerCorrect question (r_choice request);
     sr_correctAnswer := QuestionService.getCorrectAnswer question;
     sr_runsAwarded := runs r;
     sr_bonusAwarded := bonusAwarded r;
     sr_answerMs := r_clientLatencyMs request |}.

Definition find_player (players : list MatchPlayer) (id : string)
    : option MatchPlayer :=
  snd <$> list_find (λ p, p_id p = id) players.

Record QuestionAnswer : Type := {
  qa_playerId : string;
  qa_nickname : string;
  qa_choice : string;
  qa_isCorrect : bool;
  qa_runsAwarded : Z;
  qa_bonusAwarded : bool;
  qa_answerMs : Z;
}.

(** [player?.nickname || 'Unknown'] *)
Definition nickname_or_unknown (o : option MatchPlayer) : string :=
  match o with
  | Some p => if String.eqb (p_nickname p) "" then "Unknown" else p_nickname p
  | None => "Unknown"
  end.

Definition of_cached (players : list MatchPlayer) (c : CachedAnswer)
    : QuestionAnswer :=
  {| qa_playerId := c_playerId c;
     qa_nickname := nickname_or_unknown (find_player players (c_playerId c));
     qa_choice := c_choice c; qa_isCorrect := c_isCorrect c;
     qa_runsAwarded := c_runsAwarded c; qa_bonusAwarded := c_bonusAwarded c;
     qa_answerMs := c_answerMs c |}.

(** The row joined with its player; the foreign key makes the player
    exist, so a missing one is only the [TypeError] of [answer.player.nickname]. *)
Definition of_row (players : list MatchPlayer) (a : MatchAnswer)
    : Res QuestionAnswer :=
  match find_player players (a_playerId a) with
  | Some p =>
      Ok {| qa_playerId := a_playerId a; qa_nickname := p_nickname p;
            qa_choice := a_choice a; qa_isCorrect := a_isCorrect a;
            qa_runsAwarded :=
              if a_bonusAwarded a then 4 else if a_isCorrect a then 1 else 0;
            qa_bonusAwarded := a_bonusAwarded a;
            qa_answerMs := a_answerMs a |}
  | None => Throw TypeError
  end.

Fixpoint sequence {A} (l : list (Res A)) : Res (list A) :=
  match l with
  | [] => Ok []
  | Ok a :: r =>
      match sequence r with Ok r' => Ok (a :: r') | Throw e => Throw e end
  | Throw e :: _ => Throw e
  end.

(** Cache first; the database only when the cached set is empty. *)
Definition getQuestionAnswers (matchId : string) (inningIdx questionIdx : Z)
    : M World (list QuestionAnswer) :=
  let* cachedAnswers := smembers (cacheKey matchId inningIdx questionIdx) in
  let* players := gets db_matchPlayer in
  if (0 <? length cachedAnswers)%nat
  then ret (map (of_cached players) cachedAnswers)
  else
    let* ledger := gets db_matchAnswer in
    let dbAnswers :=
      filter (λ a, for_question matchId inningIdx questionIdx a = true) ledger in
    fun w => (sequence (map (of_row players) dbAnswers), w).

Definition calculateInningRuns (matchId : string) (inningIdx : Z) : M World Z :=
  let* ledger := gets db_matchAnswer in
  let answers :=
    filter (λ a, (String.eqb (a_matchId a) matchId
                  && (a_inningIdx a =? inningIdx)%Z && a_isCorrect a) = true)
           ledger in
  ret (foldl (λ total a, total + (if a_bonusAwarded a then 4 else 1)) 0 answers).

End AnswerService.

(** ** reveal.service *)

Module RevealService.
Import AnswerService.

Definition Qlt_bool (a b : Q) : bool := negb (Qle_bool b a).

(** One iteration of the loop over the answers: the state is
    [minDistance] ([None] for [Infinity]) and [closestAnswerIds].  The
    distances are compared as exact rationals, where the code compares
    doubles: the two agree when the correct value and the answers are
    integers up to [2^52]. *)
Definition closest_step (correctValue : Q) (st : option Q * list nat)
    (answer : MatchAnswer) : option Q * list nat :=
  match Js.parseFloat (a_choice answer) with
  | None => st
  | Some numericAnswer =>
      let distance := Js.abs (correctValue - numericAnswer)%Q in
      match fst st with
      | None => (Some distance, [a_id answer])
      | Some minDistance =>
          if Qlt_bool distance minDistance then (Some distance, [a_id answer])
          else if Qeq_bool distance minDistance
               then (fst st, snd st ++ [a_id answer])
               else st
      end
  end.

Definition closestAnswerIds (correctValue : Q) (answers : list MatchAnswer)
    : list nat :=
  snd (foldl (closest_step correctValue) (None, []) answers).

Definition mark_correct (a : MatchAnswer) : MatchAnswer :=
  {| a_id := a_id a; a_matchId := a_matchId a; a_playerId := a_playerId a;
     a_inningIdx := a_inningIdx a; a_questionIdx := a_questionIdx a;
     a_choice := a_choice a; a_isCorrect := true; a_answerMs := a_answerMs a;
     a_bonusAwarded := false |}.

(** [prisma.matchAnswer.updateMany({ where: { id: { in: ids } }, data })] *)
Definition updateMany_correct (ids : list nat) (ledger : list MatchAnswer)
    : list MatchAnswer :=
  map (λ a, if bool_decide (a_id a ∈ ids) then mark_correct a else a) ledger.

Definition handleClosestQuestion (matchId : string) (inningIdx questionIdx : Z)
    (question : Question) : M World unit :=
  match q_body question with
  | ClosestBody correctValue =>
      let* ledger := gets db_matchAnswer in
      let answers :=
        filter (λ a, for_question matchId inningIdx questionIdx a = true) ledger in
      if (length answers =? 0)%nat then ret tt
      else
        let ids := closestAnswerIds correctValue answers in
        if (0 <? length ids)%nat
        then modify (with_db_matchAnswer (updateMany_correct ids))
        else ret tt
  | _ => throw NotClosestQuestion
  end.

Definition generateRevealPayload (matchId questionId : string)
    (question : Question) : M World QuestionRevealPayload :=
  let '(inningIdx, questionIdx) := parse_questionId questionId in
  let* inningIdx := int_arg inningIdx in
  let* questionIdx := int_arg questionIdx in
  (match q_body question with
   | ClosestBody _ => handleClosestQuestion matchId inningIdx questionIdx question
   | _ => ret tt
   end) ;;
  let* answers := getQuestionAnswers matchId inningIdx questionIdx in
  let correctAnswer := QuestionService.getCorrectAnswer question in
  let correctIndex :=
    match q_body question with
    | McBody _ ci | MediaBody _ ci => Some ci
    | _ => None
    end in
  let playerResults :=
    map (λ answer, {| pr_playerId := qa_playerId answer;
                      pr_nickname := qa_nickname answer;
                      pr_isCorrect := qa_isCorrect answer;
                      pr_runsAwarded := qa_runsAwarded answer |}) answers in
  match correctAnswer with
  | JsUndefined => throw TypeError   (* [undefined.toString()] *)
  | _ =>
      ret {| rp_questionId := questionId; rp_correctAnswer := correctAnswer;
             rp_correctIndex := correctIndex; rp_clipUrl := q_clipUrl question;
             rp_playerResults := playerResults |}
  end.

Definition updateLineScore (matchId : string) (inningIdx : Z) : M World Z :=
  calculateInningRuns matchId inningIdx.

End RevealService.

(** ** state-machine.service *)

(** A [MatchStateMachine] instance at work: its private [state] field and
    the stores it talks to. *)
Record Machine : Type := {
  this_state : option MatchState;
  world : World;
}.

Definition liftW {A} (c : M World A) : M Machine A :=
  fun m => let '(r, w') := c (world m) in
           (r, {| this_state := this_state m; world := w' |}).

Definition set_phase (p : MatchPhase) (s : MatchState) : MatchState :=
  {| ms_matchId := ms_matchId s; ms_phase := p; ms_inning := ms_inning s;
     ms_questionIdx := ms_questionIdx s; ms_question := ms_question s;
     ms_endsAt := ms_endsAt s; ms_lineScore := ms_lineScore s;
     ms_leaderboard := ms_leaderboard s; ms_players := ms_players s |}.

Definition set_inning (i : Z) (s : MatchState) : MatchState :=
  {| ms_matchId := ms_matchId s; ms_phase := ms_phase s; ms_inning := i;
     ms_questionIdx := ms_questionIdx s; ms_question := ms_question s;
     ms_endsAt := ms_endsAt s; ms_lineScore := ms_lineScore s;
     ms_leaderboard := ms_leaderboard s; ms_players := ms_players s |}.

Definition set_questionIdx (i : Z) (s : MatchState) : MatchState :=
  {| ms_matchId := ms_matchId s; ms_phase := ms_phase s; ms_inning := ms_inning s;
     ms_questionIdx := i; ms_question := ms_question s;
     ms_endsAt := ms_endsAt s; ms_lineScore := ms_lineScore s;
     ms_leaderboard := ms_leaderboard s; ms_players := ms_players s |}.

Definition set_question (q : option QuestionPayload) (s : MatchState) : MatchState :=
  {| ms_matchId := ms_matchId s; ms_phase := ms_phase s; ms_inning := ms_inning s;
     ms_questionIdx := ms_questionIdx s; ms_question := q;
     ms_endsAt := ms_endsAt s; ms_lineScore := ms_lineScore s;
     ms_leaderboard := ms_leaderboard s; ms_players := ms_players s |}.

Definition set_endsAt (e : option Z) (s : MatchState) : MatchState :=
  {| ms_matchId := ms_matchId s; ms_phase := ms_phase s; ms_inning := ms_inning s;
     ms_questionIdx := ms_questionIdx s; ms_question := ms_question s;
     ms_endsAt := e; ms_lineScore := ms_lineScore s;
     ms_leaderboard := ms_leaderboard s; ms_players := ms_players s |}.

Definition set_lineScore (l : list (option Z)) (s : MatchState) : MatchState :=
  {| ms_matchId := ms_matchId s; ms_phase := ms_phase s; ms_inning := ms_inning s;
     ms_questionIdx := ms_questionIdx s; ms_question := ms_question s;
     ms_endsAt := ms_endsAt s; ms_lineScore := l;
     ms_leaderboard := ms_leaderboard s; ms_players := ms_players s |}.

Definition set_leaderboard (l : list PlayerScore) (s : MatchState) : MatchState :=
  {| ms_matchId := ms_matchId s; ms_phase := ms_phase s; ms_inning := ms_inning s;
     ms_questionIdx := ms_questionIdx s; ms_question := ms_question s;
     ms_endsAt := ms_endsAt s; ms_lineScore := ms_lineScore s;
     ms_leaderboard := l; ms_players := ms_players s |}.

Definition set_match_started (now : Z) (m : Match) : Match :=
  {| m_status := IN_PROGRESS; m_settings := m_settings m;
     m_startedAt := Some now; m_endedAt := m_endedAt m;
     m_innings := m_innings m |}.

Definition set_match_completed (now : Z) (m : Match) : Match :=
  {| m_status := COMPLETED; m_settings := m_settings m;
     m_startedAt := m_startedAt m; m_endedAt := Some now;
     m_innings := m_innings m |}.

(** The stable sort of [Array.prototype.sort] under a comparator that
    returns a number: insertion from the right keeps equal elements in
    their input order. *)
Section JsSort.
Context {A : Type} (cmp : A → A → Z).

Fixpoint sort_insert (x : A) (l : list A) : list A :=
  match l with
  | [] => [x]
  | y :: r => if (cmp x y <=? 0)%Z then x :: y :: r else y :: sort_insert x r
  end.

Fixpoint js_sort (l : list A) : list A :=
  match l with
  | [] => []
  | x :: r => sort_insert x (js_sort r)
  end.

(** [a] may stand in front of [b]. *)
Definition before (a b : A) : Prop := cmp a b ≤ 0.
End JsSort.

Module StateMachine.

(** [VALID_TRANSITIONS] *)
Definition VALID_TRANSITIONS (p : MatchPhase) : list MatchPhase :=
  match p with
  | LOBBY => [QUESTION]
  | QUESTION => [REVEAL]
  | REVEAL => [QUESTION; STRETCH; POSTGAME]
  | STRETCH => [QUESTION]
  | POSTGAME => []
  end.

Definition includes (l : list MatchPhase) (p : MatchPhase) : bool :=
  bool_decide (p ∈ l).

(** The key [`match:${matchId}:state`]. *)
Definition stateKey (matchId : string) : string :=
  ("match:" ++ matchId ++ ":state")%string.

Section Instance.
(** The [matchId] given to the constructor. *)
Variable matchId : string.

Definition loadState : M Machine MatchState :=
  fun m =>
    match redis_state (world m) !! stateKey matchId with
    | None => (Throw MatchStateNotFound, m)
    | Some s => (Ok s, {| this_state := Some s; world := world m |})
    end.

Definition saveState : M Machine unit :=
  fun m =>
    match this_state m with
    | None => (Throw NoStateToSave, m)
    | Some s =>
        (Ok tt, {| this_state := this_state m;
                   world := with_redis_state (insert (stateKey matchId) s)
                              (world m) |})
    end.

(** [this.state!] read and written in place. *)
Definition this_get : M Machine MatchState :=
  fun m => match this_state m with
           | Some s => (Ok s, m)
           | None => (Throw TypeError, m)
           end.

Definition this_set (f : MatchState → MatchState) : M Machine unit :=
  fun m => match this_state m with
           | Some s => (Ok tt, {| this_state := Some (f s); world := world m |})
           | None => (Throw TypeError, m)
           end.

Definition emit (ev : Event) : M Machine unit :=
  liftW (modify (with_emitted (λ l, l ++ [(matchId, ev)]))).

Definition emit_state : M Machine unit :=
  let* s := this_get in emit (StateUpdate s).

Definition findMatch : M Machine (option Match) :=
  gets (λ m, db_match (world m) !! matchId).

(** [prisma.match.update({ where: { id }, data })] *)
Definition updateMatch (f : Match → Match) : M Machine unit :=
  let* found := findMatch in
  match found with
  | None => throw RecordNotFound
  | Some _ => liftW (modify (with_db_match (alter f matchId)))
  end.

Definition transition (newPhase : MatchPhase) : M Machine unit :=
  let* s := loadState in
  let currentPhase := ms_phase s in
  let allowedTransitions := VALID_TRANSITIONS currentPhase in
  if negb (includes allowedTransitions newPhase)
  then throw (InvalidStateTransition currentPhase newPhase)
  else
    this_set (set_phase newPhase) ;;
    saveState ;;
    emit_state.

(** [innings[i].questions[j]] followed by [validateQuestion]; reading
    [.questions] of a missing inning or [.text] of a missing question
    is a [TypeError]. *)
Definition question_at (innings : list Inning) (i j : Z) : M Machine Question :=
  match Js.index innings i with
  | None => throw TypeError
  | Some inn =>
      match Js.index (i_questions inn) j with
      | None => throw TypeError
      | Some q => ret q
      end
  end.

Definition validated (question : Question) : M Machine unit :=
  match QuestionService.validateQuestion question with
  | QuestionService.Valid => ret tt
  | QuestionService.Invalid error => throw (InvalidQuestion error)
  end.

Definition show_question (question : Question) (inning questionIdx : Z)
    (settings : MatchSettings) (now : Z) : M Machine unit :=
  this_set (set_question (Some (QuestionService.formatQuestion
    {| QuestionService.fo_matchId := matchId;
       QuestionService.fo_question := question;
       QuestionService.fo_inning := inning;
       QuestionService.fo_questionIdx := questionIdx;
       QuestionService.fo_timerSec := timerSec settings |}))) ;;
  this_set (set_endsAt (Some (now + timerSec settings * 1000))).

Definition emit_question_show : M Machine unit :=
  let* s := this_get in emit (QuestionShow (ms_question s) (ms_endsAt s)).

Definition startMatch (now : Z) : M Machine unit :=
  let* s := loadState in
  if negb (bool_decide (ms_phase s = LOBBY)) then throw StartNotFromLobby
  else
    let* found := findMatch in
    match found with
    | None => throw MatchNotFound
    | Some match_ =>
        updateMatch (set_match_started now) ;;
        this_set (set_inning 0) ;;
        this_set (set_questionIdx 0) ;;
        this_set (set_phase QUESTION) ;;
        let* question := question_at (m_innings match_) 0 0 in
        let settings := m_settings match_ in
        validated question ;;
        show_question question 0 0 settings now ;;
        saveState ;;
        emit_state ;;
        emit_question_show
    end.

Definition endMatch (now : Z) : M Machine unit :=
  loadState ;;
  this_set (set_phase POSTGAME) ;;
  this_set (set_question None) ;;
  this_set (set_endsAt None) ;;
  saveState ;;
  updateMatch (set_match_completed now) ;;
  let* s := this_get in
  let leaderboard := ms_leaderboard s in
  let mvp := match leaderboard with
             | first :: _ => ps_playerId first
             | [] => ""%string
             end in
  emit_state ;;
  emit (MatchEnd leaderboard mvp).

(** [setTimeout(callback, 30000)]: the callback closes over [this]. *)
Definition setTimeout (delay : Z) (now : Z) : M Machine unit :=
  fun m =>
    (Ok tt, {| this_state := this_state m;
               world := with_timers
                          (λ l, l ++ [{| t_due := now + delay;
                                         t_matchId := matchId;
                                         t_this := this_state m |}])
                          (world m) |}).

Definition triggerStretch (now : Z) : M Machine unit :=
  loadState ;;
  this_set (set_phase STRETCH) ;;
  this_set (set_endsAt (Some (now + 30000))) ;;
  saveState ;;
  emit_state ;;
  emit (StretchStart 30) ;;
  setTimeout 30000 now.

Definition nextQuestion (now : Z) : M Machine unit :=
  let* s := loadState in
  let* found := findMatch in
  match found with
  | None => throw MatchNotFound
  | Some match_ =>
      let innings := m_innings match_ in
      let currentInning := ms_inning s in
      let currentQuestionIdx := ms_questionIdx s in
      match Js.index innings currentInning with
      | None => throw TypeError
      | Some inn =>
          let advance : M Machine bool :=
            if (Z.of_nat (length (i_questions inn)) <=? currentQuestionIdx + 1)%Z
            then
              if (Z.of_nat (length innings) <=? currentInning + 1)%Z
              then endMatch now ;; ret false
              else if (currentInning =? 6)%Z
              then triggerStretch now ;; ret false
              else
                this_set (set_inning (currentInning + 1)) ;;
                this_set (set_questionIdx 0) ;;
                ret true
            else
              this_set (set_questionIdx (currentQuestionIdx + 1)) ;;
              ret true in
          let* continue := advance in
          if negb continue then ret tt
          else
            let* s' := this_get in
            let* question :=
              question_at innings (ms_inning s') (ms_questionIdx s') in
            let settings := m_settings match_ in
            validated question ;;
            this_set (set_phase QUESTION) ;;
            show_question question (ms_inning s') (ms_questionIdx s')
              settings now ;;
            saveState ;;
            emit_state ;;
            emit_question_show
      end
  end.

(** The callback scheduled by [triggerStretch]. *)
Definition stretchTimeout (now : Z) : M Machine unit :=
  this_set (set_inning 7) ;;
  this_set (set_questionIdx 0) ;;
  nextQuestion now.

Definition revealAnswer : M Machine unit :=
  let* s := loadState in
  if negb (bool_decide (ms_phase s = QUESTION))
  then throw RevealNotInQuestionPhase
  else
    match ms_question s with
    | None => throw NoCurrentQuestion
    | Some currentQuestion =>
        let* found := findMatch in
        match found with
        | None => throw MatchNotFound
        | Some match_ =>
            let* question :=
              question_at (m_innings match_) (ms_inning s) (ms_questionIdx s) in
            let* revealPayload :=
              liftW (RevealService.generateRevealPayload matchId
                       (qp_id currentQuestion) question) in
            let* inningRuns :=
              liftW (RevealService.updateLineScore matchId (ms_inning s)) in
            this_set (λ st, set_lineScore
              (Js.array_set None (ms_lineScore st) (ms_inning st)
                 (Some inningRuns)) st) ;;
            this_set (set_phase REVEAL) ;;
            this_set (set_endsAt None) ;;
            saveState ;;
            emit_state ;;
            emit (QuestionReveal revealPayload)
        end
    end.

Definition pauseMatch (now : Z) : M Machine unit :=
  loadState ;;
  liftW (modify (with_redis_paused (λ p, p ∪ {[ matchId ]}))) ;;
  emit (MatchPaused now).

(** A number is truthy unless it is [undefined] or [0]. *)
Definition truthy_num (o : option Z) : bool :=
  match o with
  | Some z => negb (z =? 0)%Z
  | None => false
  end.

Definition resumeMatch (now : Z) : M Machine unit :=
  let* s := loadState in
  liftW (modify (with_redis_paused (λ p, p ∖ {[ matchId ]}))) ;;
  (if bool_decide (ms_phase s = QUESTION) && truthy_num (ms_endsAt s)
   then
     let* found := findMatch in
     match found with
     | Some match_ =>
         this_set (set_endsAt (Some (now + timerSec (m_settings match_) * 1000))) ;;
         saveState
     | None => ret tt
     end
   else ret tt) ;;
  let* s' := this_get in
  emit (MatchResumed now (ms_endsAt s')).

Definition skipQuestion (now : Z) : M Machine unit :=
  let* s := loadState in
  if bool_decide (ms_phase s = QUESTION) || bool_decide (ms_phase s = REVEAL)
  then nextQuestion now
  else throw SkipNotAllowed.

(** The comparator of [updateLeaderboard]: runs descending, then total
    time ascending. *)
Definition compareScores (a b : PlayerScore) : Z :=
  if negb (ps_runs b =? ps_runs a)%Z then ps_runs b - ps_runs a
  else ps_totalTimeMs a - ps_totalTimeMs b.

Definition updateLeaderboard (players : list PlayerScore) : M Machine unit :=
  loadState ;;
  this_set (set_leaderboard (js_sort compareScores players)) ;;
  saveState ;;
  let* s := this_get in
  emit (ScoreUpdate (ms_leaderboard s) (ms_lineScore s)).

Definition updateLineScore (inning runs : Z) : M Machine unit :=
  loadState ;;
  this_set (λ st, set_lineScore
    (Js.array_set None (ms_lineScore st) inning (Some runs)) st) ;;
  saveState.

End Instance.

(** [new MatchStateMachine(matchId)] run on the stores: the instance
    starts with [state = null] and is dropped afterwards. *)
Definition run {A} (c : M Machine A) (w : World) : Res A * World :=
  let '(r, m) := c {| this_state := None; world := w |} in (r, world m).

(** The phase stored for a match, if any. *)
Definition stored_phase (matchId : string) (w : World) : option MatchPhase :=
  ms_phase <$> redis_state w !! stateKey matchId.

(** The phase changes the host operations make by design: the table, and
    for a skip during the question phase also question to stretch and
    question to postgame. *)
Definition allowed_change (p p' : MatchPhase) : bool :=
  includes (VALID_TRANSITIONS p) p'
  || (bool_decide (p = QUESTION)
      && (bool_decide (p' = STRETCH) || bool_decide (p' = POSTGAME))).

End StateMachine.

(** Firing a pending timer: the callback runs on the instance it closed
    over; an exception in it is an unhandled rejection and is dropped. *)
Definition fireTimer (n : nat) (now : Z) (w : World) : World :=
  match timers w !! n with
  | None => w
  | Some t =>
      let w' := with_timers (delete n) w in
      world (snd (StateMachine.stretchTimeout (t_matchId t) now
                    {| this_state := t_this t; world := w' |}))
  end.

(** ** match.service *)

Module MatchService.

(** [updateMatchStatus]: the status, with [startedAt] or [endedAt] stamped
    as the new status asks. *)
Definition updateMatchStatus (matchId : string) (status : MatchStatus) (now : Z)
    : M World unit :=
  let updateData (m : Match) : Match :=
    {| m_status := status;
       m_settings := m_settings m;
       m_startedAt := match status with
                      | IN_PROGRESS => Some now
                      | _ => m_startedAt m
                      end;
       m_endedAt := match status with
                    | COMPLETED | ABANDONED => Some now
                    | _ => m_endedAt m
                    end;
       m_innings := m_innings m |} in
  fun w =>
    match db_match w !! matchId with
    | None => (Throw RecordNotFound, w)
    | Some _ => (Ok tt, with_db_match (alter updateData matchId) w)
    end.

End MatchService.

(** ** The [answer:submit] handler *)

Module PlayerHandler.
Import AnswerService.

Record AnswerSubmitPayload : Type := {
  ap_matchId : string;
  ap_questionId : string;
  ap_choice : string;
  ap_clientLatencyMs : Z;
}.

(** [innings[inningIdx]?.questions[questionIdx]] with [NaN] indices
    reading [undefined]. *)
Definition pack_question (innings : list Inning) (inningIdx questionIdx : option Z)
    : option Question :=
  match inningIdx with
  | None => None
  | Some i =>
      match Js.index innings i with
      | None => None
      | Some inn =>
          match questionIdx with
          | None => None
          | Some j => Js.index (i_questions inn) j
          end
      end
  end.

(** The answers of one player: [where: { matchId, playerId: p.id }]. *)
Definition answers_of (ledger : list MatchAnswer) (matchId : string)
    (p : MatchPlayer) : list MatchAnswer :=
  filter (λ a, (String.eqb (a_matchId a) matchId
                && String.eqb (a_playerId a) (p_id p)) = true) ledger.

Definition playerScore (ledger : list MatchAnswer) (matchId : string)
    (p : MatchPlayer) : PlayerScore :=
  let answers := answers_of ledger matchId p in
  {| ps_playerId := p_id p;
     ps_nickname := p_nickname p;
     ps_avatar := match p_avatar p with
                  | Some a => if String.eqb a "" then None else Some a
                  | None => None
                  end;
     ps_runs := foldl (λ sum a, if negb (a_isCorrect a) then sum
                                else sum + (if a_bonusAwarded a then 4 else 1))
                      0 answers;
     ps_correct := Z.of_nat (length (filter (λ a, a_isCorrect a = true) answers));
     ps_total := Z.of_nat (length answers);
     ps_totalTimeMs := foldl (λ sum a, sum + a_answerMs a) 0 answers |}.

(** The players still in the match: [where: { matchId, leftAt: null }]. *)
Definition active_players (players : list MatchPlayer) (matchId : string)
    : list MatchPlayer :=
  filter (λ p, (String.eqb (p_matchId p) matchId
                && bool_decide (p_leftAt p = None)) = true) players.

Definition playerScores (w : World) (matchId : string) : list PlayerScore :=
  map (playerScore (db_matchAnswer w) matchId)
      (active_players (db_matchPlayer w) matchId).

(** The handler; the error it reports on the socket is the thrown value.
    [socketUser] is [socket.data.user?.userId]. *)
Definition answerSubmit (socketUser : option string)
    (payload : AnswerSubmitPayload) : M World SubmitAnswerResult :=
  let matchId := ap_matchId payload in
  match socketUser with
  | None => throw PlayerNotAuthenticated
  | Some playerId =>
      if String.eqb playerId "" then throw PlayerNotAuthenticated
      else
        let* players := gets db_matchPlayer in
        match find_player players playerId with
        | None => throw PlayerNotInMatch
        | Some player =>
            if negb (String.eqb (p_matchId player) matchId)
            then throw PlayerNotInMatch
            else
              let* found := gets (λ w, db_match w !! matchId) in
              match found with
              | None => throw MatchNotFound
              | Some match_ =>
                  let '(inningIdx, questionIdx) :=
                    parse_questionId (ap_questionId payload) in
                  match pack_question (m_innings match_) inningIdx questionIdx with
                  | None => throw QuestionNotFound
                  | Some question =>
                      let* result :=
                        submitAnswer
                          {| r_matchId := matchId; r_playerId := playerId;
                             r_questionId := ap_questionId payload;
                             r_choice := ap_choice payload;
                             r_clientLatencyMs := ap_clientLatencyMs payload |}
                          question (m_settings match_) in
                      let* w := get in
                      (fun w0 =>
                         StateMachine.run
                           (StateMachine.loadState matchId ;;
                            StateMachine.updateLeaderboard matchId
                              (playerScores w matchId)) w0) ;;
                      ret result
                  end
              end
        end
  end.

End PlayerHandler.

(** ** The host handlers *)

Module HostHandler.

Inductive HostAction : Type :=
| ActPause | ActResume | ActSkip | ActReveal | ActStretch | ActStart.

(** [host:action]: a fresh state machine per command. *)
Definition hostAction (matchId : string) (action : HostAction) (now : Z)
    (w : World) : Res unit * World :=
  StateMachine.run
    (match action with
     | ActPause => StateMachine.pauseMatch matchId now
     | ActResume => StateMachine.resumeMatch matchId now
     | ActSkip => StateMachine.skipQuestion matchId now
     | ActReveal => StateMachine.revealAnswer matchId
     | ActStretch => StateMachine.triggerStretch matchId now
     | ActStart => StateMachine.startMatch matchId now
     end) w.

End HostHandler.

(** ** Concurrent submissions

    Every [await] of [submitAnswer] is a suspension point, so concurrent
    calls interleave between the ledger query of [isGrandSlam], the insert,
    and the cache write.  A call is a little program counter machine whose
    steps are exactly those store accesses (the [expire] that follows the
    cache write only sets a time to live, which is not modelled); a schedule
    picks which call moves next. *)

Module Concurrent.
Import AnswerService.

Record Call : Type := {
  call_request : SubmitAnswerRequest;
  call_question : Question;
  call_settings : MatchSettings;
}.

Inductive Pc : Type :=
| AtGrandSlam                       (* before [await isGrandSlam(...)] *)
| AtCreate (grandSlam : bool)       (* before [await prisma.matchAnswer.create] *)
| AtCache (r : Runs)                (* before [await redisClient.sadd] *)
| Finished (r : Res SubmitAnswerResult).

Definition call_key (c : Call) : option (string * string * Z * Z) :=
  match parse_questionId (r_questionId (call_request c)) with
  | (Some i, Some q) =>
      Some (r_matchId (call_request c), r_playerId (call_request c), i, q)
  | _ => None
  end.

Definition call_result (c : Call) (r : Runs) : SubmitAnswerResult :=
  let req := call_request c in
  {| sr_isCorrect := QuestionService.isAnswerCorrect (call_question c) (r_choice req);
     sr_correctAnswer := QuestionService.getCorrectAnswer (call_question c);
     sr_runsAwarded := runs r;
     sr_bonusAwarded := bonusAwarded r;
     sr_answerMs := r_clientLatencyMs req |}.

(** One store access of the call. *)
Definition step (c : Call) (pc : Pc) (w : World) : Pc * World :=
  let req := call_request c in
  let correct := QuestionService.isAnswerCorrect (call_question c) (r_choice req) in
  match pc with
  | Finished _ => (pc, w)
  | _ =>
      match call_key c with
      | None => (Finished (Throw PrismaValidation), w)
      | Some (matchId, playerId, i, q) =>
          match pc with
          | AtGrandSlam =>
              (AtCreate (noCorrectYet (db_matchAnswer w) matchId i q), w)
          | AtCreate gs =>
              let r := calculateRuns correct (r_clientLatencyMs req)
                         (call_settings c) gs in
              match matchAnswer_create matchId playerId i q (r_choice req)
                      correct (r_clientLatencyMs req) (bonusAwarded r) w with
              | (Ok _, w') => (AtCache r, w')
              | (Throw e, w') => (Finished (Throw e), w')
              end
          | AtCache r =>
              let '(_, w') :=
                sadd (cacheKey matchId i q)
                  {| c_playerId := playerId; c_choice := r_choice req;
                     c_isCorrect := correct; c_runsAwarded := runs r;
                     c_bonusAwarded := bonusAwarded r;
                     c_answerMs := r_clientLatencyMs req |} w in
              (Finished (Ok (call_result c r)), w')
          | Finished _ => (pc, w)
          end
      end
  end.

(** A call run alone, start to finish. *)
Definition run_alone (c : Call) (w : World) : Pc * World :=
  let '(pc1, w1) := step c AtGrandSlam w in
  let '(pc2, w2) := step c pc1 w1 in
  step c pc2 w2.

(** The scheduler lets call number [i] make its next step. *)
Definition sched_step (calls : list Call) (st : list Pc * World) (i : nat)
    : list Pc * World :=
  match calls !! i, fst st !! i with
  | Some c, Some pc =>
      let '(pc', w') := step c pc (snd st) in (<[i := pc']> (fst st), w')
  | _, _ => st
  end.

Definition run_schedule (calls : list Call) (sched : list nat) (w : World)
    : list Pc * World :=
  foldl (sched_step calls) (replicate (length calls) AtGrandSlam, w) sched.







End Concurrent.

(** ** A small match used in the examples *)

Module Fixture.
Import AnswerService.

Definition settings (gs sb : bool) : MatchSettings :=
  {| grandSlam := gs; speedBonus := sb; timerSec := 20 |}.

Definition q_mc : Question :=
  {| q_text := "Who hit the walk-off?"; q_mediaUrl := None; q_clipUrl := None;
     q_body := McBody ["Carter"; "Alomar"; "Olerud"] 0 |}.

Definition q_closest : Question :=
  {| q_text := "How many home runs?"; q_mediaUrl := None; q_clipUrl := None;
     q_body := ClosestBody (inject_Z 54) |}.

(** A question with an empty text, which [validateQuestion] refuses. *)
Definition q_blank : Question :=
  {| q_text := ""; q_mediaUrl := None; q_clipUrl := None;
     q_body := TfBody true |}.

Definition player (id : string) : MatchPlayer :=
  {| p_id := id; p_matchId := "m1"; p_nickname := id; p_avatar := None;
     p_leftAt := None |}.

(** The state [initializeMatchState] stores for a pack of [n] innings. *)
Definition initialState (matchId : string) (n : nat) : MatchState :=
  {| ms_matchId := matchId; ms_phase := LOBBY; ms_inning := 0;
     ms_questionIdx := 0; ms_question := None; ms_endsAt := None;
     ms_lineScore := replicate n None; ms_leaderboard := [];
     ms_players := [] |}.

Definition lobby_match (s : MatchSettings) (innings : list Inning) : Match :=
  {| m_status := ST_LOBBY; m_settings := s; m_startedAt := None;
     m_endedAt := None; m_innings := innings |}.

(** A freshly created match [m1] with three joined players. *)
Definition fresh (s : MatchSettings) (innings : list Inning) : World :=
  {| redis_state := {[ StateMachine.stateKey "m1" := initialState "m1" (length innings) ]};
     redis_sets := ∅;
     redis_paused := ∅;
     db_match := {[ "m1"%string := lobby_match s innings ]};
     db_matchPlayer := [player "p1"; player "p2"; player "p3"];
     db_matchAnswer := [];
     emitted := [];
     timers := [] |}.

Definition inning (qs : list Question) : Inning :=
  {| i_theme := "Historic Moments"; i_questions := qs |}.

Definition payload (questionId choice : string) (ms : Z)
    : PlayerHandler.AnswerSubmitPayload :=
  {| PlayerHandler.ap_matchId := "m1"; PlayerHandler.ap_questionId := questionId;
     PlayerHandler.ap_choice := choice; PlayerHandler.ap_clientLatencyMs := ms |}.

(** Runs a command and keeps the stores. *)
Definition after {A} (c : World → Res A * World) (w : World) : World := snd (c w).


Definition request (playerId questionId choice : string) (ms : Z)
    : SubmitAnswerRequest :=
  {| r_matchId := "m1"; r_playerId := playerId; r_questionId := questionId;
     r_choice := choice; r_clientLatencyMs := ms |}.

(** Two innings: a multiple-choice and a closest question, then one
    more multiple-choice question. *)
Definition two_innings : list Inning :=
  [inning [q_mc; q_closest]; inning [q_mc]].

Definition start (w : World) : World :=
  after (HostHandler.hostAction "m1" HostHandler.ActStart 1000) w.

Definition submit (playerId questionId choice : string) (ms : Z) (w : World)
    : World :=
  after (PlayerHandler.answerSubmit (Some playerId)
           (payload questionId choice ms)) w.

(** The match started, then [p2] and [p1] answer the first question
    correctly, [p2] first. *)
Definition two_answers : World :=
  submit "p1" "m1-0-0" "Carter" 2000
    (submit "p2" "m1-0-0" "Carter" 10000
       (start (fresh (settings true false) two_innings))).

(** A one-question match on the closest question (correct value 54),
    with the submissions "54", "50" and "54". *)
Definition closest_submitted : World :=
  submit "p3" "m1-0-0" "54" 3000
    (submit "p2" "m1-0-0" "50" 2000
       (submit "p1" "m1-0-0" "54" 1000
          (start (fresh (settings true false) [inning [q_closest]])))).

Definition reveal (now : Z) (w : World) : World :=
  after (HostHandler.hostAction "m1" HostHandler.ActReveal now) w.

(** The payload of the last [question:reveal] broadcast. *)
Definition last_reveal (w : World) : option QuestionRevealPayload :=
  match last (emitted w) with
  | Some (_, QuestionReveal p) => Some p
  | _ => None
  end.

(** The first question answered by [p1] and revealed: the match is in
    the reveal phase of question [m1-0-0]. *)
Definition revealed : World :=
  reveal 5000
    (submit "p1" "m1-0-0" "Carter" 2000
       (start (fresh (settings true false) two_innings))).

Definition act (a : HostHandler.HostAction) (now : Z) (w : World) : World :=
  after (HostHandler.hostAction "m1" a now) w.

(** Phase, inning and question index stored for [m1]. *)
Definition position (w : World) : option (MatchPhase * Z * Z) :=
  (λ s, (ms_phase s, ms_inning s, ms_questionIdx s))
    <$> redis_state w !! StateMachine.stateKey "m1".

(** Status and start time of the match row of [m1]. *)
Definition lifecycle (w : World) : option (MatchStatus * option Z) :=
  (λ m, (m_status m, m_startedAt m)) <$> db_match w !! "m1"%string.

(** A match whose first question is blank, still in the lobby. *)
Definition blank_first : World := fresh (settings true false) [inning [q_blank]].

(** A one-question match, started. *)
Definition single_question : World :=
  start (fresh (settings true false) [inning [q_mc]]).

(** From the reveal phase of [m1-0-0] the host sends [stretch] twice, and
    the first of the two timers has fired. *)
Definition second_timer_pending : World :=
  fireTimer 0 40000
    (act HostHandler.ActStretch 11000 (act HostHandler.ActStretch 10000 revealed)).




(** A nine-inning match, one question per inning, skipped through to the
    end of inning index 6, where the stretch starts. *)
Definition at_stretch : World :=
  act HostHandler.ActSkip 4000
    (Nat.iter 6 (act HostHandler.ActSkip 3000)
       (start (fresh (settings true false) (replicate 9 (inning [q_mc]))))).

(** The same match, abandoned by its host during the stretch. *)
Definition abandoned_at_stretch : World :=
  after (MatchService.updateMatchStatus "m1" ABANDONED 20000) at_stretch.

End Fixture.

(** ** The aggregation and ranking rules as the specification words them *)

Module Rules.

Definition Zsum (l : list Z) : Z := foldr Z.add 0 l.

(** [correct ? (bonus ? 4 : 1) : 0] *)
Definition runs_of_answer (a : MatchAnswer) : Z :=
  if a_isCorrect a then (if a_bonusAwarded a then 4 else 1) else 0.

(** The answers of a player in a match. *)
Definition player_answers (ledger : list MatchAnswer) (matchId : string)
    (p : MatchPlayer) : list MatchAnswer :=
  filter (λ a, a_matchId a = matchId ∧ a_playerId a = p_id p) ledger.

(** The score rebuilt from scratch from the answers of a player. *)
Definition score_from_answers (ledger : list MatchAnswer) (matchId : string)
    (p : MatchPlayer) : PlayerScore :=
  let answers := player_answers ledger matchId p in
  {| ps_playerId := p_id p;
     ps_nickname := p_nickname p;
     ps_avatar := match p_avatar p with
                  | Some a => if String.eqb a "" then None else Some a
                  | None => None
                  end;
     ps_runs := Zsum (map runs_of_answer answers);
     ps_correct := Z.of_nat (length (filter (λ a, a_isCorrect a = true) answers));
     ps_total := Z.of_nat (length answers);
     ps_totalTimeMs := Zsum (map a_answerMs answers) |}.

(** No correct answer is recorded in the ledger for the question. *)
Definition no_correct_recorded (ledger : list MatchAnswer) (matchId : string)
    (inningIdx questionIdx : Z) : Prop :=
  ∀ a, a ∈ ledger → a_matchId a = matchId → a_inningIdx a = inningIdx →
       a_questionIdx a = questionIdx → a_isCorrect a = false.




(** Descending runs, ties broken by ascending total time. *)
Definition ranks_before (a b : PlayerScore) : Prop :=
  ps_runs b < ps_runs a ∨
  (ps_runs a = ps_runs b ∧ ps_totalTimeMs a ≤ ps_totalTimeMs b).

(** Two scores the order cannot tell apart. *)
Definition tied (a b : PlayerScore) : Prop :=
  ps_runs a = ps_runs b ∧ ps_totalTimeMs a = ps_totalTimeMs b.

#[global] Instance tied_dec a b : Decision (tied a b).
Proof. unfold tied. apply _. Defined.

(** [|correctValue - parsedChoice|], for a choice that parses as a number. *)
Definition distance (correctValue : Q) (a : MatchAnswer) : option Q :=
  match Js.parseFloat (a_choice a) with
  | Some parsedChoice => Some (Qabs (correctValue - parsedChoice)%Q)
  | None => None
  end.

(** [a] is numeric and no numeric submission among [answers] is closer. *)
Definition achieves_minimum (correctValue : Q) (answers : list MatchAnswer)
    (a : MatchAnswer) : Prop :=
  ∃ d, distance correctValue a = Some d ∧
       ∀ b d', b ∈ answers → distance correctValue b = Some d' → (d <= d')%Q.

(** What the loop of [handleClosestQuestion] knows after a prefix [l] of
    the answers. *)
Definition loop_inv (correctValue : Q) (l : list MatchAnswer)
    (st : option Q * list nat) : Prop :=
  match fst st with
  | None => (∀ a, a ∈ l → distance correctValue a = None) ∧ snd st = []
  | Some m =>
      (∃ a d, a ∈ l ∧ distance correctValue a = Some d ∧ (d == m)%Q) ∧
      (∀ b d', b ∈ l → distance correctValue b = Some d' → (m <= d')%Q) ∧
      (∀ id, id ∈ snd st ↔
             ∃ a d, a ∈ l ∧ a_id a = id ∧
                    distance correctValue a = Some d ∧ (d == m)%Q)
  end.

(** The submissions for one question. *)
Definition submissions (ledger : list MatchAnswer) (matchId : string)
    (inningIdx questionIdx : Z) : list MatchAnswer :=
  filter (λ a, a_matchId a = matchId ∧ a_inningIdx a = inningIdx
               ∧ a_questionIdx a = questionIdx) ledger.

End Rules.

(** ** Predicates on strings used in the proofs *)

(** A decimal digit, as [parseInt] reads it. *)
Definition digit_char (c : ascii) : Prop := is_Some (Js.digit_of c).

Fixpoint all_digits (s : string) : Prop :=
  match s with
  | EmptyString => True
  | String c r => digit_char c ∧ all_digits r
  end.

(** The separator does not occur in the string. *)
Fixpoint sep_free (sep : ascii) (s : string) : Prop :=
  match s with
  | EmptyString => True
  | String c r => c ≠ sep ∧ sep_free sep r
  end.


Module Invariants.

(** Two rows of the same question of the same match. *)
Definition same_question (a b : MatchAnswer) : Prop :=
  a_matchId a = a_matchId b ∧ a_inningIdx a = a_inningIdx b
  ∧ a_questionIdx a = a_questionIdx b.

(** Every row that carries the bonus flag is correct, and no row recorded
    before it for the same question is correct. *)
Definition bonus_is_first_correct (ledger : list MatchAnswer) : Prop :=
  ∀ n a, ledger !! n = Some a → a_bonusAwarded a = true →
    a_isCorrect a = true ∧
    ∀ k b, (k < n)%nat → ledger !! k = Some b → same_question a b →
           a_isCorrect b = false.

(** The rows of a question that carry the bonus flag. *)
Definition bonus_rows (ledger : list MatchAnswer) (matchId : string)
    (inningIdx questionIdx : Z) : list MatchAnswer :=
  filter (λ a, a_matchId a = matchId ∧ a_inningIdx a = inningIdx
               ∧ a_questionIdx a = questionIdx ∧ a_bonusAwarded a = true) ledger.

End Invariants.

Module Examples.

(** A correct answer of [playerId] to question [m1-0-0], grand slam on and
    speed bonus off. *)
Definition slam_call (playerId : string) : Concurrent.Call :=
  {| Concurrent.call_request := Fixture.request playerId "m1-0-0" "Carter" 2000;
     Concurrent.call_question := Fixture.q_mc;
     Concurrent.call_settings := Fixture.settings true false |}.

End Examples.

Module Views.

(** Phase, inning and question index stored for a match. *)
Definition stored_position (matchId : string) (w : World)
    : option (MatchPhase * Z * Z) :=
  (λ s, (ms_phase s, ms_inning s, ms_questionIdx s))
    <$> redis_state w !! StateMachine.stateKey matchId.

End Views.

Module Frame.

(** The stored state and the match row of [m] are the same in [w] and [w']. *)
Definition match_kept (m : string) (w w' : World) : Prop :=
  redis_state w' !! StateMachine.stateKey m = redis_state w !! StateMachine.stateKey m ∧
  db_match w' !! m = db_match w !! m.

(** A computation of a state machine instance that leaves match [m] alone. *)
Definition keeps_match {A} (m : string) (c : M Machine A) : Prop :=
  ∀ mach, match_kept m (world mach) (world (snd (c mach))).

End Frame.

Module Stretch.


End Stretch.

Module Showing.

(** During the question phase the stored state shows a question of the
    pack: the one at the stored inning and question index, which
    [validateQuestion] accepts, formatted for this match and position with
    the match's timer, and a deadline is set. *)
Definition shows_pack_question (m : string) (w : World) : Prop :=
  ∀ s, redis_state w !! StateMachine.stateKey m = Some s →
       ms_phase s = QUESTION →
       ∃ match_ inn question,
         db_match w !! m = Some match_ ∧
         Js.index (m_innings match_) (ms_inning s) = Some inn ∧
         Js.index (i_questions inn) (ms_questionIdx s) = Some question ∧
         QuestionService.validateQuestion question = QuestionService.Valid ∧
         ms_question s
         = Some (QuestionService.formatQuestion
                   {| QuestionService.fo_matchId := m;
                      QuestionService.fo_question := question;
                      QuestionService.fo_inning := ms_inning s;
                      QuestionService.fo_questionIdx := ms_questionIdx s;
                      QuestionService.fo_timerSec := timerSec (m_settings match_) |}) ∧
         is_Some (ms_endsAt s).

End Showing.

Module Ledger.

(** The foreign key of [MatchAnswer.playerId]: every answer belongs to a
    player row. *)
Definition players_exist (w : World) : Prop :=
  ∀ a, a ∈ db_matchAnswer w →
       is_Some (AnswerService.find_player (db_matchPlayer w) (a_playerId a)).

(** The answers recorded for an inning of a match. *)
Definition inning_answers (w : World) (matchId : string) (inningIdx : Z)
    : list MatchAnswer :=
  filter (λ a, a_matchId a = matchId ∧ a_inningIdx a = inningIdx) (db_matchAnswer w).

End Ledger.

Module Pause.

(** The stores with the pause flags erased. *)
Definition unpaused (w : World) : World := with_redis_paused (λ _, ∅) w.

Definition unpaused_machine (mach : Machine) : Machine :=
  {| this_state := this_state mach; world := unpaused (world mach) |}.

(** A computation on the stores that never looks at the pause flags: run
    with the flags erased it returns the same and writes the same. *)
Definition blind {A} (c : M World A) : Prop :=
  ∀ w, fst (c w) = fst (c (unpaused w)) ∧
       unpaused (snd (c w)) = unpaused (snd (c (unpaused w))).

Definition blind_machine {A} (c : M Machine A) : Prop :=
  ∀ mach, fst (c mach) = fst (c (unpaused_machine mach)) ∧
          unpaused_machine (snd (c mach))
          = unpaused_machine (snd (c (unpaused_machine mach))).

End Pause.

(** ** pack.validation

    The zod schemas are embedded as the checks that can still fail on a
    value of the typed model: lengths, ranges and URL syntax.  The pack
    metadata, [tags] and [isKidsSafe] never reach the engine and are left
    out. *)

Module PackValidation.

Section Schema.
(** [z.string().url()]: whether the URL parser accepts the string. *)
Variable is_url : string → bool.

Definition optional_url (o : option string) : bool :=
  match o with
  | Some u => is_url u
  | None => true
  end.

(** [baseQuestionSchema]: a text of at least one character, and
    [mediaUrl] and [clipUrl] URLs when present. *)
Definition baseQuestion_ok (q : Question) : bool :=
  (1 <=? String.length (q_text q))%nat
  && optional_url (q_mediaUrl q) && optional_url (q_clipUrl q).

(** [choices]: between 2 and 6 strings; [correctIndex]: an integer,
    at least 0. *)
Definition choices_ok (cs : list string) (ci : Z) : bool :=
  (2 <=? length cs)%nat && (length cs <=? 6)%nat && (0 <=? ci)%Z.

(** [questionSchema], the discriminated union. *)
Definition questionSchema_ok (q : Question) : bool :=
  baseQuestion_ok q &&
  match q_body q with
  | McBody cs ci => choices_ok cs ci
  | MediaBody cs ci =>
      match q_mediaUrl q with
      | Some _ => choices_ok cs ci
      | None => false
      end
  | TfBody _ | ClosestBody _ => true
  end.

(** [inningSchema]: a theme and between 1 and 10 questions. *)
Definition inningSchema_ok (inn : Inning) : bool :=
  (1 <=? String.length (i_theme inn))%nat
  && (1 <=? length (i_questions inn))%nat && (length (i_questions inn) <=? 10)%nat
  && forallb questionSchema_ok (i_questions inn).

(** The [innings] field of [packSchema]: between 1 and 9 innings. *)
Definition inningsSchema_ok (innings : list Inning) : bool :=
  (1 <=? length innings)%nat && (length innings <=? 9)%nat
  && forallb inningSchema_ok innings.

End Schema.

Definition validateQuestionCorrectIndex (q : Question) : bool :=
  match q_body q with
  | McBody cs ci | MediaBody cs ci => (ci <? Z.of_nat (length cs))%Z
  | TfBody _ | ClosestBody _ => true
  end.

Record PackValidationResult : Type := {
  valid : bool;
  errors : list string;
  warnings : list string;
}.

Definition index_error (inningIdx questionIdx : nat) : string :=
  ("Inning " ++ pretty (inningIdx + 1)%nat ++ ", Question "
     ++ pretty (questionIdx + 1)%nat ++ ": Correct index out of bounds")%string.

(** The errors the inner [forEach] pushes for one inning. *)
Definition inning_errors (inningIdx : nat) (inn : Inning) : list string :=
  omap id
    (imap (λ questionIdx q,
             if validateQuestionCorrectIndex q then None
             else Some (index_error inningIdx questionIdx))
          (i_questions inn)).

Definition validatePack (innings : list Inning) : PackValidationResult :=
  let errors := concat (imap inning_errors innings) in
  let totalQuestions :=
    foldl (λ sum inn, sum + length (i_questions inn))%nat 0%nat innings in
  let warnings :=
    (if (length innings <? 3)%nat
     then ["Pack has fewer than 3 innings. Consider adding more content."%string]
     else [])
    ++ (if (totalQuestions <? 9)%nat
        then ["Pack has fewer than 9 questions total. Consider adding more for a complete game."%string]
        else []) in
  {| valid := (length errors =? 0)%nat; errors := errors; warnings := warnings |}.

(** What [importPack] requires of the innings before it stores a pack:
    [packSchema.parse] and then [validatePack]. *)
Definition accepted (is_url : string → bool) (innings : list Inning) : bool :=
  inningsSchema_ok is_url innings && valid (validatePack innings).

End PackValidation.

Module Packs.

(** A URL check that is enough for the examples: the string starts with
    [http]. *)
Definition starts_with_http (s : string) : bool :=
  match s with
  | String "h" (String "t" (String "t" (String "p" _))) => true
  | _ => false
  end.

(** A question whose text is a single space. *)
Definition q_space : Question :=
  {| q_text := " "; q_mediaUrl := None; q_clipUrl := None; q_body := TfBody true |}.

(** A question whose text is a single no-break space, U+00A0. *)
Definition q_no_break_space : Question :=
  {| q_text := String (ascii_of_nat 194) (String (ascii_of_nat 160) "");
     q_mediaUrl := None; q_clipUrl := None; q_body := TfBody true |}.

End Packs.

Module Content.

(** No question of the pack has a blank text. *)
Definition no_blank_text (innings : list Inning) : Prop :=
  ∀ inn q, inn ∈ innings → q ∈ i_questions inn → Js.trim (q_text q) ≠ ""%string.

End Content.

(** ** player.service

    The player row of the model carries id, match, nickname, avatar and
    [leftAt]; [socketId], [city] and [joinedAt] are not modelled, so the
    writes of a socket id are the identity here.  The id Prisma gives a new
    row is an argument of [joinMatch]. *)

Module PlayerService.



(** The exceptions of [joinMatch], [reconnectPlayer] and [leaveMatch]. *)
Inductive Error : Type :=
| NoMatch          (* 'Match not found' *)
| MatchEnded       (* 'Match has ended. Cannot join.' *)
| NoMatchState     (* 'Match state not found' *)
| NoPlayerRow.     (* Prisma P2025: update of a missing row *)

Definition with_db_matchPlayer (f : list MatchPlayer → list MatchPlayer)
    (w : World) : World :=
  {| redis_state := redis_state w; redis_sets := redis_sets w;
     redis_paused := redis_paused w; db_match := db_match w;
     db_matchPlayer := f (db_matchPlayer w); db_matchAnswer := db_matchAnswer w;
     emitted := emitted w; timers := timers w |}.

Definition set_players (l : list MatchPlayer) (s : MatchState) : MatchState :=
  {| ms_matchId := ms_matchId s; ms_phase := ms_phase s; ms_inning := ms_inning s;
     ms_questionIdx := ms_questionIdx s; ms_question := ms_question s;
     ms_endsAt := ms_endsAt s; ms_lineScore := ms_lineScore s;
     ms_leaderboard := ms_leaderboard s; ms_players := l |}.

Definition set_leftAt (t : option Z) (p : MatchPlayer) : MatchPlayer :=
  {| p_id := p_id p; p_matchId := p_matchId p; p_nickname := p_nickname p;
     p_avatar := p_avatar p; p_leftAt := t |}.



(** [prisma.matchPlayer.update({ where: { id }, data })] on the table. *)
Definition update_player (id : string) (f : MatchPlayer → MatchPlayer)
    (players : list MatchPlayer) : list MatchPlayer :=
  map (λ p, if String.eqb (p_id p) id then f p else p) players.



Definition leaveMatch (matchId playerId : string) (now : Z) (w : World)
    : (Error + unit) * World :=
  match AnswerService.find_player (db_matchPlayer w) playerId with
  | None => (inl NoPlayerRow, w)
  | Some _ =>
      let w1 := with_db_matchPlayer (update_player playerId (set_leftAt (Some now))) w in
      match redis_state w1 !! StateMachine.stateKey matchId with
      | None => (inr tt, w1)
      | Some state =>
          let state' :=
            set_players (filter (λ p, p_id p ≠ playerId) (ms_players state)) state in
          (inr tt, with_redis_state (insert (StateMachine.stateKey matchId) state') w1)
      end
  end.

(** [getPlayerScore] *)
Definition getPlayerScore (matchId playerId : string) (w : World) : Z * Z * Z :=
  let answers :=
    filter (λ a, a_matchId a = matchId ∧ a_playerId a = playerId) (db_matchAnswer w) in
  (foldl (λ sum a, if negb (a_isCorrect a) then sum
                   else sum + (if a_bonusAwarded a then 4 else 1)) 0 answers,
   Z.of_nat (length (filter (λ a, a_isCorrect a = true) answers)),
   Z.of_nat (length answers)).



End PlayerService.

(** ** csv-parser *)

Module CsvParser.

(** The double quote character. *)
Definition quote : ascii := ascii_of_nat 34.

(** The loop of [parseCSVLine] over the characters that are left, with
    its three variables. *)
Fixpoint parseCSVLine_loop (result : list string) (current : string)
    (inQuotes : bool) (line : string) : list string :=
  match line with
  | EmptyString => result ++ [Js.trim current]
  | String char rest =>
      if Ascii.eqb char quote
      then parseCSVLine_loop result current (negb inQuotes) rest
      else if Ascii.eqb char "," && negb inQuotes
      then parseCSVLine_loop (result ++ [Js.trim current]) "" inQuotes rest
      else parseCSVLine_loop result (current ++ String char "") inQuotes rest
  end.

Definition parseCSVLine (line : string) : list string :=
  parseCSVLine_loop [] "" false line.

(** [row.slice(from, to)] for indices within the row. *)
Definition slice {A} (l : list A) (from to : nat) : list A :=
  take (to - from) (drop from l).

(** [row[i]] where the length test before it makes it a string. *)
Definition field (row : list string) (i : nat) : string := default "" (row !! i).

(** [parseQuestionRow]: the question of a row, or the message of the
    error it throws.  The [unit] of a closest question is no field of
    [Question] here and is left out. *)
Definition parseQuestionRow (row : list string) : string + Question :=
  let plain text body :=
    {| q_text := text; q_mediaUrl := None; q_clipUrl := None; q_body := body |} in
  match row !! 0%nat with
  | None => inl "Unknown question type: undefined. Must be mc, tf, closest, or media"
  | Some type =>
      if String.eqb type "mc" then
        if (length row <? 5)%nat
        then inl "Multiple choice question must have text, at least 2 choices, and correct index"
        else
          match Js.parseInt (last row) with
          | None => inl "Correct index must be a number"
          | Some correctIndex =>
              inr (plain (field row 1)
                         (McBody (slice row 2 (length row - 1)) correctIndex))
          end
      else if String.eqb type "tf" then
        if negb (length row =? 3)%nat
        then inl "True/False question must have text and correct answer (true/false)"
        else inr (plain (field row 1)
                        (TfBody (String.eqb (Js.toLowerCase (field row 2)) "true")))
      else if String.eqb type "closest" then
        if (length row <? 3)%nat
        then inl "Closest question must have text and correct value"
        else
          match Js.parseFloat (field row 2) with
          | None => inl "Correct value must be a number"
          | Some correctValue => inr (plain (field row 1) (ClosestBody correctValue))
          end
      else if String.eqb type "media" then
        if (length row <? 6)%nat
        then inl "Media question must have text, media URL, at least 2 choices, and correct index"
        else
          match Js.parseInt (last row) with
          | None => inl "Correct index must be a number"
          | Some correctIndex =>
              inr {| q_text := field row 1; q_mediaUrl := Some (field row 2);
                     q_clipUrl := None;
                     q_body := MediaBody (slice row 3 (length row - 1)) correctIndex |}
          end
      else inl ("Unknown question type: " ++ type
                ++ ". Must be mc, tf, closest, or media")%string
  end.

End CsvParser.

(** ** Written CSV lines *)

Module Csv.

(** A cell as it is written in a line: bare, or between double quotes. *)
Inductive Cell : Type :=
| Bare (s : string)
| Quoted (s : string).

Definition content (c : Cell) : string :=
  match c with Bare s | Quoted s => s end.

Definition written (c : Cell) : string :=
  match c with
  | Bare s => s
  | Quoted s => String CsvParser.quote (s ++ String CsvParser.quote "")
  end.

(** A bare cell holds no comma and no quote, a quoted cell no quote. *)
Definition well_formed (c : Cell) : Prop :=
  match c with
  | Bare s => sep_free "," s ∧ sep_free CsvParser.quote s
  | Quoted s => sep_free CsvParser.quote s
  end.

(** The cells of a line, separated by commas. *)
Fixpoint line (cells : list Cell) : string :=
  match cells with
  | [] => ""
  | [c] => written c
  | c :: rest => written c ++ String "," (line rest)
  end.

(** What a reader should find in the cells of a line. *)
Definition values (cells : list Cell) : list string :=
  map (λ c, Js.trim (content c)) cells.

End Csv.

(** ** Closest questions on whole numbers *)

Module Whole.

(** The choice of the answer is the decimal text of the integer [z], of
    at most [2^52] in size, so that the double [parseFloat] reads is [z]
    itself and distances between such numbers are exact. *)
Definition whole_choice (a : MatchAnswer) (z : Z) : Prop :=
  a_choice a = pretty z ∧ Z.abs z ≤ 2 ^ 52.

(** [a] answers a whole number and no answer among [answers] is nearer to
    [correctValue]. *)
Definition nearest (correctValue : Z) (answers : list MatchAnswer)
    (a : MatchAnswer) : Prop :=
  ∃ z, whole_choice a z ∧
       ∀ b z', b ∈ answers → whole_choice b z' →
               Z.abs (correctValue - z) ≤ Z.abs (correctValue - z').

End Whole.

(** * Properties *)

(** ** Question model *)

Section QuestionFacts.
Import QuestionService.

Lemma check_choices_valid kind cs ci :
  check_choices kind cs ci = Valid →
  (2 ≤ length cs)%nat ∧ 0 ≤ ci < Z.of_nat (length cs).
Proof.
  unfold check_choices.
  destruct (Z.ltb_spec (Z.of_nat (length cs)) 2); [discriminate |].
  destruct (Z.ltb_spec ci 0); [discriminate |].
  destruct (Z.leb_spec (Z.of_nat (length cs)) ci); [discriminate |].
  intros _. lia.
Qed.

Lemma index_in_bounds {A} (l : list A) (i : Z) :
  0 ≤ i < Z.of_nat (length l) → is_Some (Js.index l i).
Proof.
  intros [Hlo Hhi]. unfold Js.index.
  destruct (Z.ltb_spec i 0); [lia |].
  apply lookup_lt_is_Some. lia.
Qed.

Lemma validateQuestion_choices q cs ci :
  validateQuestion q = Valid →
  q_body q = McBody cs ci ∨ q_body q = MediaBody cs ci →
  (2 ≤ length cs)%nat ∧ 0 ≤ ci < Z.of_nat (length cs).
Proof.
  unfold validateQuestion. intros Hv Hb.
  destruct (String.eqb (q_text q) "" || (String.length (Js.trim (q_text q)) =? 0)%nat);
    [discriminate |].
  destruct Hb as [Hb | Hb]; rewrite Hb in Hv.
  - by apply check_choices_valid in Hv.
  - destruct (negb (truthy (q_mediaUrl q))); [discriminate |].
    by apply check_choices_valid in Hv.
Qed.

End QuestionFacts.

(** C10: for a question accepted by [validateQuestion], the multiple-choice
    and media branches of [getCorrectAnswer] and [isAnswerCorrect] read
    [choices[correctIndex]] inside the array (at least two choices,
    [0 <= correctIndex < choices.length]); the value returned by
    [getCorrectAnswer] is never [undefined], and [isAnswerCorrect] compares
    the answer with that defined choice. *)
Theorem validated_question_reads_in_bounds (q : Question) :
  QuestionService.validateQuestion q = QuestionService.Valid →
  QuestionService.getCorrectAnswer q ≠ JsUndefined ∧
  ∀ cs ci,
    q_body q = McBody cs ci ∨ q_body q = MediaBody cs ci →
    (2 ≤ length cs)%nat ∧ 0 ≤ ci < Z.of_nat (length cs) ∧
    ∃ s, Js.index cs ci = Some s ∧
         QuestionService.getCorrectAnswer q = JsString s ∧
         ∀ answer, QuestionService.isAnswerCorrect q answer = String.eqb s answer.
Proof.
  intros Hv.
  assert (Hread : ∀ cs ci,
    q_body q = McBody cs ci ∨ q_body q = MediaBody cs ci →
    (2 ≤ length cs)%nat ∧ 0 ≤ ci < Z.of_nat (length cs) ∧
    ∃ s, Js.index cs ci = Some s ∧
         QuestionService.getCorrectAnswer q = JsString s ∧
         ∀ answer, QuestionService.isAnswerCorrect q answer = String.eqb s answer).
  { intros cs ci Hb.
    destruct (validateQuestion_choices q cs ci Hv Hb) as [Hlen Hci].
    destruct (index_in_bounds cs ci Hci) as [s Hs].
    split; [done |]. split; [done |]. exists s.
    unfold QuestionService.getCorrectAnswer, QuestionService.isAnswerCorrect.
    destruct Hb as [-> | ->]; rewrite Hs; done. }
  split; [| exact Hread].
  destruct (q_body q) as [cs ci | b | v | cs ci] eqn:Hb.
  - destruct (Hread cs ci (or_introl eq_refl)) as (_ & _ & s & _ & -> & _). done.
  - unfold QuestionService.getCorrectAnswer. rewrite Hb. done.
  - unfold QuestionService.getCorrectAnswer. rewrite Hb. done.
  - destruct (Hread cs ci (or_intror eq_refl)) as (_ & _ & s & _ & -> & _). done.
Qed.

Lemma validated_question_reads_in_bounds_witness :
  QuestionService.validateQuestion Fixture.q_mc = QuestionService.Valid ∧
  QuestionService.getCorrectAnswer Fixture.q_mc ≠ JsUndefined.
Proof.
  split; [reflexivity |].
  apply (validated_question_reads_in_bounds Fixture.q_mc). reflexivity.
Defined.

(** ** Scoring rules *)

Section ScoringFacts.
Import AnswerService.

(** [submitAnswer], step by step: it throws on an unparsable id, throws
    on a duplicate key before any write, and otherwise appends one row
    and one cache entry. *)
Lemma submitAnswer_unfold request question settings w :
  submitAnswer request question settings w =
  match parse_questionId (r_questionId request) with
  | (Some i, Some q) =>
      let ledger := db_matchAnswer w in
      if existsb (has_key (r_matchId request, r_playerId request, i, q)) ledger
      then (Throw UniqueConstraintViolation, w)
      else
        (Ok (submitted_result ledger request question settings i q),
         snd (sadd (cacheKey (r_matchId request) i q)
                (submitted_cache ledger request question settings i q)
                (with_db_matchAnswer
                   (λ l, l ++ [submitted_row ledger request question settings i q])
                   w)))
  | _ => (Throw PrismaValidation, w)
  end.
Proof.
  unfold submitAnswer.
  destruct (parse_questionId (r_questionId request)) as [[i|] [q|]]; try reflexivity.
  cbn. unfold bind, int_arg, ret, isGrandSlam, gets, matchAnswer_create. cbn.
  destruct (existsb _ (db_matchAnswer w)); reflexivity.
Qed.



(** The query of [isGrandSlam] finds no row exactly when no correct
    answer is recorded for the question. *)
Lemma noCorrectYet_spec ledger matchId i q :
  noCorrectYet ledger matchId i q = true
  ↔ Rules.no_correct_recorded ledger matchId i q.
Proof.
  unfold noCorrectYet, Rules.no_correct_recorded.
  rewrite Nat.eqb_eq, length_zero_iff_nil. split.
  - intros Hnil a Ha Hm Hi Hq. destruct (a_isCorrect a) eqn:Hc; [| done].
    assert (a ∈ filter (λ a, correct_for_question matchId i q a = true) ledger)
      as Hin.
    { apply list_elem_of_filter. split; [| done].
      unfold correct_for_question, for_question.
      by rewrite Hc, Hm, Hi, Hq, String.eqb_refl, !Z.eqb_refl. }
    rewrite Hnil in Hin. by apply elem_of_nil in Hin.
  - intros Hnone.
    destruct (filter (λ a, correct_for_question matchId i q a = true) ledger)
      as [| a l] eqn:E; [done |]. exfalso.
    assert (a ∈ filter (λ a, correct_for_question matchId i q a = true) ledger)
      as Hin by (rewrite E; left).
    apply list_elem_of_filter in Hin as [Hcorrect Ha].
    unfold correct_for_question, for_question in Hcorrect.
    rewrite !andb_true_iff in Hcorrect.
    destruct Hcorrect as [[[Hm Hi] Hq] Hc].
    apply String.eqb_eq in Hm. apply Z.eqb_eq in Hi, Hq.
    by rewrite (Hnone a Ha Hm Hi Hq) in Hc.
Qed.

Lemma grand_slam_spec settings ledger matchId i q :
  ¬ (grandSlam settings = true ∧ Rules.no_correct_recorded ledger matchId i q)
  ↔ grandSlam settings && noCorrectYet ledger matchId i q = false.
Proof.
  rewrite <- noCorrectYet_spec, <- andb_true_iff. by destruct (_ && _).
Qed.

End ScoringFacts.



(** ** Leaderboard *)

Section JsSortFacts.
Context {A : Type} (cmp : A → A → Z).

Hypothesis cmp_flip : ∀ a b, 0 < cmp a b → cmp b a ≤ 0.
Hypothesis cmp_trans : ∀ a b c, cmp a b ≤ 0 → cmp b c ≤ 0 → cmp a c ≤ 0.

Lemma sort_insert_perm x l : sort_insert cmp x l ≡ₚ x :: l.
Proof.
  induction l as [| y r IH]; cbn; [done |].
  destruct (cmp x y <=? 0); [done |].
  rewrite IH. apply Permutation_swap.
Qed.

Lemma js_sort_perm l : js_sort cmp l ≡ₚ l.
Proof.
  induction l as [| x r IH]; cbn; [done |].
  by rewrite sort_insert_perm, IH.
Qed.

Lemma sort_insert_hd x y l :
  (before cmp) y x → HdRel (before cmp) y l → HdRel (before cmp) y (sort_insert cmp x l).
Proof.
  intros Hyx Hhd. destruct l as [| z r]; cbn; [by constructor |].
  destruct (cmp x z <=? 0); constructor; [done |].
  by inversion Hhd.
Qed.

Lemma sort_insert_sorted x l :
  Sorted (before cmp) l → Sorted (before cmp) (sort_insert cmp x l).
Proof.
  induction 1 as [| y r Hs IH Hhd]; cbn.
  - by repeat constructor.
  - destruct (Z.leb_spec (cmp x y) 0) as [Hle | Hgt].
    + constructor; [by constructor |]. by constructor.
    + constructor; [done |]. apply sort_insert_hd; [| done].
      by apply cmp_flip.
Qed.

Lemma js_sort_sorted l : StronglySorted (before cmp) (js_sort cmp l).
Proof.
  apply Sorted_StronglySorted.
  - intros a b c. apply cmp_trans.
  - induction l as [| x r IH]; cbn; [constructor |].
    by apply sort_insert_sorted.
Qed.

(** Stability: an element is inserted in front of the elements it does not
    have to follow, so a class [P] that never contains both [x] and an
    element [x] jumps over keeps its order. *)
Lemma filter_sort_insert (P : A → Prop) `{!∀ a, Decision (P a)} x l :
  (P x → ∀ y, y ∈ l → 0 < cmp x y → ¬ P y) →
  filter P (sort_insert cmp x l) = filter P (x :: l).
Proof.
  induction l as [| y r IH]; intros Hskip; cbn; [done |].
  destruct (Z.leb_spec (cmp x y) 0) as [Hle | Hgt]; [done |].
  rewrite filter_cons, IH.
  - rewrite !filter_cons.
    destruct (decide (P x)) as [Hx | Hx]; [| done].
    destruct (decide (P y)) as [Hy | Hy]; [| done].
    exfalso. apply (Hskip Hx y); [left | done | done].
  - intros Hx z Hz. apply Hskip; [done | by right].
Qed.

Lemma js_sort_stable (P : A → Prop) `{!∀ a, Decision (P a)} l :
  (∀ x y, P x → P y → cmp x y ≤ 0) →
  filter P (js_sort cmp l) = filter P l.
Proof.
  intros Hclass. induction l as [| x r IH]; cbn; [done |].
  rewrite filter_sort_insert.
  - by rewrite !filter_cons, IH.
  - intros Hx y _ Hgt Hy. specialize (Hclass x y Hx Hy). lia.
Qed.

End JsSortFacts.

Section LeaderboardFacts.
Import StateMachine PlayerHandler Rules.

Lemma compareScores_before a b : before compareScores a b ↔ ranks_before a b.
Proof.
  unfold before, compareScores, ranks_before.
  destruct (Z.eqb_spec (ps_runs b) (ps_runs a)); cbn [negb]; lia.
Qed.

Lemma compareScores_flip a b : 0 < compareScores a b → compareScores b a ≤ 0.
Proof.
  unfold compareScores.
  destruct (Z.eqb_spec (ps_runs b) (ps_runs a));
    destruct (Z.eqb_spec (ps_runs a) (ps_runs b)); cbn [negb]; lia.
Qed.

Lemma compareScores_trans a b c :
  compareScores a b ≤ 0 → compareScores b c ≤ 0 → compareScores a c ≤ 0.
Proof.
  unfold compareScores.
  destruct (Z.eqb_spec (ps_runs b) (ps_runs a));
    destruct (Z.eqb_spec (ps_runs c) (ps_runs b));
    destruct (Z.eqb_spec (ps_runs c) (ps_runs a)); cbn [negb]; lia.
Qed.

Lemma compareScores_tied a x y : tied a x → tied a y → compareScores x y ≤ 0.
Proof.
  unfold tied, compareScores. intros [] [].
  destruct (Z.eqb_spec (ps_runs y) (ps_runs x)); cbn [negb]; lia.
Qed.

Lemma foldl_sum {B} (f : B → Z) (l : list B) (acc : Z) :
  foldl (λ sum a, sum + f a) acc l = acc + Zsum (map f l).
Proof.
  revert acc. induction l as [| x r IH]; intros acc; cbn; [lia |].
  rewrite IH. unfold Zsum. lia.
Qed.

Lemma foldl_runs (l : list MatchAnswer) (acc : Z) :
  foldl (λ sum a, if negb (a_isCorrect a) then sum
                  else sum + (if a_bonusAwarded a then 4 else 1)) acc l
  = acc + Zsum (map runs_of_answer l).
Proof.
  revert acc. induction l as [| x r IH]; intros acc; cbn; [lia |].
  rewrite IH. unfold Zsum, runs_of_answer.
  destruct (a_isCorrect x); cbn; lia.
Qed.

Lemma answers_of_spec ledger matchId p :
  answers_of ledger matchId p = player_answers ledger matchId p.
Proof.
  unfold answers_of, player_answers. apply list_filter_iff. intros a.
  rewrite andb_true_iff, !String.eqb_eq. done.
Qed.

(** The score the handler computes is the one the rules describe. *)
Lemma playerScore_spec ledger matchId p :
  playerScore ledger matchId p = score_from_answers ledger matchId p.
Proof.
  unfold playerScore, score_from_answers. rewrite answers_of_spec.
  f_equal.
  - by rewrite foldl_runs.
  - by rewrite foldl_sum.
Qed.

Lemma active_players_spec players matchId p :
  p ∈ active_players players matchId ↔
  p ∈ players ∧ p_matchId p = matchId ∧ p_leftAt p = None.
Proof.
  unfold active_players. rewrite list_elem_of_filter.
  rewrite andb_true_iff, String.eqb_eq, bool_decide_eq_true. tauto.
Qed.

End LeaderboardFacts.

Lemma StronglySorted_weaken {A} (R1 R2 : relation A) (l : list A) :
  (∀ a b, R1 a b → R2 a b) → StronglySorted R1 l → StronglySorted R2 l.
Proof.
  intros Himp. induction 1 as [| x r Hs IH Hall]; constructor; [done |].
  eapply Forall_impl; [exact Hall |]. intros b. apply Himp.
Qed.

Section LeaderboardRun.
Import StateMachine PlayerHandler Rules.

Lemma updateLeaderboard_run matchId players w s :
  redis_state w !! stateKey matchId = Some s →
  let s' := set_leaderboard (js_sort compareScores players) s in
  run (updateLeaderboard matchId players) w =
  (Ok tt,
   with_emitted (λ l, l ++ [(matchId, ScoreUpdate (ms_leaderboard s') (ms_lineScore s'))])
     (with_redis_state (insert (stateKey matchId) s') w)).
Proof.
  intros Hs. unfold run, updateLeaderboard, bind, loadState. cbn.
  rewrite Hs. reflexivity.
Qed.

End LeaderboardRun.

(** C8: a leaderboard recomputation stores, for exactly the players of the
    match that have not left, the score rebuilt from that player's answers
    (runs = sum of [correct ? (bonus ? 4 : 1) : 0], correct and total counts,
    totalTimeMs = sum of answerMs); the stored leaderboard is a permutation
    of these scores sorted by descending runs, ties broken by ascending
    totalTimeMs, and scores the order cannot tell apart keep the order of
    the player query, so equal inputs give one and the same order. *)
Theorem leaderboard_recomputed (w : World) (matchId : string) (s : MatchState) :
  redis_state w !! StateMachine.stateKey matchId = Some s →
  ∃ w' board,
    StateMachine.run
      (StateMachine.updateLeaderboard matchId (PlayerHandler.playerScores w matchId)) w
      = (Ok tt, w') ∧
    ms_leaderboard <$> redis_state w' !! StateMachine.stateKey matchId = Some board ∧
    (∀ ps, ps ∈ board ↔
           ∃ p, p ∈ db_matchPlayer w ∧ p_matchId p = matchId ∧ p_leftAt p = None ∧
                ps = Rules.score_from_answers (db_matchAnswer w) matchId p) ∧
    board ≡ₚ PlayerHandler.playerScores w matchId ∧
    StronglySorted Rules.ranks_before board ∧
    (∀ a, filter (Rules.tied a) board
          = filter (Rules.tied a) (PlayerHandler.playerScores w matchId)) ∧
    board = js_sort StateMachine.compareScores (PlayerHandler.playerScores w matchId).
Proof.
  intros Hs.
  pose proof (updateLeaderboard_run matchId (PlayerHandler.playerScores w matchId) w s Hs)
    as Hrun.
  cbn zeta in Hrun.
  eexists _, (js_sort StateMachine.compareScores (PlayerHandler.playerScores w matchId)).
  split; [exact Hrun |].
  assert (Hperm : js_sort StateMachine.compareScores (PlayerHandler.playerScores w matchId)
                  ≡ₚ PlayerHandler.playerScores w matchId)
    by apply js_sort_perm.
  split_and!.
  - cbn. rewrite lookup_insert_eq. reflexivity.
  - intros ps. rewrite Hperm. unfold PlayerHandler.playerScores.
    rewrite list_elem_of_fmap. split.
    + intros (p & -> & Hp). apply active_players_spec in Hp as (Hin & Hm & Hl).
      exists p. by rewrite playerScore_spec.
    + intros (p & Hin & Hm & Hl & ->). exists p.
      rewrite playerScore_spec. split; [done |].
      by apply active_players_spec.
  - exact Hperm.
  - eapply StronglySorted_weaken; [| apply js_sort_sorted].
    + intros a b. apply compareScores_before.
    + apply compareScores_flip.
    + apply compareScores_trans.
  - intros a. apply js_sort_stable. apply compareScores_tied.
  - reflexivity.
Qed.

Lemma leaderboard_recomputed_witness :
  ∃ s w' board,
    redis_state Fixture.two_answers !! StateMachine.stateKey "m1" = Some s ∧
    StateMachine.run
      (StateMachine.updateLeaderboard "m1"
         (PlayerHandler.playerScores Fixture.two_answers "m1")) Fixture.two_answers
      = (Ok tt, w') ∧
    board ≡ₚ PlayerHandler.playerScores Fixture.two_answers "m1" ∧
    StronglySorted Rules.ranks_before board ∧
    map ps_playerId board = ["p2"; "p1"; "p3"]%string.
Proof.
  eassert (Hs : redis_state Fixture.two_answers !! StateMachine.stateKey "m1" = Some _)
    by (vm_compute; reflexivity).
  destruct (leaderboard_recomputed Fixture.two_answers "m1" _ Hs)
    as (w' & board & Hrun & _ & _ & Hperm & Hsorted & _ & Hboard).
  eexists _, w', board.
  split; [exact Hs |]. split; [exact Hrun |]. split; [exact Hperm |].
  split; [exact Hsorted |].
  rewrite Hboard. vm_compute. reflexivity.
Defined.

(** ** Closest-number resolution *)

Section ClosestFacts.
Import AnswerService RevealService Rules.

Variable correctValue : Q.

Lemma Qlt_bool_true a b : Qlt_bool a b = true ↔ (a < b)%Q.
Proof.
  unfold Qlt_bool. rewrite negb_true_iff. split.
  - intros H. apply Qnot_le_lt. intros Hle.
    apply Qle_bool_iff in Hle. congruence.
  - intros H. destruct (Qle_bool b a) eqn:E; [| done].
    apply Qle_bool_iff in E. exfalso. by apply (Qlt_not_le a b).
Qed.

Lemma closest_step_inv l st x :
  loop_inv correctValue l st → loop_inv correctValue (l ++ [x]) (closest_step correctValue st x).
Proof.
  destruct st as [m ids]. unfold loop_inv, closest_step, distance. cbn [fst snd].
  destruct (Js.parseFloat (a_choice x)) as [v |] eqn:Hv.
  - set (dx := Js.abs (correctValue - v)%Q).
    destruct m as [m |]; cbn [fst snd].
    + intros (Hex & Hmin & Hids).
      destruct (Qlt_bool dx m) eqn:Hlt; cbn [fst snd].
      * apply Qlt_bool_true in Hlt. split_and!.
        -- exists x, dx. rewrite elem_of_app, list_elem_of_singleton, Hv.
           split_and!; [by right | done | reflexivity].
        -- intros b d' [Hb | ->%list_elem_of_singleton]%elem_of_app Hd.
           ++ apply Qlt_le_weak. eapply Qlt_le_trans; [exact Hlt |].
              by apply (Hmin b).
           ++ rewrite Hv in Hd. injection Hd as <-. apply Qle_refl.
        -- intros id. rewrite list_elem_of_singleton. split.
           ++ intros ->. exists x, dx. rewrite elem_of_app, list_elem_of_singleton, Hv.
              split_and!; [by right | done | done | reflexivity].
           ++ intros (a & d & [Ha | ->%list_elem_of_singleton]%elem_of_app
                        & Hid & Hd & Heq).
              ** exfalso. specialize (Hmin a d Ha Hd).
                 rewrite Heq in Hmin. by apply (Qlt_not_le dx m).
              ** done.
      * assert (Hge : (m <= dx)%Q).
        { apply Qnot_lt_le. intros H. apply Qlt_bool_true in H. congruence. }
        destruct (Qeq_bool dx m) eqn:Heq; cbn [fst snd].
        -- apply Qeq_bool_iff in Heq. split_and!.
           ++ destruct Hex as (a & d & Ha & Hd & Hdm). exists a, d.
              rewrite elem_of_app. by split_and!; [left | |].
           ++ intros b d' [Hb | ->%list_elem_of_singleton]%elem_of_app Hd.
              ** by apply (Hmin b).
              ** rewrite Hv in Hd. by injection Hd as <-.
           ++ intros id. rewrite elem_of_app, list_elem_of_singleton, Hids. split.
              ** intros [(a & d & Ha & Hid & Hd & Hdm) | ->].
                 --- exists a, d. rewrite elem_of_app. by split_and!; [left | | |].
                 --- exists x, dx. rewrite elem_of_app, list_elem_of_singleton, Hv.
                     by split_and!; [right | | |].
              ** intros (a & d & [Ha | ->%list_elem_of_singleton]%elem_of_app
                           & Hid & Hd & Hdm).
                 --- left. by exists a, d.
                 --- by right.
        -- assert (Hne : ¬ (dx == m)%Q).
           { intros H. apply Qeq_bool_iff in H. congruence. }
           split_and!.
           ++ destruct Hex as (a & d & Ha & Hd & Hdm). exists a, d.
              rewrite elem_of_app. by split_and!; [left | |].
           ++ intros b d' [Hb | ->%list_elem_of_singleton]%elem_of_app Hd.
              ** by apply (Hmin b).
              ** rewrite Hv in Hd. by injection Hd as <-.
           ++ intros id. rewrite Hids. split.
              ** intros (a & d & Ha & Hid & Hd & Hdm).
                 exists a, d. rewrite elem_of_app. by split_and!; [left | | |].
              ** intros (a & d & [Ha | ->%list_elem_of_singleton]%elem_of_app
                           & Hid & Hd & Hdm).
                 --- by exists a, d.
                 --- rewrite Hv in Hd. injection Hd as <-. done.
    + intros [Hnone ->]. split_and!.
      * exists x, dx. rewrite elem_of_app, list_elem_of_singleton, Hv.
        split_and!; [by right | done | reflexivity].
      * intros b d' [Hb | ->%list_elem_of_singleton]%elem_of_app Hd.
        -- rewrite (Hnone b Hb) in Hd. done.
        -- rewrite Hv in Hd. injection Hd as <-. apply Qle_refl.
      * intros id. rewrite list_elem_of_singleton. split.
        -- intros ->. exists x, dx. rewrite elem_of_app, list_elem_of_singleton, Hv.
           split_and!; [by right | done | done | reflexivity].
        -- intros (a & d & [Ha | ->%list_elem_of_singleton]%elem_of_app
                     & Hid & Hd & Heq).
           ++ rewrite (Hnone a Ha) in Hd. done.
           ++ done.
  - destruct m as [m |]; cbn [fst snd].
    + intros (Hex & Hmin & Hids). split_and!.
      * destruct Hex as (a & d & Ha & Hd & Hdm). exists a, d.
        rewrite elem_of_app. by split_and!; [left | |].
      * intros b d' [Hb | ->%list_elem_of_singleton]%elem_of_app Hd.
        -- by apply (Hmin b).
        -- rewrite Hv in Hd. done.
      * intros id. rewrite Hids. split.
        -- intros (a & d & Ha & Hid & Hd & Hdm).
           exists a, d. rewrite elem_of_app. by split_and!; [left | | |].
        -- intros (a & d & [Ha | ->%list_elem_of_singleton]%elem_of_app
                     & Hid & Hd & Hdm).
           ++ by exists a, d.
           ++ rewrite Hv in Hd. done.
    + intros [Hnone ->]. split; [| done].
      intros a [Ha | ->%list_elem_of_singleton]%elem_of_app.
      * by apply Hnone.
      * by rewrite Hv.
Qed.

Lemma closest_loop_inv l :
  loop_inv correctValue l (foldl (closest_step correctValue) (None, []) l).
Proof.
  induction l as [| x l IH] using rev_ind.
  - cbn. split; [| done]. intros a Ha. by apply elem_of_nil in Ha.
  - rewrite foldl_app. cbn [foldl]. by apply closest_step_inv.
Qed.

(** The ids the loop collects are those of the answers at minimum
    distance. *)
Lemma closestAnswerIds_spec answers id :
  id ∈ closestAnswerIds correctValue answers ↔
  ∃ a, a ∈ answers ∧ a_id a = id ∧ achieves_minimum correctValue answers a.
Proof.
  unfold closestAnswerIds. pose proof (closest_loop_inv answers) as Hinv.
  unfold loop_inv in Hinv.
  destruct (foldl _ _ answers) as [[m |] ids]; cbn [fst snd] in *.
  - destruct Hinv as (Hex & Hmin & Hids). rewrite Hids. split.
    + intros (a & d & Ha & Hid & Hd & Hdm). exists a. split_and!; [done | done |].
      exists d. split; [done |]. intros b d' Hb Hd'. rewrite Hdm. by apply (Hmin b).
    + intros (a & Ha & Hid & d & Hd & Hle). exists a, d. split_and!; try done.
      apply Qle_antisym; [| by apply (Hmin a)].
      destruct Hex as (b & db & Hb & Hdb & Hbm). rewrite <- Hbm. by apply (Hle b).
  - destruct Hinv as [Hnone ->]. split.
    + intros H. by apply elem_of_nil in H.
    + intros (a & Ha & _ & d & Hd & _). rewrite (Hnone a Ha) in Hd. done.
Qed.

End ClosestFacts.

Section ClosestReveal.
Import AnswerService RevealService Rules.

Lemma for_question_spec ledger matchId i q :
  filter (λ a, for_question matchId i q a = true) ledger
  = submissions ledger matchId i q.
Proof.
  unfold submissions. apply list_filter_iff. intros a. unfold for_question.
  rewrite !andb_true_iff, String.eqb_eq, !Z.eqb_eq. tauto.
Qed.

Lemma same_id_same_row (ledger : list MatchAnswer) a b :
  NoDup (map a_id ledger) → a ∈ ledger → b ∈ ledger → a_id a = a_id b → a = b.
Proof.
  intros Hnd [n Hn]%list_elem_of_lookup [k Hk]%list_elem_of_lookup Hid.
  assert (n = k) as ->.
  { eapply NoDup_lookup; [exact Hnd | |].
    - rewrite list_lookup_fmap, Hn. reflexivity.
    - rewrite list_lookup_fmap, Hk. cbn. by rewrite Hid. }
  congruence.
Qed.

(** In the ledger, [handleClosestQuestion] marks exactly the numeric
    submissions at minimum distance as correct, without bonus, and leaves
    every other row as it was; numbers and distances are the exact ones of
    the model here. *)
Lemma handleClosestQuestion_marks_minimisers matchId i q question cv w :
  q_body question = ClosestBody cv →
  NoDup (map a_id (db_matchAnswer w)) →
  let subs := submissions (db_matchAnswer w) matchId i q in
  ∃ w',
    handleClosestQuestion matchId i q question w = (Ok tt, w') ∧
    redis_sets w' = redis_sets w ∧ redis_state w' = redis_state w ∧
    ∀ n a, db_matchAnswer w !! n = Some a →
      (a ∈ subs ∧ achieves_minimum cv subs a →
         db_matchAnswer w' !! n = Some (mark_correct a)) ∧
      (¬ (a ∈ subs ∧ achieves_minimum cv subs a) →
         db_matchAnswer w' !! n = Some a).
Proof.
  intros Hbody Hnd subs. unfold handleClosestQuestion. rewrite Hbody.
  unfold bind, gets. cbn -[closestAnswerIds Nat.ltb Nat.eqb].
  rewrite for_question_spec. fold subs.
  destruct (length subs =? 0)%nat eqn:Hlen.
  { apply Nat.eqb_eq, nil_length_inv in Hlen. eexists. split; [reflexivity |].
    split_and!; try done. intros n a Hn. split; [| done].
    intros [Hin _]. rewrite Hlen in Hin. by apply elem_of_nil in Hin. }
  destruct (0 <? length (closestAnswerIds cv subs))%nat eqn:Hids.
  - eexists. split; [reflexivity |]. split_and!; try done.
    intros n a Hn. cbn. unfold updateMany_correct.
    rewrite list_lookup_fmap, Hn. cbn.
    assert (Ha : a ∈ db_matchAnswer w) by (apply list_elem_of_lookup; eauto).
    assert (Hiff : a_id a ∈ closestAnswerIds cv subs ↔
                   a ∈ subs ∧ achieves_minimum cv subs a).
    { rewrite closestAnswerIds_spec. split.
      - intros (b & Hb & Hid & Hmin).
        assert (b = a) as ->; [| done].
        apply (same_id_same_row (db_matchAnswer w)); try done.
        by apply list_elem_of_filter in Hb as [_ Hb].
      - intros [Hin Hmin]. by exists a. }
    split; intros Hw; case_bool_decide; tauto.
  - eexists. split; [reflexivity |]. split_and!; try done.
    intros n a Hn. split; [| done]. intros [Hin Hmin]. exfalso.
    assert (Hid : a_id a ∈ closestAnswerIds cv subs).
    { apply closestAnswerIds_spec. by exists a. }
    apply Nat.ltb_ge in Hids.
    destruct (closestAnswerIds cv subs); [by apply elem_of_nil in Hid |].
    cbn in Hids. lia.
Qed.

(** At submission time a closest answer is provisionally incorrect and
    scores nothing. *)
Lemma closest_provisionally_incorrect question cv choice ms settings first :
  q_body question = ClosestBody cv →
  QuestionService.isAnswerCorrect question choice = false ∧
  calculateRuns (QuestionService.isAnswerCorrect question choice) ms settings first
    = {| runs := 0; bonusAwarded := false |}.
Proof.
  intros Hbody. unfold QuestionService.isAnswerCorrect. rewrite Hbody. done.
Qed.

(** The amendment rewrites flags only: the key of every row, and so the
    uniqueness of keys, is untouched. *)
Lemma updateMany_correct_keys ids ledger :
  map answer_key (updateMany_correct ids ledger) = map answer_key ledger.
Proof.
  unfold updateMany_correct. rewrite map_map. apply map_ext.
  intros a. by case_bool_decide.
Qed.

End ClosestReveal.

(** C4 (the code departs from the claim): on the closest question with
    correct value 54 and the submissions "54", "50" and "54", the reveal
    amends the ledger as claimed - the two answers at distance 0 become
    correct without bonus, the other stays incorrect - but the reveal
    payload is built from the per-question cache written at submission
    time, so it reports all three players as incorrect with 0 runs. *)
Theorem closest_reveal_payload_is_stale :
  let w' := Fixture.reveal 5000 Fixture.closest_submitted in
  map (λ a, (a_playerId a, a_isCorrect a, a_bonusAwarded a)) (db_matchAnswer w')
    = [("p1", true, false); ("p2", false, false); ("p3", true, false)]%string ∧
  (rp_playerResults <$> Fixture.last_reveal w')
    = Some [ {| pr_playerId := "p1"; pr_nickname := "p1";
                pr_isCorrect := false; pr_runsAwarded := 0 |};
             {| pr_playerId := "p2"; pr_nickname := "p2";
                pr_isCorrect := false; pr_runsAwarded := 0 |};
             {| pr_playerId := "p3"; pr_nickname := "p3";
                pr_isCorrect := false; pr_runsAwarded := 0 |} ]%string.
Proof. vm_compute. split; reflexivity. Qed.


(** ** Latency and the speed bonus *)

(** C5 (as stated, refuted): two submissions that differ only in the
    client-reported latency, 1000 ms against 10000 ms, on the same stores,
    with speed bonus enabled and a 20 s timer: the first is awarded 4 runs
    with the bonus flag, the second 1 run without it. *)
Lemma client_latency_decides_speed_bonus :
  let w := Fixture.start (Fixture.fresh (Fixture.settings false true) Fixture.two_innings) in
  let quick := Fixture.payload "m1-0-0" "Carter" 1000 in
  let slow := Fixture.payload "m1-0-0" "Carter" 10000 in
  (PlayerHandler.ap_matchId quick, PlayerHandler.ap_questionId quick,
   PlayerHandler.ap_choice quick)
  = (PlayerHandler.ap_matchId slow, PlayerHandler.ap_questionId slow,
     PlayerHandler.ap_choice slow) ∧
  ∃ r1 r2,
    fst (PlayerHandler.answerSubmit (Some "p1"%string) quick w) = Ok r1 ∧
    fst (PlayerHandler.answerSubmit (Some "p1"%string) slow w) = Ok r2 ∧
    (AnswerService.sr_runsAwarded r1, AnswerService.sr_bonusAwarded r1) = (4, true) ∧
    (AnswerService.sr_runsAwarded r2, AnswerService.sr_bonusAwarded r2) = (1, false).
Proof.
  cbn zeta. split; [reflexivity |].
  eexists _, _. split_and!; vm_compute; reflexivity.
Qed.

(** C5 (amended): the client-reported latency does enter the scoring
    decision, where the speed bonus decides and nowhere else: for two
    submissions on the same stores that differ only in that value,
    correctness and the correct answer reported are the same, and runs and
    bonus flag are the same whenever the answer is incorrect, speed bonus
    is disabled, or the grand slam applies (grand slam enabled and no
    correct answer recorded for the question); the rows written differ in
    [answerMs] and the bonus flag at most. *)
Theorem submitAnswer_scores_client_latency
    (req1 req2 : AnswerService.SubmitAnswerRequest) question settings w
    r1 w1 r2 w2 :
  AnswerService.r_matchId req1 = AnswerService.r_matchId req2 →
  AnswerService.r_playerId req1 = AnswerService.r_playerId req2 →
  AnswerService.r_questionId req1 = AnswerService.r_questionId req2 →
  AnswerService.r_choice req1 = AnswerService.r_choice req2 →
  AnswerService.submitAnswer req1 question settings w = (Ok r1, w1) →
  AnswerService.submitAnswer req2 question settings w = (Ok r2, w2) →
  AnswerService.sr_isCorrect r1 = AnswerService.sr_isCorrect r2 ∧
  AnswerService.sr_correctAnswer r1 = AnswerService.sr_correctAnswer r2 ∧
  (∃ i q,
     AnswerService.parse_questionId (AnswerService.r_questionId req1)
       = (Some i, Some q) ∧
     let grand_slam :=
       grandSlam settings = true ∧
       Rules.no_correct_recorded (db_matchAnswer w)
         (AnswerService.r_matchId req1) i q in
     (AnswerService.sr_isCorrect r1 = false ∨ speedBonus settings = false ∨
      grand_slam →
      AnswerService.sr_runsAwarded r1 = AnswerService.sr_runsAwarded r2 ∧
      AnswerService.sr_bonusAwarded r1 = AnswerService.sr_bonusAwarded r2) ∧
     ((AnswerService.sr_runsAwarded r1, AnswerService.sr_bonusAwarded r1)
      ≠ (AnswerService.sr_runsAwarded r2, AnswerService.sr_bonusAwarded r2) →
      AnswerService.sr_isCorrect r1 = true ∧ speedBonus settings = true ∧
      ¬ grand_slam)) ∧
  (∃ row1 row2,
     db_matchAnswer w1 = db_matchAnswer w ++ [row1] ∧
     db_matchAnswer w2 = db_matchAnswer w ++ [row2] ∧
     (a_id row1, AnswerService.answer_key row1, a_choice row1, a_isCorrect row1)
     = (a_id row2, AnswerService.answer_key row2, a_choice row2, a_isCorrect row2)).
Proof.
  intros Hm Hp Hq Hc. rewrite !submitAnswer_unfold. rewrite <- Hm, <- Hp, <- Hq.
  destruct (AnswerService.parse_questionId _) as [[i|] [q|]]; try discriminate.
  cbn zeta. destruct (existsb _ _); [discriminate |].
  intros [= <- <-] [= <- <-].
  unfold AnswerService.submitted_result, AnswerService.decided_runs.
  cbn [AnswerService.sr_isCorrect AnswerService.sr_correctAnswer
       AnswerService.sr_runsAwarded AnswerService.sr_bonusAwarded].
  rewrite <- Hm, <- Hc.
  split; [done |]. split; [done |]. split.
  - exists i, q. split; [done |].
    unfold AnswerService.calculateRuns.
    destruct (QuestionService.isAnswerCorrect question _); cbn [negb].
    2:{ split; [done |]. by intros []. }
    destruct (grandSlam settings && _) eqn:Hgs.
    { split; [done |]. by intros []. }
    apply grand_slam_spec in Hgs.
    destruct (speedBonus settings).
    2:{ split; [done |]. by intros []. }
    split; [| done].
    intros [? | [? | ?]]; done.
  - eexists _, _. split; [reflexivity |]. split; [reflexivity |].
    unfold AnswerService.submitted_row, AnswerService.answer_key. cbn.
    by rewrite <- Hm, <- Hp, <- Hc.
Qed.

Lemma submitAnswer_scores_client_latency_witness :
  ∃ r1 w1 r2 w2,
    AnswerService.submitAnswer (Fixture.request "p1" "m1-0-0" "Carter" 1000)
      Fixture.q_mc (Fixture.settings false true)
      (Fixture.start (Fixture.fresh (Fixture.settings false true) Fixture.two_innings))
      = (Ok r1, w1) ∧
    AnswerService.submitAnswer (Fixture.request "p1" "m1-0-0" "Carter" 10000)
      Fixture.q_mc (Fixture.settings false true)
      (Fixture.start (Fixture.fresh (Fixture.settings false true) Fixture.two_innings))
      = (Ok r2, w2) ∧
    AnswerService.sr_isCorrect r1 = AnswerService.sr_isCorrect r2.
Proof.
  eassert (H1 : AnswerService.submitAnswer (Fixture.request "p1" "m1-0-0" "Carter" 1000)
      Fixture.q_mc (Fixture.settings false true)
      (Fixture.start (Fixture.fresh (Fixture.settings false true) Fixture.two_innings))
      = (Ok _, _)) by (vm_compute; reflexivity).
  eassert (H2 : AnswerService.submitAnswer (Fixture.request "p1" "m1-0-0" "Carter" 10000)
      Fixture.q_mc (Fixture.settings false true)
      (Fixture.start (Fixture.fresh (Fixture.settings false true) Fixture.two_innings))
      = (Ok _, _)) by (vm_compute; reflexivity).
  eexists _, _, _, _. split; [exact H1 |]. split; [exact H2 |].
  exact (proj1 (submitAnswer_scores_client_latency
                  (Fixture.request "p1" "m1-0-0" "Carter" 1000)
                  (Fixture.request "p1" "m1-0-0" "Carter" 10000)
                  Fixture.q_mc (Fixture.settings false true)
                  (Fixture.start
                     (Fixture.fresh (Fixture.settings false true) Fixture.two_innings))
                  _ _ _ _ eq_refl eq_refl eq_refl eq_refl H1 H2)).
Defined.


(** ** Which submissions are accepted *)


Section SubmitFacts.
Import AnswerService PlayerHandler StateMachine.






End SubmitFacts.




(** ** The phase state machine *)

Section PhaseFacts.
Import StateMachine HostHandler.

Lemma stored_phase_Some matchId w p :
  stored_phase matchId w = Some p ↔
  ∃ s, redis_state w !! stateKey matchId = Some s ∧ ms_phase s = p.
Proof.
  unfold stored_phase. rewrite fmap_Some. split.
  - intros (s & Hs & ->). by exists s.
  - intros (s & Hs & <-). by exists s.
Qed.

Ltac run_machine :=
  unfold hostAction, run, startMatch, revealAnswer, skipQuestion, nextQuestion,
    pauseMatch, resumeMatch, endMatch, triggerStretch, transition, setTimeout,
    show_question, emit_question_show, emit_state, emit, updateMatch, findMatch,
    validated, question_at, saveState, loadState, this_set, this_get,
    liftW, bind, ret, throw, gets, modify, get.

Lemma reveal_keeps_redis_state matchId questionId question w :
  redis_state (snd (RevealService.generateRevealPayload matchId questionId question w))
  = redis_state w.
Proof.
  unfold RevealService.generateRevealPayload, RevealService.handleClosestQuestion,
    AnswerService.getQuestionAnswers, AnswerService.smembers, AnswerService.int_arg,
    bind, ret, throw, gets, modify.
  repeat (case_match; simplify_eq/=); reflexivity.
Qed.

(** After the case analysis: read the stored phase back and compare. *)
Ltac read_phase :=
  unfold stored_phase; cbn; rewrite ?lookup_insert_eq;
  try match goal with
      | H : RevealService.generateRevealPayload ?m ?q ?qu ?w = (_, _) |- _ =>
          let Hk := fresh "Hk" in
          pose proof (reveal_keeps_redis_state m q qu w) as Hk;
          rewrite H in Hk; cbn [snd] in Hk; rewrite ?Hk
      end;
  repeat match goal with
         | H : redis_state _ !! _ = Some _ |- _ => rewrite H
         end;
  cbn; intros [= <-];
  first
    [ by left
    | match goal with
      | H : context [bool_decide (ms_phase ?a = _)] |- _ =>
          destruct (ms_phase a); vm_compute in H; try discriminate H;
          first [ left; reflexivity | right; reflexivity ]
      end ].

Lemma skip_phase matchId now w p p' :
  stored_phase matchId w = Some p →
  stored_phase matchId (snd (hostAction matchId ActSkip now w)) = Some p' →
  p' = p ∨ allowed_change p p' = true.
Proof.
  intros (s & Hs & <-)%stored_phase_Some.
  run_machine. cbn. rewrite Hs. cbn.
  repeat (case_match; simplify_eq/=; rewrite ?Hs; cbn).
  all: read_phase.
Qed.

Lemma start_phase matchId now w p p' :
  stored_phase matchId w = Some p →
  stored_phase matchId (snd (hostAction matchId ActStart now w)) = Some p' →
  p' = p ∨ allowed_change p p' = true.
Proof.
  intros (s & Hs & <-)%stored_phase_Some.
  run_machine. cbn. rewrite Hs. cbn.
  repeat (case_match; simplify_eq/=; rewrite ?Hs; cbn).
  all: read_phase.
Qed.

Lemma pause_resume_phase matchId now w p p' action :
  action = ActPause ∨ action = ActResume →
  stored_phase matchId w = Some p →
  stored_phase matchId (snd (hostAction matchId action now w)) = Some p' →
  p' = p.
Proof.
  intros Hact (s & Hs & <-)%stored_phase_Some.
  destruct Hact as [-> | ->]; run_machine; cbn; rewrite Hs; cbn.
  all: repeat (case_match; simplify_eq/=; rewrite ?Hs; cbn).
  all: unfold stored_phase; cbn; rewrite ?lookup_insert_eq, ?Hs; cbn; by intros [= <-].
Qed.

Lemma reveal_phase matchId now w p p' :
  stored_phase matchId w = Some p →
  stored_phase matchId (snd (hostAction matchId ActReveal now w)) = Some p' →
  p' = p ∨ allowed_change p p' = true.
Proof.
  intros (s & Hs & <-)%stored_phase_Some.
  run_machine. cbn -[RevealService.generateRevealPayload RevealService.updateLineScore].
  rewrite Hs. cbn -[RevealService.generateRevealPayload RevealService.updateLineScore].
  repeat (case_match; simplify_eq/=; rewrite ?Hs; cbn -[RevealService.generateRevealPayload RevealService.updateLineScore]).
  all: read_phase.
Qed.










Lemma allowed_change_spec p p' :
  allowed_change p p' = true ↔
  p' ∈ VALID_TRANSITIONS p ∨ (p = QUESTION ∧ (p' = STRETCH ∨ p' = POSTGAME)).
Proof.
  unfold allowed_change, includes.
  rewrite orb_true_iff, andb_true_iff, orb_true_iff, !bool_decide_eq_true. tauto.
Qed.


Lemma host_action_phase matchId action now w p p' :
  action ≠ ActStretch →
  stored_phase matchId w = Some p →
  stored_phase matchId (snd (hostAction matchId action now w)) = Some p' →
  p' = p ∨ allowed_change p p' = true.
Proof.
  intros Hact Hp Hp'. destruct action; try done.
  - left. by eapply pause_resume_phase; [left | |].
  - left. by eapply pause_resume_phase; [right | |].
  - by eapply skip_phase.
  - by eapply reveal_phase.
  - by eapply start_phase.
Qed.

(** [start] on a lobby match whose first question is refused: the error
    is reported and the stored match state is untouched, but the match row
    has been marked as started. *)
Lemma startMatch_invalid_first_question matchId now w s match_ inn question error :
  redis_state w !! stateKey matchId = Some s →
  ms_phase s = LOBBY →
  db_match w !! matchId = Some match_ →
  Js.index (m_innings match_) 0 = Some inn →
  Js.index (i_questions inn) 0 = Some question →
  QuestionService.validateQuestion question = QuestionService.Invalid error →
  hostAction matchId ActStart now w
  = (Throw (InvalidQuestion error),
     with_db_match (alter (set_match_started now) matchId) w).
Proof.
  intros Hs Hp Hm Hinn Hq Hv. run_machine. cbn -[Js.index]. rewrite Hs. cbn -[Js.index].
  rewrite Hp, (bool_decide_eq_true_2 (LOBBY = LOBBY)) by done. cbn -[Js.index].
  rewrite Hm. cbn -[Js.index]. rewrite Hm. cbn -[Js.index].
  rewrite Hinn, Hq. cbn. rewrite Hv. reflexivity.
Qed.

(** A question refused on the way to the next question aborts the skip
    with the stores exactly as they were. *)
Lemma skip_invalid_question_keeps_stores matchId now w error w' :
  hostAction matchId ActSkip now w = (Throw (InvalidQuestion error), w') → w' = w.
Proof.
  run_machine. cbn.
  repeat (case_match; simplify_eq/=); try done.
  all: by intros [= ? <-].
Qed.

End PhaseFacts.




(** The host's stretch command has no phase guard: sent in the lobby it
    stores the stretch phase, a pair that is not in [VALID_TRANSITIONS], and
    schedules the timer. *)
Lemma stretch_from_lobby_is_not_refused :
  let w := Fixture.fresh (Fixture.settings true false) Fixture.two_innings in
  Fixture.position w = Some (LOBBY, 0, 0) ∧
  fst (HostHandler.hostAction "m1" HostHandler.ActStretch 2000 w) = Ok tt ∧
  Fixture.position (Fixture.act HostHandler.ActStretch 2000 w) = Some (STRETCH, 0, 0) ∧
  length (timers (Fixture.act HostHandler.ActStretch 2000 w)) = 1%nat ∧
  StateMachine.includes (StateMachine.VALID_TRANSITIONS LOBBY) STRETCH = false.
Proof. vm_compute. split_and!; reflexivity. Qed.

(** C6 (the code departs from the claim): [start] on a match whose first
    question has an empty text throws the invalid-question error and leaves
    the stored match state as it was, but the match row has already been
    updated: its status is [IN_PROGRESS] and [startedAt] is set. *)
Theorem start_invalid_question_marks_match_started :
  let w := Fixture.blank_first in
  let out := HostHandler.hostAction "m1" HostHandler.ActStart 1000 w in
  fst out = Throw (InvalidQuestion "Question text is required") ∧
  kind_of (InvalidQuestion "Question text is required") = InvalidContent ∧
  redis_state (snd out) = redis_state w ∧
  Fixture.lifecycle w = Some (ST_LOBBY, None) ∧
  Fixture.lifecycle (snd out) = Some (IN_PROGRESS, Some 1000).
Proof. vm_compute. split_and!; reflexivity. Qed.

Lemma position_ext w w' :
  redis_state w = redis_state w' → Fixture.position w = Fixture.position w'.
Proof. unfold Fixture.position. by intros ->. Qed.

(** C9 (the code departs from the claim): with two stretch timers pending,
    the first one moves the match to the question phase; when the second
    one fires the match is no longer in the stretch phase, and the callback
    still advances it, from question 1 of inning 0 to question 0 of
    inning 1. *)
Theorem stretch_timer_fires_outside_stretch :
  let w := Fixture.second_timer_pending in
  length (timers w) = 1%nat ∧
  Fixture.position w = Some (QUESTION, 0, 1) ∧
  Fixture.position (fireTimer 0 41000 w) = Some (QUESTION, 1, 0) ∧
  redis_state (fireTimer 0 41000 w) ≠ redis_state w.
Proof.
  cbn zeta.
  assert (H1 : Fixture.position Fixture.second_timer_pending = Some (QUESTION, 0, 1))
    by (vm_compute; reflexivity).
  assert (H2 : Fixture.position (fireTimer 0 41000 Fixture.second_timer_pending)
               = Some (QUESTION, 1, 0))
    by (vm_compute; reflexivity).
  split; [vm_compute; reflexivity |]. split; [exact H1 |]. split; [exact H2 |].
  intros Heq. pose proof (position_ext _ _ Heq) as Hpos.
  rewrite H1, H2 in Hpos. discriminate Hpos.
Qed.

(** In a nine-inning match the stretch starts after inning index 6; when
    its timer fires, the callback reloads the stored state, which is still
    at inning 6, and so starts the stretch again instead of moving to
    inning index 7. *)
Lemma stretch_timer_retriggers_stretch :
  Fixture.position Fixture.at_stretch = Some (STRETCH, 6, 0) ∧
  length (timers Fixture.at_stretch) = 1%nat ∧
  Fixture.position (fireTimer 0 34000 Fixture.at_stretch) = Some (STRETCH, 6, 0) ∧
  length (timers (fireTimer 0 34000 Fixture.at_stretch)) = 1%nat.
Proof. vm_compute. split_and!; reflexivity. Qed.

(** Nor does the callback look at the match row: on a match abandoned
    during the stretch it still rewrites the stored state (a new deadline)
    and schedules another timer. *)
Lemma stretch_timer_ignores_abandonment :
  let w := Fixture.abandoned_at_stretch in
  (m_status <$> db_match w !! "m1"%string) = Some ABANDONED ∧
  (ms_endsAt <$> redis_state w !! StateMachine.stateKey "m1") = Some (Some 34000) ∧
  (ms_endsAt <$> redis_state (fireTimer 0 34000 w) !! StateMachine.stateKey "m1")
    = Some (Some 64000) ∧
  length (timers (fireTimer 0 34000 w)) = 1%nat.
Proof. vm_compute. split_and!; reflexivity. Qed.

(** ** Concurrent duplicate submissions *)

Section ConcurrentFacts.
Import AnswerService Concurrent.


















(** A call run alone is [submitAnswer]. *)
Lemma run_alone_is_submitAnswer c w :
  run_alone c w =
  let '(r, w') := submitAnswer (call_request c) (call_question c) (call_settings c) w in
  (Finished r, w').
Proof.
  rewrite submitAnswer_unfold. unfold run_alone, step, call_key.
  destruct (parse_questionId _) as [[i |] [q |]]; try reflexivity.
  cbn [db_matchAnswer]. unfold matchAnswer_create.
  destruct (existsb _ (db_matchAnswer w)); reflexivity.
Qed.

End ConcurrentFacts.




(** ** Question ids *)

Section QuestionIdFacts.
Import QuestionService AnswerService.

Lemma digit_of_pretty_char (d : N) :
  (d < 10)%N → Js.digit_of (pretty_N_char d) = Some (Z.of_N d).
Proof.
  intros Hd.
  assert (d = 0 ∨ d = 1 ∨ d = 2 ∨ d = 3 ∨ d = 4 ∨ d = 5 ∨ d = 6 ∨ d = 7
          ∨ d = 8 ∨ d = 9)%N as Hcases by lia.
  repeat (destruct Hcases as [-> | Hcases]; [reflexivity |]). by subst.
Qed.

(** Reading the digits just printed gives the number back. *)
Lemma digits_pretty_go (x : N) :
  ∀ s acc cnt,
    ∃ k, Js.digits acc cnt (pretty_N_go x s)
         = Js.digits (acc * 10 ^ Z.of_nat k + Z.of_N x) (cnt + k) s ∧
         ((0 < x)%N → (0 < k)%nat).
Proof.
  induction (N.lt_wf_0 x) as [x _ IH]. intros s acc cnt.
  destruct (decide (x = 0%N)) as [-> | Hx].
  - exists 0%nat. rewrite pretty_N_go_0. split; [| lia].
    replace (acc * 10 ^ Z.of_nat 0 + Z.of_N 0) with acc by (cbn; lia).
    by replace (cnt + 0)%nat with cnt by lia.
  - rewrite pretty_N_go_step by lia.
    destruct (IH (x `div` 10)%N) with
      (s := String (pretty_N_char (x `mod` 10)) s) (acc := acc) (cnt := cnt)
      as (k & Hk & _).
    { apply N.div_lt; lia. }
    exists (S k). split; [| lia]. rewrite Hk. cbn [Js.digits].
    rewrite digit_of_pretty_char by (apply N.mod_lt; lia).
    replace (S (cnt + k)) with (cnt + S k)%nat by lia.
    replace (10 * (acc * 10 ^ Z.of_nat k + Z.of_N (x `div` 10))
             + Z.of_N (x `mod` 10))
      with (acc * 10 ^ Z.of_nat (S k) + Z.of_N x); [done |].
    rewrite Nat2Z.inj_succ, Z.pow_succ_r by lia.
    pose proof (N.div_mod x 10 ltac:(lia)) as Hdm.
    assert (Z.of_N x = 10 * Z.of_N (x `div` 10) + Z.of_N (x `mod` 10)) by lia.
    lia.
Qed.

Lemma pretty_go_all_digits (x : N) :
  ∀ s, all_digits s → all_digits (pretty_N_go x s).
Proof.
  induction (N.lt_wf_0 x) as [x _ IH]. intros s Hs.
  destruct (decide (x = 0%N)) as [-> | Hx]; [by rewrite pretty_N_go_0 |].
  rewrite pretty_N_go_step by lia. apply IH; [apply N.div_lt; lia |].
  split; [| done]. unfold digit_char.
  rewrite digit_of_pretty_char by (apply N.mod_lt; lia). done.
Qed.

Lemma pretty_nonneg_all_digits (z : Z) : 0 ≤ z → all_digits (pretty z).
Proof.
  intros Hz. destruct z as [| p | p]; [by split; [eexists |] | | lia].
  unfold pretty, pretty_Z, pretty, pretty_positive, pretty, pretty_N.
  rewrite decide_False by done. by apply pretty_go_all_digits.
Qed.

Lemma is_whitespace2_bytes a b :
  Js.is_whitespace2 a b = true →
  nat_of_ascii a = 194%nat ∧ nat_of_ascii b = 160%nat.
Proof.
  unfold Js.is_whitespace2. rewrite andb_true_iff, !Nat.eqb_eq. tauto.
Qed.

Lemma is_whitespace3_bytes a b c :
  Js.is_whitespace3 a b c = true →
  (225 ≤ nat_of_ascii a)%nat ∧ (128 ≤ nat_of_ascii c)%nat.
Proof.
  unfold Js.is_whitespace3. cbn zeta.
  rewrite !orb_true_iff, !andb_true_iff, !orb_true_iff, !andb_true_iff,
    !Nat.eqb_eq, !Nat.leb_le.
  lia.
Qed.

(** A character of ASCII that is no white space stops [strip]. *)
Lemma strip_plain backwards c r :
  (nat_of_ascii c < 128)%nat → Js.is_whitespace c = false →
  Js.strip backwards (String c r) = String c r.
Proof.
  intros Hc Hws. cbn [Js.strip]. rewrite Hws.
  destruct r as [| b r2]; [done |].
  assert ((if backwards then Js.is_whitespace2 b c else Js.is_whitespace2 c b) = false)
    as ->.
  { destruct backwards.
    - destruct (Js.is_whitespace2 b c) eqn:E; [| done].
      apply is_whitespace2_bytes in E. lia.
    - destruct (Js.is_whitespace2 c b) eqn:E; [| done].
      apply is_whitespace2_bytes in E. lia. }
  destruct r2 as [| d r3]; [done |].
  assert ((if backwards then Js.is_whitespace3 d b c else Js.is_whitespace3 c b d)
          = false) as ->; [| done].
  destruct backwards.
  - destruct (Js.is_whitespace3 d b c) eqn:E; [| done].
    apply is_whitespace3_bytes in E. lia.
  - destruct (Js.is_whitespace3 c b d) eqn:E; [| done].
    apply is_whitespace3_bytes in E. lia.
Qed.

Lemma digit_char_ascii c : digit_char c → (nat_of_ascii c < 128)%nat.
Proof.
  intros [d Hd]. unfold Js.digit_of in Hd.
  destruct (Nat.leb_spec 48 (nat_of_ascii c)); [| discriminate].
  destruct (Nat.leb_spec (nat_of_ascii c) 57); [lia | discriminate].
Qed.

Lemma digit_char_plain c :
  digit_char c → Js.is_whitespace c = false ∧ c ≠ "-"%char ∧ c ≠ "+"%char.
Proof.
  intros [d Hd]. split_and!.
  - unfold Js.digit_of in Hd. unfold Js.is_whitespace.
    destruct (Nat.leb_spec 48 (nat_of_ascii c)); [| discriminate].
    repeat match goal with
           | |- context [(?a =? ?b)%nat] => destruct (Nat.eqb_spec a b); [lia |]
           end.
    reflexivity.
  - intros ->. discriminate.
  - intros ->. discriminate.
Qed.

Lemma sign_of_plain c r :
  c ≠ "-"%char → c ≠ "+"%char → Js.sign_of (String c r) = (1, String c r).
Proof.
  intros Hm Hp. unfold Js.sign_of.
  destruct c as [[] [] [] [] [] [] [] []]; try reflexivity; congruence.
Qed.

Lemma digits_nil acc cnt : Js.digits acc cnt "" = (acc, cnt, ""%string).
Proof. reflexivity. Qed.

(** [parseInt] reads back a printed non-negative integer. *)
Lemma parseInt_pretty (z : Z) : 0 ≤ z → Js.parseInt (Some (pretty z)) = Some z.
Proof.
  intros Hz. destruct z as [| p | p]; [reflexivity | | lia].
  pose proof (pretty_nonneg_all_digits (Z.pos p) Hz) as Hall.
  unfold pretty, pretty_Z, pretty, pretty_positive, pretty, pretty_N in *.
  rewrite decide_False in * by done.
  destruct (digits_pretty_go (N.pos p) "" 0 0%nat) as (k & Hk & Hpos).
  rewrite digits_nil in Hk. specialize (Hpos ltac:(lia)).
  unfold Js.parseInt.
  destruct (pretty_N_go (N.pos p) "") as [| c r] eqn:Hstr.
  { cbn in Hk. injection Hk as _ Hk. lia. }
  destruct Hall as [Hc _]. pose proof (digit_char_ascii c Hc) as Hascii.
  apply digit_char_plain in Hc as (Hws & Hm & Hp).
  unfold Js.trim_start. rewrite strip_plain by done.
  rewrite sign_of_plain by done.
  rewrite Hk. destruct k; [lia |]. cbn [Nat.add Nat.eqb]. f_equal; lia.
Qed.


Lemma all_digits_dash_free s : all_digits s → sep_free "-" s.
Proof.
  induction s as [| c r IH]; [done |]. intros [Hc Hr]. split; [| by apply IH].
  by apply digit_char_plain in Hc as (_ & Hm & _).
Qed.

Lemma append_cons c (r s : string) : (String c r ++ s)%string = String c (r ++ s).
Proof. reflexivity. Qed.

Lemma append_nil (s : string) : ("" ++ s)%string = s.
Proof. reflexivity. Qed.

Lemma append_empty_r (s : string) : (s ++ "")%string = s.
Proof.
  induction s as [| c r IH]; [done |]. by rewrite append_cons, IH.
Qed.

Lemma string_of_snoc (l : list ascii) c (r : string) :
  (string_of_list_ascii (l ++ [c]) ++ r)%string
  = (string_of_list_ascii l ++ String c r)%string.
Proof.
  induction l as [| d l IH]; cbn; [done |]. by rewrite !append_cons, IH.
Qed.

(** A string without the separator is one field. *)
Lemma split_go_free sep acc s :
  sep_free sep s →
  Js.split_go sep acc s = [(string_of_list_ascii (rev acc) ++ s)%string].
Proof.
  revert acc. induction s as [| c r IH]; intros acc Hs; cbn.
  - by rewrite append_empty_r.
  - destruct Hs as [Hc Hr]. destruct (Ascii.eqb_spec c sep) as [-> | _]; [done |].
    rewrite IH by done. f_equal. cbn [rev]. apply string_of_snoc.
Qed.

(** Splitting distributes over a separator. *)
Lemma split_go_app sep acc s1 s2 :
  Js.split_go sep acc (s1 ++ String sep s2)
  = Js.split_go sep acc s1 ++ Js.split_go sep [] s2.
Proof.
  revert acc. induction s1 as [| c r IH]; intros acc.
  - rewrite append_nil. cbn. by rewrite Ascii.eqb_refl.
  - rewrite append_cons. cbn.
    destruct (Ascii.eqb c sep); [by rewrite IH | apply IH].
Qed.

Lemma from_end_last2 {A} (l : list A) (a b : A) :
  Js.from_end (l ++ [a; b]) 2 = Some a ∧ Js.from_end (l ++ [a; b]) 1 = Some b.
Proof.
  unfold Js.from_end, Js.index. rewrite length_app. cbn [length].
  split.
  - destruct (Z.ltb_spec (Z.of_nat (length l + 2) - 2) 0); [lia |].
    replace (Z.to_nat (Z.of_nat (length l + 2) - 2)) with (length l + 0)%nat by lia.
    by rewrite lookup_app_r, Nat.add_comm, Nat.add_sub by lia.
  - destruct (Z.ltb_spec (Z.of_nat (length l + 2) - 1) 0); [lia |].
    replace (Z.to_nat (Z.of_nat (length l + 2) - 1)) with (length l + 1)%nat by lia.
    by rewrite lookup_app_r, Nat.add_comm, Nat.add_sub by lia.
Qed.

End QuestionIdFacts.

Lemma parse_question_id (matchId : string) (inning questionIdx : Z) :
  0 ≤ inning → 0 ≤ questionIdx →
  AnswerService.parse_questionId
    (QuestionService.question_id matchId inning questionIdx)
  = (Some inning, Some questionIdx).
Proof.
  intros Hi Hq. unfold AnswerService.parse_questionId, QuestionService.question_id.
  assert (Hsplit : Js.split "-" (matchId ++ "-" ++ pretty inning ++ "-" ++ pretty questionIdx)
                   = Js.split "-" matchId ++ [pretty inning; pretty questionIdx]).
  { unfold Js.split. rewrite !(append_cons "-" ""), !append_nil.
    rewrite split_go_app. f_equal. rewrite split_go_app.
    rewrite !split_go_free
      by (apply all_digits_dash_free, pretty_nonneg_all_digits; done).
    reflexivity. }
  rewrite Hsplit.
  destruct (from_end_last2 (Js.split "-" matchId) (pretty inning) (pretty questionIdx))
    as [-> ->].
  by rewrite !parseInt_pretty.
Qed.

(** The id [formatQuestion] gives a question decodes, in [submitAnswer]
    and [generateRevealPayload], to the inning and question index it was
    built from, whatever the match id (dashes included), as long as both
    indices are non-negative. *)
Theorem question_id_round_trip (matchId : string) (inning questionIdx : Z) :
  0 ≤ inning → 0 ≤ questionIdx →
  AnswerService.parse_questionId
    (QuestionService.question_id matchId inning questionIdx)
  = (Some inning, Some questionIdx).
Proof. apply parse_question_id. Qed.

Lemma question_id_round_trip_witness :
  AnswerService.parse_questionId (QuestionService.question_id "m-1" 0 12)
  = (Some 0, Some 12).
Proof. apply question_id_round_trip; lia. Defined.

(** ** What a submission leaves behind *)

Section SubmissionFacts.
Import QuestionService AnswerService PlayerHandler Rules.

Lemma calculateRuns_runs correct answerMs settings first :
  let r := calculateRuns correct answerMs settings first in
  runs r = (if bonusAwarded r then 4 else if correct then 1 else 0) ∧
  (bonusAwarded r = true → correct = true).
Proof.
  unfold calculateRuns.
  destruct correct, (grandSlam settings), first, (speedBonus settings);
    cbn; try done; by destruct (Qle_bool _ _).
Qed.

Lemma sadd_member key c w :
  c ∈ default [] (redis_sets (snd (sadd key c w)) !! key).
Proof.
  unfold sadd, modify. cbn. case_bool_decide as Hin; [done |].
  rewrite lookup_insert_eq. cbn. apply elem_of_app. right. constructor.
Qed.

Lemma sadd_keeps_db key c w :
  db_matchAnswer (snd (sadd key c w)) = db_matchAnswer w ∧
  db_matchPlayer (snd (sadd key c w)) = db_matchPlayer w ∧
  db_match (snd (sadd key c w)) = db_match w ∧
  redis_state (snd (sadd key c w)) = redis_state w.
Proof. done. Qed.

(** The shape of a successful submission. *)
Lemma submitAnswer_ok request question settings w res w' :
  submitAnswer request question settings w = (Ok res, w') →
  ∃ i q,
    parse_questionId (r_questionId request) = (Some i, Some q) ∧
    existsb (has_key (r_matchId request, r_playerId request, i, q))
      (db_matchAnswer w) = false ∧
    res = submitted_result (db_matchAnswer w) request question settings i q ∧
    w' = snd (sadd (cacheKey (r_matchId request) i q)
                (submitted_cache (db_matchAnswer w) request question settings i q)
                (with_db_matchAnswer
                   (λ l, l ++ [submitted_row (db_matchAnswer w) request question
                                 settings i q]) w)).
Proof.
  rewrite submitAnswer_unfold.
  destruct (parse_questionId _) as [[i |] [q |]]; try discriminate.
  cbn zeta. destruct (existsb _ _) eqn:Hex; [discriminate |].
  intros [= <- <-]. by exists i, q.
Qed.

Lemma submitted_row_fields ledger request question settings i q :
  let row := submitted_row ledger request question settings i q in
  let res := submitted_result ledger request question settings i q in
  a_matchId row = r_matchId request ∧ a_playerId row = r_playerId request ∧
  a_inningIdx row = i ∧ a_questionIdx row = q ∧
  a_isCorrect row = sr_isCorrect res ∧
  a_answerMs row = r_clientLatencyMs request ∧
  runs_of_answer row = sr_runsAwarded res.
Proof.
  cbn. split_and!; try done. unfold runs_of_answer, decided_runs. cbn.
  pose proof (calculateRuns_runs (isAnswerCorrect question (r_choice request))
                (r_clientLatencyMs request) settings
                (noCorrectYet ledger (r_matchId request) i q)) as [Hr Hb].
  cbn zeta in Hr, Hb. rewrite Hr.
  destruct (bonusAwarded _); [by rewrite Hb |]. by destruct (isAnswerCorrect _ _).
Qed.

Lemma Zsum_app l1 l2 : Zsum (l1 ++ l2) = Zsum l1 + Zsum l2.
Proof. unfold Zsum. induction l1 as [| x l1 IH]; cbn; lia. Qed.

Lemma Zsum_snoc l x : Zsum (l ++ [x]) = Zsum l + x.
Proof. rewrite Zsum_app. unfold Zsum. cbn. lia. Qed.

End SubmissionFacts.

(** A valid question shows the answer that scores: among the choices
    [formatQuestion] sends for a multiple-choice, media or true/false
    question that [validateQuestion] accepts there is one [isAnswerCorrect]
    accepts; a closest question sends no choices and accepts no answer at
    submission time. *)
Theorem shown_choices_hold_the_correct_answer
    (o : QuestionService.FormatQuestionOptions) :
  QuestionService.validateQuestion (QuestionService.fo_question o)
    = QuestionService.Valid →
  let q := QuestionService.fo_question o in
  match qp_choices (QuestionService.formatQuestion o) with
  | Some cs => ∃ c, c ∈ cs ∧ QuestionService.isAnswerCorrect q c = true
  | None => q_type q = closest ∧
            ∀ answer, QuestionService.isAnswerCorrect q answer = false
  end.
Proof.
  intros Hvalid q.
  pose proof (validateQuestion_choices q) as Hcs.
  unfold QuestionService.formatQuestion, QuestionService.isAnswerCorrect, q_type.
  cbn. fold q. destruct (q_body q) as [cs ci | b | v | cs ci] eqn:Hbody.
  - destruct (Hcs cs ci Hvalid (or_introl eq_refl)) as [_ Hci].
    destruct (index_in_bounds cs ci Hci) as [c Hc]. exists c. rewrite Hc.
    split; [| apply String.eqb_refl].
    unfold Js.index in Hc. destruct (ci <? 0); [done |].
    by eapply list_elem_of_lookup_2.
  - destruct b; [exists "True"%string | exists "False"%string];
      (split; [repeat constructor | reflexivity]).
  - done.
  - destruct (Hcs cs ci Hvalid (or_intror eq_refl)) as [_ Hci].
    destruct (index_in_bounds cs ci Hci) as [c Hc]. exists c. rewrite Hc.
    split; [| apply String.eqb_refl].
    unfold Js.index in Hc. destruct (ci <? 0); [done |].
    by eapply list_elem_of_lookup_2.
Qed.

Lemma shown_choices_hold_the_correct_answer_witness :
  ∃ c, c ∈ ["Carter"; "Alomar"; "Olerud"]%string ∧
       QuestionService.isAnswerCorrect Fixture.q_mc c = true.
Proof.
  exact (shown_choices_hold_the_correct_answer
           {| QuestionService.fo_matchId := "m1";
              QuestionService.fo_question := Fixture.q_mc;
              QuestionService.fo_inning := 0;
              QuestionService.fo_questionIdx := 0;
              QuestionService.fo_timerSec := 20 |} eq_refl).
Defined.

(** The two read paths of [getQuestionAnswers] agree on what
    [submitAnswer] has just written: the answer rebuilt from the new ledger
    row (runs derived from the flags) equals the answer rebuilt from the new
    cache entry (runs as stored), and both carry the runs the call
    returned, for a player whose nickname is not empty. *)
Theorem fresh_submission_reads_alike request question settings w res w' player :
  AnswerService.submitAnswer request question settings w = (Ok res, w') →
  AnswerService.find_player (db_matchPlayer w) (AnswerService.r_playerId request)
    = Some player →
  p_nickname player ≠ ""%string →
  ∃ i q row entry answer,
    AnswerService.parse_questionId (AnswerService.r_questionId request)
      = (Some i, Some q) ∧
    last (db_matchAnswer w') = Some row ∧
    entry ∈ default [] (redis_sets w'
                          !! AnswerService.cacheKey (AnswerService.r_matchId request) i q) ∧
    AnswerService.of_row (db_matchPlayer w') row = Ok answer ∧
    AnswerService.of_cached (db_matchPlayer w') entry = answer ∧
    AnswerService.qa_playerId answer = AnswerService.r_playerId request ∧
    AnswerService.qa_nickname answer = p_nickname player ∧
    AnswerService.qa_isCorrect answer = AnswerService.sr_isCorrect res ∧
    AnswerService.qa_runsAwarded answer = AnswerService.sr_runsAwarded res.
Proof.
  intros Hsub Hplayer Hnick.
  apply submitAnswer_ok in Hsub as (i & q & Hparse & _ & -> & ->).
  set (ledger := db_matchAnswer w).
  exists i, q, (AnswerService.submitted_row ledger request question settings i q),
    (AnswerService.submitted_cache ledger request question settings i q).
  match goal with
  | |- context [db_matchPlayer ?w1] =>
      change (db_matchPlayer w1) with (db_matchPlayer w)
  end.
  eexists. split_and!; [done | | apply sadd_member | | | | | |].
  - cbn. by rewrite last_snoc.
  - unfold AnswerService.of_row. cbn [AnswerService.submitted_row a_playerId].
    rewrite Hplayer. reflexivity.
  - unfold AnswerService.of_cached, AnswerService.nickname_or_unknown.
    cbn [AnswerService.submitted_cache c_playerId].
    rewrite Hplayer.
    destruct (String.eqb_spec (p_nickname player) "") as [? | _]; [done |].
    f_equal.
    pose proof (calculateRuns_runs
                  (QuestionService.isAnswerCorrect question (AnswerService.r_choice request))
                  (AnswerService.r_clientLatencyMs request) settings
                  (AnswerService.noCorrectYet ledger (AnswerService.r_matchId request) i q))
      as [Hr _].
    exact Hr.
  - done.
  - done.
  - done.
  - cbn.
    pose proof (calculateRuns_runs
                  (QuestionService.isAnswerCorrect question (AnswerService.r_choice request))
                  (AnswerService.r_clientLatencyMs request) settings
                  (AnswerService.noCorrectYet ledger (AnswerService.r_matchId request) i q))
      as [Hr _].
    symmetry. exact Hr.
Qed.

Lemma fresh_submission_reads_alike_witness :
  ∃ i q row entry answer,
    AnswerService.parse_questionId "m1-0-0" = (Some i, Some q) ∧
    last (db_matchAnswer
            (Fixture.after
               (AnswerService.submitAnswer (Fixture.request "p1" "m1-0-0" "Carter" 2000)
                  Fixture.q_mc (Fixture.settings true false))
               (Fixture.fresh (Fixture.settings true false) Fixture.two_innings)))
      = Some row ∧
    entry ∈ default []
      (redis_sets
         (Fixture.after
            (AnswerService.submitAnswer (Fixture.request "p1" "m1-0-0" "Carter" 2000)
               Fixture.q_mc (Fixture.settings true false))
            (Fixture.fresh (Fixture.settings true false) Fixture.two_innings))
         !! AnswerService.cacheKey "m1" i q) ∧
    AnswerService.of_row [Fixture.player "p1"; Fixture.player "p2"; Fixture.player "p3"]
      row = Ok answer ∧
    AnswerService.of_cached [Fixture.player "p1"; Fixture.player "p2"; Fixture.player "p3"]
      entry = answer ∧
    AnswerService.qa_playerId answer = "p1"%string ∧
    AnswerService.qa_nickname answer = "p1"%string ∧
    AnswerService.qa_isCorrect answer = true ∧
    AnswerService.qa_runsAwarded answer = 4.
Proof.
  exact (fresh_submission_reads_alike
           (Fixture.request "p1" "m1-0-0" "Carter" 2000) Fixture.q_mc
           (Fixture.settings true false)
           (Fixture.fresh (Fixture.settings true false) Fixture.two_innings)
           _ _ (Fixture.player "p1") eq_refl eq_refl ltac:(discriminate)).
Defined.

Section ScoreAfterSubmission.
Import AnswerService PlayerHandler Rules.

Lemma player_answers_snoc ledger matchId p row :
  player_answers (ledger ++ [row]) matchId p
  = player_answers ledger matchId p
    ++ (if bool_decide (a_matchId row = matchId ∧ a_playerId row = p_id p)
        then [row] else []).
Proof.
  unfold player_answers. rewrite filter_app. f_equal.
  rewrite filter_cons, filter_nil.
  destruct (decide _) as [H | H]; [by rewrite bool_decide_eq_true_2 |
                                  by rewrite bool_decide_eq_false_2].
Qed.

End ScoreAfterSubmission.

(** A successful submission moves the score the handler computes for the
    submitting player by exactly what the call returned: the runs by
    [runsAwarded], the number of answers by one, the number of correct
    answers by one when the answer is correct, the total time by the
    reported latency.  The score of every other player, and of the same
    player id in another match, is unchanged. *)
Theorem submission_moves_one_score request question settings w res w'
    (matchId : string) (p : MatchPlayer) :
  AnswerService.submitAnswer request question settings w = (Ok res, w') →
  let before := PlayerHandler.playerScore (db_matchAnswer w) matchId p in
  let after := PlayerHandler.playerScore (db_matchAnswer w') matchId p in
  if bool_decide (AnswerService.r_matchId request = matchId
                  ∧ AnswerService.r_playerId request = p_id p)
  then ps_runs after = ps_runs before + AnswerService.sr_runsAwarded res ∧
       ps_correct after
         = ps_correct before + (if AnswerService.sr_isCorrect res then 1 else 0) ∧
       ps_total after = ps_total before + 1 ∧
       ps_totalTimeMs after
         = ps_totalTimeMs before + AnswerService.r_clientLatencyMs request
  else after = before.
Proof.
  intros Hsub. apply submitAnswer_ok in Hsub as (i & q & _ & _ & -> & ->).
  cbn zeta. rewrite !playerScore_spec. unfold Rules.score_from_answers.
  match goal with
  | |- context [db_matchAnswer (snd (AnswerService.sadd ?k ?c ?w1))] =>
      change (db_matchAnswer (snd (AnswerService.sadd k c w1)))
        with (db_matchAnswer w ++ [AnswerService.submitted_row (db_matchAnswer w)
                                     request question settings i q])
  end.
  rewrite player_answers_snoc.
  destruct (submitted_row_fields (db_matchAnswer w) request question settings i q)
    as (Hm & Hp & _ & _ & Hc & Hms & Hruns).
  cbn zeta in *. rewrite Hm, Hp.
  case_bool_decide as Hwho; [| by rewrite app_nil_r].
  cbn [ps_runs ps_correct ps_total ps_totalTimeMs].
  rewrite !map_app. cbn [map].
  rewrite !Zsum_snoc, filter_app, !length_app. cbn [length].
  rewrite Hruns, Hms, filter_cons, filter_nil, Hc.
  split_and!; [done | | lia | done].
  destruct (AnswerService.sr_isCorrect _); [rewrite decide_True by done |
                                            rewrite decide_False by done];
    cbn [length]; lia.
Qed.

Lemma submission_moves_one_score_witness :
  ps_runs (PlayerHandler.playerScore
             (db_matchAnswer
                (Fixture.after
                   (AnswerService.submitAnswer
                      (Fixture.request "p1" "m1-0-0" "Carter" 2000)
                      Fixture.q_mc (Fixture.settings true false))
                   (Fixture.fresh (Fixture.settings true false) Fixture.two_innings)))
             "m1" (Fixture.player "p1")) = 0 + 4.
Proof.
  exact (proj1 (submission_moves_one_score
                  (Fixture.request "p1" "m1-0-0" "Carter" 2000) Fixture.q_mc
                  (Fixture.settings true false)
                  (Fixture.fresh (Fixture.settings true false) Fixture.two_innings)
                  _ _ "m1" (Fixture.player "p1") eq_refl)).
Defined.

Section InningRuns.
Import AnswerService Rules.

(** The answers recorded for an inning of a match. *)
Lemma inning_filter_spec matchId inningIdx (ledger : list MatchAnswer) :
  filter (λ a, (String.eqb (a_matchId a) matchId
                && (a_inningIdx a =? inningIdx)%Z && a_isCorrect a) = true) ledger
  = filter (λ a, a_isCorrect a = true)
      (filter (λ a, a_matchId a = matchId ∧ a_inningIdx a = inningIdx) ledger).
Proof.
  rewrite list_filter_filter. apply list_filter_iff. intros a.
  rewrite !andb_true_iff, String.eqb_eq, Z.eqb_eq. tauto.
Qed.

Lemma foldl_bonus (l : list MatchAnswer) (acc : Z) :
  foldl (λ total a, total + (if a_bonusAwarded a then 4 else 1)) acc
    (filter (λ a, a_isCorrect a = true) l)
  = acc + Zsum (map runs_of_answer l).
Proof.
  revert acc. induction l as [| a l IH]; intros acc; [cbn; lia |].
  rewrite filter_cons. cbn [map]. unfold Zsum. cbn [foldr].
  fold (Zsum (map runs_of_answer l)). unfold runs_of_answer at 1.
  destruct (a_isCorrect a) eqn:Hc.
  - rewrite decide_True by done. cbn [foldl]. rewrite IH. lia.
  - rewrite decide_False by done. rewrite IH. lia.
Qed.

Lemma calculateInningRuns_sum matchId inningIdx w :
  calculateInningRuns matchId inningIdx w
  = (Ok (Zsum (map runs_of_answer
                 (filter (λ a, a_matchId a = matchId ∧ a_inningIdx a = inningIdx)
                    (db_matchAnswer w)))), w).
Proof.
  unfold calculateInningRuns, bind, gets, ret. cbn.
  by rewrite inning_filter_spec, foldl_bonus.
Qed.

End InningRuns.

(** The runs of an inning, as the reveal writes them to the line score,
    are the sum over all answers recorded for that inning of
    [correct ? (bonus ? 4 : 1) : 0]; a successful submission raises the runs
    of its own inning by the runs it was awarded and leaves every other
    inning, and every other match, as it was. *)
Theorem submission_adds_to_its_inning request question settings w res w'
    (matchId : string) (inningIdx : Z) :
  AnswerService.submitAnswer request question settings w = (Ok res, w') →
  ∃ i q total,
    AnswerService.parse_questionId (AnswerService.r_questionId request)
      = (Some i, Some q) ∧
    total = Rules.Zsum
              (map Rules.runs_of_answer
                 (filter (λ a, a_matchId a = matchId ∧ a_inningIdx a = inningIdx)
                    (db_matchAnswer w))) ∧
    fst (RevealService.updateLineScore matchId inningIdx w) = Ok total ∧
    fst (RevealService.updateLineScore matchId inningIdx w')
    = Ok (total + (if bool_decide (AnswerService.r_matchId request = matchId
                                   ∧ i = inningIdx)
                   then AnswerService.sr_runsAwarded res else 0)).
Proof.
  intros Hsub. apply submitAnswer_ok in Hsub as (i & q & Hparse & _ & -> & ->).
  exists i, q. eexists. split_and!; [done | reflexivity | |].
  - unfold RevealService.updateLineScore. by rewrite calculateInningRuns_sum.
  - unfold RevealService.updateLineScore. rewrite calculateInningRuns_sum.
    cbn [fst]. f_equal.
    match goal with
    | |- context [db_matchAnswer (snd (AnswerService.sadd ?k ?c ?w1))] =>
        change (db_matchAnswer (snd (AnswerService.sadd k c w1)))
          with (db_matchAnswer w ++ [AnswerService.submitted_row (db_matchAnswer w)
                                       request question settings i q])
    end.
    destruct (submitted_row_fields (db_matchAnswer w) request question settings i q)
      as (Hm & _ & Hi & _ & _ & _ & Hruns).
    cbn zeta in *. rewrite filter_app, map_app, Zsum_app. f_equal.
    rewrite filter_cons, filter_nil, Hm, Hi.
    case_bool_decide as Hwho.
    + rewrite decide_True by done. cbn [map]. unfold Rules.Zsum. cbn [foldr].
      rewrite Hruns. lia.
    + by rewrite decide_False by done.
Qed.

Lemma submission_adds_to_its_inning_witness :
  ∃ total,
    fst (RevealService.updateLineScore "m1" 0
           (Fixture.fresh (Fixture.settings true false) Fixture.two_innings))
      = Ok total ∧
    fst (RevealService.updateLineScore "m1" 0
           (Fixture.after
              (AnswerService.submitAnswer (Fixture.request "p1" "m1-0-0" "Carter" 2000)
                 Fixture.q_mc (Fixture.settings true false))
              (Fixture.fresh (Fixture.settings true false) Fixture.two_innings)))
      = Ok (total + 4).
Proof.
  destruct (submission_adds_to_its_inning
              (Fixture.request "p1" "m1-0-0" "Carter" 2000) Fixture.q_mc
              (Fixture.settings true false)
              (Fixture.fresh (Fixture.settings true false) Fixture.two_innings)
              _ _ "m1" 0 eq_refl) as (i & q & total & Hparse & _ & Hbefore & Hafter).
  exists total. split; [exact Hbefore |].
  vm_compute in Hparse. injection Hparse as <- <-. exact Hafter.
Defined.

(** ** The grand slam *)

Section GrandSlamFacts.
Import AnswerService Invariants.

Lemma noCorrectYet_true ledger matchId i q :
  noCorrectYet ledger matchId i q = true →
  ∀ b, b ∈ ledger → a_matchId b = matchId → a_inningIdx b = i →
       a_questionIdx b = q → a_isCorrect b = false.
Proof.
  unfold noCorrectYet. intros Hlen b Hb Hm Hi Hq.
  apply Nat.eqb_eq, length_zero_iff_nil in Hlen.
  destruct (a_isCorrect b) eqn:Hc; [| done].
  assert (b ∈ filter (λ a, correct_for_question matchId i q a = true) ledger) as Hin.
  { apply list_elem_of_filter. split; [| done].
    unfold correct_for_question, for_question.
    rewrite Hc, Hm, Hi, Hq, String.eqb_refl, !Z.eqb_refl. done. }
  rewrite Hlen in Hin. by apply elem_of_nil in Hin.
Qed.

Lemma bonus_without_speed correct answerMs settings first :
  speedBonus settings = false →
  bonusAwarded (calculateRuns correct answerMs settings first) = true →
  correct = true ∧ first = true.
Proof.
  intros Hsb. unfold calculateRuns. rewrite Hsb.
  destruct correct, (grandSlam settings), first; cbn; done.
Qed.

Lemma bonus_is_first_correct_prefix l x :
  bonus_is_first_correct (l ++ [x]) → bonus_is_first_correct l.
Proof.
  intros Hinv n a Hn Hb.
  destruct (Hinv n a) as [Hc Hfirst]; [by apply lookup_app_l_Some | done |].
  split; [done |]. intros k b Hk Hkb. apply (Hfirst k b Hk).
  by apply lookup_app_l_Some.
Qed.

Lemma bonus_rows_at_most_one ledger matchId i q :
  bonus_is_first_correct ledger →
  (length (bonus_rows ledger matchId i q) ≤ 1)%nat.
Proof.
  induction ledger as [| x l IH] using rev_ind; intros Hinv; [cbn; lia |].
  unfold bonus_rows in *. rewrite filter_app, length_app, filter_cons, filter_nil.
  specialize (IH (bonus_is_first_correct_prefix _ _ Hinv)).
  destruct (decide _) as [(Hm & Hi & Hq & Hb) | _]; [| cbn; lia].
  cbn [length].
  destruct (filter _ l) as [| b r] eqn:Hf; [cbn; lia |]. exfalso.
  assert (b ∈ filter (λ a, a_matchId a = matchId ∧ a_inningIdx a = i
                           ∧ a_questionIdx a = q ∧ a_bonusAwarded a = true) l)
    as Hin by (rewrite Hf; constructor).
  apply list_elem_of_filter in Hin as [(Hbm & Hbi & Hbq & Hbb) Hbl].
  apply list_elem_of_lookup in Hbl as [k Hk].
  pose proof (lookup_lt_Some _ _ _ Hk) as Hlt.
  destruct (Hinv k b) as [Hbc _]; [by apply lookup_app_l_Some | done |].
  destruct (Hinv (length l) x) as [_ Hfirst]; [by rewrite list_lookup_middle | done |].
  rewrite (Hfirst k b Hlt) in Hbc; [done | by apply lookup_app_l_Some |].
  unfold same_question. by rewrite Hm, Hi, Hq, Hbm, Hbi, Hbq.
Qed.

End GrandSlamFacts.

(** With the speed bonus turned off the bonus flag is the grand slam, and
    it goes to the first correct answer of a question only: a successful
    submission keeps every flagged row correct and preceded by no correct
    row of its question, so no question ever has two flagged rows. *)
Theorem grand_slam_goes_to_the_first_correct_answer
    request question settings w res w' :
  speedBonus settings = false →
  Invariants.bonus_is_first_correct (db_matchAnswer w) →
  AnswerService.submitAnswer request question settings w = (Ok res, w') →
  Invariants.bonus_is_first_correct (db_matchAnswer w') ∧
  ∀ matchId inningIdx questionIdx,
    (length (Invariants.bonus_rows (db_matchAnswer w') matchId inningIdx questionIdx)
     ≤ 1)%nat.
Proof.
  intros Hsb Hinv Hsub.
  apply submitAnswer_ok in Hsub as (i & q & _ & _ & -> & ->).
  match goal with
  | |- context [db_matchAnswer (snd (AnswerService.sadd ?k ?c ?w1))] =>
      change (db_matchAnswer (snd (AnswerService.sadd k c w1)))
        with (db_matchAnswer w ++ [AnswerService.submitted_row (db_matchAnswer w)
                                     request question settings i q])
  end.
  set (ledger := db_matchAnswer w) in *.
  assert (Invariants.bonus_is_first_correct
            (ledger ++ [AnswerService.submitted_row ledger request question
                          settings i q])) as Hinv'.
  { intros n a Hn Hb. apply lookup_snoc_Some in Hn as [[Hlt Hn] | [-> <-]].
    - destruct (Hinv n a Hn Hb) as [Hc Hfirst]. split; [done |].
      intros k b Hk Hkb. apply (Hfirst k b Hk).
      rewrite lookup_app_l in Hkb by lia. done.
    - cbn in Hb. apply bonus_without_speed in Hb as [Hc Hfirst]; [| done].
      split; [exact Hc |]. intros k b Hk Hkb (Hm & Hi & Hq).
      rewrite lookup_app_l in Hkb by lia. cbn in Hm, Hi, Hq.
      eapply noCorrectYet_true; [exact Hfirst | | done..].
      by eapply list_elem_of_lookup_2. }
  split; [exact Hinv' |]. intros m i' q'. by apply bonus_rows_at_most_one.
Qed.

Lemma grand_slam_goes_to_the_first_correct_answer_witness :
  (length (Invariants.bonus_rows
             (db_matchAnswer
                (Fixture.after
                   (AnswerService.submitAnswer
                      (Fixture.request "p1" "m1-0-0" "Carter" 2000)
                      Fixture.q_mc (Fixture.settings true false))
                   (Fixture.fresh (Fixture.settings true false) Fixture.two_innings)))
             "m1" 0 0) ≤ 1)%nat.
Proof.
  refine (proj2 (grand_slam_goes_to_the_first_correct_answer
                   (Fixture.request "p1" "m1-0-0" "Carter" 2000) Fixture.q_mc
                   (Fixture.settings true false)
                   (Fixture.fresh (Fixture.settings true false) Fixture.two_innings)
                   _ _ eq_refl _ eq_refl) "m1"%string 0 0).
  intros n a Hn. destruct n; discriminate Hn.
Defined.

Section GrandSlamRace.
Import AnswerService Concurrent.

Lemma step_at_grand_slam c w m p i q :
  call_key c = Some (m, p, i, q) →
  step c AtGrandSlam w = (AtCreate (noCorrectYet (db_matchAnswer w) m i q), w).
Proof. intros Hk. unfold step. by rewrite Hk. Qed.

Lemma step_at_create c gs w m p i q :
  call_key c = Some (m, p, i, q) →
  existsb (has_key (m, p, i, q)) (db_matchAnswer w) = false →
  let req := call_request c in
  let correct := QuestionService.isAnswerCorrect (call_question c) (r_choice req) in
  let r := calculateRuns correct (r_clientLatencyMs req) (call_settings c) gs in
  step c (AtCreate gs) w
  = (AtCache r,
     with_db_matchAnswer
       (λ l, l ++ [{| a_id := length (db_matchAnswer w); a_matchId := m;
                      a_playerId := p; a_inningIdx := i; a_questionIdx := q;
                      a_choice := r_choice req; a_isCorrect := correct;
                      a_answerMs := r_clientLatencyMs req;
                      a_bonusAwarded := bonusAwarded r |}]) w).
Proof.
  intros Hk Hfree. unfold step. rewrite Hk. unfold matchAnswer_create.
  by rewrite Hfree.
Qed.

Lemma step_at_cache c r w m p i q :
  call_key c = Some (m, p, i, q) →
  ∃ w', step c (AtCache r) w = (Finished (Ok (call_result c r)), w') ∧
        db_matchAnswer w' = db_matchAnswer w.
Proof.
  intros Hk. unfold step. rewrite Hk. eexists. split; [reflexivity | done].
Qed.

Lemma existsb_has_key_snoc k (ledger : list MatchAnswer) row :
  existsb (has_key k) ledger = false → answer_key row ≠ k →
  existsb (has_key k) (ledger ++ [row]) = false.
Proof.
  intros Hfree Hrow. rewrite existsb_app, Hfree. cbn.
  unfold has_key. by rewrite bool_decide_eq_false_2.
Qed.

End GrandSlamRace.

(** The grand slam check and the insert are two separate store accesses:
    when two players answer the same question correctly and both calls read
    the ledger before either has written its row, both are awarded the
    grand slam, so the question ends with two rows carrying the bonus; run
    one after the other, the second call finds the first row and, with the
    speed bonus off, gets one run. *)
Theorem grand_slam_check_races (c1 c2 : Concurrent.Call) (w : World)
    (m p1 p2 : string) (i q : Z) :
  Concurrent.call_key c1 = Some (m, p1, i, q) →
  Concurrent.call_key c2 = Some (m, p2, i, q) →
  p1 ≠ p2 →
  grandSlam (Concurrent.call_settings c1) = true →
  grandSlam (Concurrent.call_settings c2) = true →
  speedBonus (Concurrent.call_settings c2) = false →
  QuestionService.isAnswerCorrect (Concurrent.call_question c1)
    (AnswerService.r_choice (Concurrent.call_request c1)) = true →
  QuestionService.isAnswerCorrect (Concurrent.call_question c2)
    (AnswerService.r_choice (Concurrent.call_request c2)) = true →
  AnswerService.noCorrectYet (db_matchAnswer w) m i q = true →
  existsb (AnswerService.has_key (m, p1, i, q)) (db_matchAnswer w) = false →
  existsb (AnswerService.has_key (m, p2, i, q)) (db_matchAnswer w) = false →
  let flags (a : MatchAnswer) := (a_playerId a, a_isCorrect a, a_bonusAwarded a) in
  (∃ res1 res2 w' added,
     Concurrent.run_schedule [c1; c2] [0; 1; 0; 1; 0; 1]%nat w
       = ([Concurrent.Finished (Ok res1); Concurrent.Finished (Ok res2)], w') ∧
     AnswerService.sr_runsAwarded res1 = 4 ∧
     AnswerService.sr_runsAwarded res2 = 4 ∧
     db_matchAnswer w' = db_matchAnswer w ++ added ∧
     map flags added = [(p1, true, true); (p2, true, true)]) ∧
  (∃ res1 res2 w' added,
     Concurrent.run_schedule [c1; c2] [0; 0; 0; 1; 1; 1]%nat w
       = ([Concurrent.Finished (Ok res1); Concurrent.Finished (Ok res2)], w') ∧
     AnswerService.sr_runsAwarded res1 = 4 ∧
     AnswerService.sr_runsAwarded res2 = 1 ∧
     db_matchAnswer w' = db_matchAnswer w ++ added ∧
     map flags added = [(p1, true, true); (p2, true, false)]).
Proof.
  intros Hk1 Hk2 Hne Hgs1 Hgs2 Hsb2 Hc1 Hc2 Hfirst Hfree1 Hfree2 flags.
  assert (Hslam : ∀ c, grandSlam (Concurrent.call_settings c) = true →
            QuestionService.isAnswerCorrect (Concurrent.call_question c)
              (AnswerService.r_choice (Concurrent.call_request c)) = true →
            AnswerService.calculateRuns
              (QuestionService.isAnswerCorrect (Concurrent.call_question c)
                 (AnswerService.r_choice (Concurrent.call_request c)))
              (AnswerService.r_clientLatencyMs (Concurrent.call_request c))
              (Concurrent.call_settings c) true
            = {| AnswerService.runs := 4; AnswerService.bonusAwarded := true |}).
  { intros c Hg Hc. unfold AnswerService.calculateRuns. by rewrite Hc, Hg. }
  split.
  - unfold Concurrent.run_schedule. cbn [length replicate foldl].
    unfold Concurrent.sched_step at 6. cbn [lookup list_lookup fst snd].
    rewrite (step_at_grand_slam c1 w m p1 i q Hk1), Hfirst. cbn [list_insert insert].
    unfold Concurrent.sched_step at 5. cbn [lookup list_lookup fst snd].
    rewrite (step_at_grand_slam c2 w m p2 i q Hk2), Hfirst. cbn [list_insert insert].
    unfold Concurrent.sched_step at 4. cbn [lookup list_lookup fst snd].
    rewrite (step_at_create c1 true w m p1 i q Hk1 Hfree1). cbn zeta.
    rewrite (Hslam c1 Hgs1 Hc1), Hc1. cbn [list_insert insert AnswerService.bonusAwarded].
    unfold Concurrent.sched_step at 3. cbn [lookup list_lookup fst snd].
    rewrite (step_at_create c2 true _ m p2 i q Hk2)
      by (cbn; apply existsb_has_key_snoc; [done | cbn; intros [=]; congruence]).
    cbn zeta. rewrite (Hslam c2 Hgs2 Hc2), Hc2.
    cbn [list_insert insert AnswerService.bonusAwarded].
    unfold Concurrent.sched_step at 2. cbn [lookup list_lookup fst snd].
    match goal with
    | |- context [Concurrent.step c1 (Concurrent.AtCache ?r) ?w0] =>
        destruct (step_at_cache c1 r w0 m p1 i q Hk1) as (w1 & -> & Hw1)
    end.
    cbn [list_insert insert].
    unfold Concurrent.sched_step. cbn [lookup list_lookup fst snd].
    match goal with
    | |- context [Concurrent.step c2 (Concurrent.AtCache ?r) ?w0] =>
        destruct (step_at_cache c2 r w0 m p2 i q Hk2) as (w2 & -> & Hw2)
    end.
    cbn [list_insert insert].
    do 4 eexists. split_and!; [reflexivity | done | done | |].
    + rewrite Hw2, Hw1. cbn. rewrite <- app_assoc. reflexivity.
    + reflexivity.
  - unfold Concurrent.run_schedule. cbn [length replicate foldl].
    unfold Concurrent.sched_step at 6. cbn [lookup list_lookup fst snd].
    rewrite (step_at_grand_slam c1 w m p1 i q Hk1), Hfirst. cbn [list_insert insert].
    unfold Concurrent.sched_step at 5. cbn [lookup list_lookup fst snd].
    rewrite (step_at_create c1 true w m p1 i q Hk1 Hfree1). cbn zeta.
    rewrite (Hslam c1 Hgs1 Hc1), Hc1. cbn [list_insert insert AnswerService.bonusAwarded].
    unfold Concurrent.sched_step at 4. cbn [lookup list_lookup fst snd].
    match goal with
    | |- context [Concurrent.step c1 (Concurrent.AtCache ?r) ?w0] =>
        destruct (step_at_cache c1 r w0 m p1 i q Hk1) as (w1 & -> & Hw1)
    end.
    cbn [list_insert insert].
    unfold Concurrent.sched_step at 3. cbn [lookup list_lookup fst snd].
    rewrite (step_at_grand_slam c2 w1 m p2 i q Hk2).
    assert (AnswerService.noCorrectYet (db_matchAnswer w1) m i q = false) as ->.
    { rewrite Hw1. cbn. unfold AnswerService.noCorrectYet.
      rewrite filter_app, length_app, filter_cons, filter_nil.
      rewrite decide_True.
      - cbn [length]. apply Nat.eqb_neq. lia.
      - unfold AnswerService.correct_for_question, AnswerService.for_question. cbn.
        by rewrite String.eqb_refl, !Z.eqb_refl. }
    cbn [list_insert insert].
    unfold Concurrent.sched_step at 2. cbn [lookup list_lookup fst snd].
    rewrite (step_at_create c2 false w1 m p2 i q Hk2)
      by (rewrite Hw1; cbn; apply existsb_has_key_snoc; [done | cbn; intros [=]; congruence]).
    cbn zeta.
    assert (AnswerService.calculateRuns
              (QuestionService.isAnswerCorrect (Concurrent.call_question c2)
                 (AnswerService.r_choice (Concurrent.call_request c2)))
              (AnswerService.r_clientLatencyMs (Concurrent.call_request c2))
              (Concurrent.call_settings c2) false
            = {| AnswerService.runs := 1; AnswerService.bonusAwarded := false |}) as ->.
    { unfold AnswerService.calculateRuns. by rewrite Hc2, Hsb2, andb_false_r. }
    rewrite Hc2. cbn [list_insert insert AnswerService.bonusAwarded].
    unfold Concurrent.sched_step. cbn [lookup list_lookup fst snd].
    match goal with
    | |- context [Concurrent.step c2 (Concurrent.AtCache ?r) ?w0] =>
        destruct (step_at_cache c2 r w0 m p2 i q Hk2) as (w2 & -> & Hw2)
    end.
    cbn [list_insert insert].
    do 4 eexists. split_and!; [reflexivity | done | done | |].
    + rewrite Hw2. cbn. rewrite Hw1. cbn. rewrite <- app_assoc. reflexivity.
    + reflexivity.
Qed.


Lemma grand_slam_check_races_witness :
  ∃ res1 res2 w',
    Concurrent.run_schedule [Examples.slam_call "p1"; Examples.slam_call "p2"]
      [0; 1; 0; 1; 0; 1]%nat
      (Fixture.fresh (Fixture.settings true false) Fixture.two_innings)
    = ([Concurrent.Finished (Ok res1); Concurrent.Finished (Ok res2)], w') ∧
    AnswerService.sr_runsAwarded res1 = 4 ∧
    AnswerService.sr_runsAwarded res2 = 4.
Proof.
  destruct (grand_slam_check_races
              (Examples.slam_call "p1") (Examples.slam_call "p2")
              (Fixture.fresh (Fixture.settings true false) Fixture.two_innings)
              "m1" "p1" "p2" 0 0 eq_refl eq_refl ltac:(discriminate)
              eq_refl eq_refl eq_refl eq_refl eq_refl eq_refl eq_refl eq_refl)
    as [(res1 & res2 & w' & added & Hrun & Hr1 & Hr2 & _) _].
  exists res1, res2, w'. exact (conj Hrun (conj Hr1 Hr2)).
Defined.

(** ** The state machine beyond its guards *)

Ltac run_machine :=
  unfold HostHandler.hostAction, StateMachine.run, StateMachine.startMatch,
    StateMachine.revealAnswer, StateMachine.skipQuestion, StateMachine.nextQuestion,
    StateMachine.pauseMatch, StateMachine.resumeMatch, StateMachine.endMatch,
    StateMachine.triggerStretch, StateMachine.transition, StateMachine.setTimeout,
    StateMachine.show_question, StateMachine.emit_question_show,
    StateMachine.emit_state, StateMachine.emit, StateMachine.updateMatch,
    StateMachine.findMatch, StateMachine.validated, StateMachine.question_at,
    StateMachine.saveState, StateMachine.loadState, StateMachine.this_set,
    StateMachine.this_get, liftW, bind, ret, throw, gets, modify, get.

(** Without a stored match state every host command is refused with
    'Match state not found', and nothing is written. *)
Theorem host_action_needs_stored_state matchId action now w :
  redis_state w !! StateMachine.stateKey matchId = None →
  HostHandler.hostAction matchId action now w = (Throw MatchStateNotFound, w) ∧
  kind_of MatchStateNotFound = NotFound.
Proof.
  intros Hs. split; [| done].
  destruct action; run_machine; cbn; by rewrite Hs.
Qed.

Lemma host_action_needs_stored_state_witness :
  HostHandler.hostAction "m2" HostHandler.ActSkip 1000
    (Fixture.fresh (Fixture.settings true false) Fixture.two_innings)
  = (Throw MatchStateNotFound,
     Fixture.fresh (Fixture.settings true false) Fixture.two_innings).
Proof.
  exact (proj1 (host_action_needs_stored_state "m2" HostHandler.ActSkip 1000
                  (Fixture.fresh (Fixture.settings true false) Fixture.two_innings)
                  eq_refl)).
Defined.

Lemma triggerStretch_run matchId now w s :
  redis_state w !! StateMachine.stateKey matchId = Some s →
  ∃ w',
    HostHandler.hostAction matchId HostHandler.ActStretch now w = (Ok tt, w') ∧
    redis_state w' !! StateMachine.stateKey matchId
      = Some (set_endsAt (Some (now + 30000)) (set_phase STRETCH s)) ∧
    db_match w' = db_match w ∧ db_matchAnswer w' = db_matchAnswer w ∧
    timers w'
      = timers w ++ [{| t_due := now + 30000; t_matchId := matchId;
                        t_this := Some (set_endsAt (Some (now + 30000))
                                          (set_phase STRETCH s)) |}].
Proof.
  intros Hs. run_machine. cbn. rewrite Hs. cbn.
  eexists. split; [reflexivity |]. cbn. by rewrite lookup_insert_eq.
Qed.

(** The stretch has no guard: whenever a match state is stored, in any
    phase, the command succeeds, stores the stretch phase with a deadline
    30 seconds ahead, leaves inning, question index and the durable records
    as they were, and schedules one more timer. *)
Theorem stretch_is_never_refused matchId now w s :
  redis_state w !! StateMachine.stateKey matchId = Some s →
  ∃ w',
    HostHandler.hostAction matchId HostHandler.ActStretch now w = (Ok tt, w') ∧
    redis_state w' !! StateMachine.stateKey matchId
      = Some (set_endsAt (Some (now + 30000)) (set_phase STRETCH s)) ∧
    Views.stored_position matchId w'
      = Some (STRETCH, ms_inning s, ms_questionIdx s) ∧
    timers w'
      = timers w ++ [{| t_due := now + 30000; t_matchId := matchId;
                        t_this := Some (set_endsAt (Some (now + 30000))
                                          (set_phase STRETCH s)) |}] ∧
    db_match w' = db_match w ∧ db_matchAnswer w' = db_matchAnswer w.
Proof.
  intros Hs. destruct (triggerStretch_run matchId now w s Hs)
    as (w' & Hrun & Hs' & Hm & Ha & Ht).
  exists w'. split_and!; try done.
  unfold Views.stored_position. by rewrite Hs'.
Qed.

Lemma stretch_is_never_refused_witness :
  ∃ w',
    HostHandler.hostAction "m1" HostHandler.ActStretch 2000
      (Fixture.fresh (Fixture.settings true false) Fixture.two_innings) = (Ok tt, w') ∧
    Views.stored_position "m1" w' = Some (STRETCH, 0, 0).
Proof.
  destruct (stretch_is_never_refused "m1" 2000
              (Fixture.fresh (Fixture.settings true false) Fixture.two_innings)
              _ eq_refl) as (w' & Hrun & _ & Hpos & _).
  exists w'. exact (conj Hrun Hpos).
Defined.

Lemma bind_loadState {A} matchId (k : MatchState → M Machine A) st w :
  world (snd (bind (StateMachine.loadState matchId) k {| this_state := st; world := w |}))
  = world (snd (bind (StateMachine.loadState matchId) k
                  {| this_state := None; world := w |})).
Proof.
  unfold bind, StateMachine.loadState. cbn [this_state world].
  by destruct (redis_state w !! _).
Qed.

Lemma nextQuestion_reloads matchId now st w :
  world (snd (StateMachine.nextQuestion matchId now {| this_state := st; world := w |}))
  = world (snd (StateMachine.nextQuestion matchId now
                  {| this_state := None; world := w |})).
Proof.
  unfold StateMachine.nextQuestion. apply bind_loadState.
Qed.

Lemma timer_restarts n now w t :
  timers w !! n = Some t →
  is_Some (t_this t) →
  fireTimer n now w
  = snd (StateMachine.run (StateMachine.nextQuestion (t_matchId t) now)
           (with_timers (delete n) w)).
Proof.
  intros Ht [s0 Hs0]. unfold fireTimer. rewrite Ht.
  unfold StateMachine.stretchTimeout, StateMachine.run.
  unfold bind at 1 2. unfold StateMachine.this_set at 1 2. cbn [this_state world].
  rewrite Hs0. cbn [this_state world].
  rewrite (nextQuestion_reloads _ _ (Some _)).
  by destruct (StateMachine.nextQuestion _ _ _).
Qed.

(** The callback of the stretch timer assigns inning 7 and question 0 to
    the instance it closed over, but [nextQuestion] starts by loading the
    stored state again: the callback does exactly what [nextQuestion] does
    on a fresh instance, whatever the closure held. *)
Theorem stretch_timer_restarts_from_the_stored_state n now w t :
  timers w !! n = Some t →
  is_Some (t_this t) →
  fireTimer n now w
  = snd (StateMachine.run (StateMachine.nextQuestion (t_matchId t) now)
           (with_timers (delete n) w)).
Proof. apply timer_restarts. Qed.

Lemma stretch_timer_restarts_from_the_stored_state_witness :
  fireTimer 0 34000 Fixture.at_stretch
  = snd (StateMachine.run (StateMachine.nextQuestion "m1" 34000)
           (with_timers (delete 0%nat) Fixture.at_stretch)).
Proof.
  assert (∃ t, timers Fixture.at_stretch !! 0%nat = Some t ∧ t_matchId t = "m1"%string
               ∧ is_Some (t_this t)) as (t & Ht & Hm & Hthis).
  { eexists. split; [vm_compute; reflexivity |]. split; [reflexivity | by eexists]. }
  rewrite <- Hm.
  exact (stretch_timer_restarts_from_the_stored_state 0 34000 Fixture.at_stretch t
           Ht Hthis).
Defined.

Section StoreFacts.
Import AnswerService RevealService StateMachine.

Lemma list_ascii_of_string_app (s t : string) :
  list_ascii_of_string (s ++ t) = list_ascii_of_string s ++ list_ascii_of_string t.
Proof.
  induction s as [| c s IH]; [done |]. rewrite append_cons. cbn. by rewrite IH.
Qed.

Lemma string_app_inv_tail (s1 s2 t : string) :
  (s1 ++ t)%string = (s2 ++ t)%string → s1 = s2.
Proof.
  intros H. apply (f_equal list_ascii_of_string) in H.
  rewrite !list_ascii_of_string_app in H. apply app_inv_tail in H.
  apply (f_equal string_of_list_ascii) in H.
  by rewrite !string_of_list_ascii_of_string in H.
Qed.

Lemma stateKey_inj m m' : stateKey m = stateKey m' → m = m'.
Proof.
  unfold stateKey. intros H. apply (inj (String.append "match:")) in H.
  by apply string_app_inv_tail in H.
Qed.

Lemma getQuestionAnswers_reads matchId i q w :
  snd (getQuestionAnswers matchId i q w) = w.
Proof.
  unfold getQuestionAnswers, smembers, bind, gets, ret. cbn.
  by case_match.
Qed.

(** What [handleClosestQuestion] writes: the flags of some rows. *)
Lemma handleClosestQuestion_writes matchId i q question w :
  snd (handleClosestQuestion matchId i q question w) = w ∨
  ∃ ids, q_type question = closest ∧
         snd (handleClosestQuestion matchId i q question w)
         = with_db_matchAnswer (updateMany_correct ids) w.
Proof.
  unfold handleClosestQuestion, q_type.
  destruct (q_body question); try by left.
  unfold bind, gets, ret, modify. cbn.
  case_match; [by left |].
  case_match; [| by left]. right. by eexists.
Qed.

Lemma generateRevealPayload_writes matchId questionId question w :
  snd (generateRevealPayload matchId questionId question w) = w ∨
  ∃ ids, q_type question = closest ∧
         snd (generateRevealPayload matchId questionId question w)
         = with_db_matchAnswer (updateMany_correct ids) w.
Proof.
  remember (snd (generateRevealPayload matchId questionId question w)) as W eqn:HW.
  unfold generateRevealPayload in HW.
  destruct (parse_questionId questionId) as [[i |] [q |]]; try by left.
  unfold bind at 1 2 in HW. cbn [int_arg ret] in HW.
  assert (∀ w1, snd ((let* answers := getQuestionAnswers matchId i q in
                     match QuestionService.getCorrectAnswer question with
                     | JsUndefined => throw TypeError
                     | _ =>
                         ret {| rp_questionId := questionId;
                                rp_correctAnswer := QuestionService.getCorrectAnswer question;
                                rp_correctIndex :=
                                  match q_body question with
                                  | McBody _ ci | MediaBody _ ci => Some ci
                                  | _ => None
                                  end;
                                rp_clipUrl := q_clipUrl question;
                                rp_playerResults :=
                                  map (λ answer, {| pr_playerId := qa_playerId answer;
                                                    pr_nickname := qa_nickname answer;
                                                    pr_isCorrect := qa_isCorrect answer;
                                                    pr_runsAwarded := qa_runsAwarded answer |})
                                    answers |}
                     end) w1) = w1) as Hrest.
  { intros w1. unfold bind.
    pose proof (getQuestionAnswers_reads matchId i q w1) as Hread.
    destruct (getQuestionAnswers matchId i q w1) as [[answers | e] w2];
      cbn in Hread; subst w2; [| done].
    by destruct (QuestionService.getCorrectAnswer question). }
  unfold bind at 1 in HW.
  destruct (q_body question) eqn:Hbody.
  - left. cbn [ret] in HW. by rewrite HW, Hrest.
  - left. cbn [ret] in HW. by rewrite HW, Hrest.
  - destruct (handleClosestQuestion_writes matchId i q question w) as [Hw | (ids & Hc & Hw)];
      destruct (handleClosestQuestion matchId i q question w) as [[[] | e] w1];
      cbn [snd] in Hw; subst w1.
    + left. by rewrite HW, Hrest.
    + by left.
    + right. exists ids. split; [done |]. by rewrite HW, Hrest.
    + right. by exists ids.
  - left. cbn [ret] in HW. by rewrite HW, Hrest.
Qed.

Lemma updateLineScore_reads matchId i w :
  snd (RevealService.updateLineScore matchId i w) = w.
Proof. unfold RevealService.updateLineScore. by rewrite calculateInningRuns_sum. Qed.

End StoreFacts.

(** Whatever [generateRevealPayload] returns, it writes nothing but the
    correctness and bonus flags of ledger rows: the match state, the answer
    cache, the pause flags, the match and player tables, the broadcasts and
    the timers are untouched, every row keeps its id, key, choice and
    latency, and for a question that is not a closest question nothing is
    written at all.  In particular the cached answers are never amended. *)
Theorem reveal_payload_writes_flags_only matchId questionId question w :
  let w' := snd (RevealService.generateRevealPayload matchId questionId question w) in
  (redis_state w' = redis_state w ∧ redis_sets w' = redis_sets w ∧
   redis_paused w' = redis_paused w ∧ db_match w' = db_match w ∧
   db_matchPlayer w' = db_matchPlayer w ∧ emitted w' = emitted w ∧
   timers w' = timers w) ∧
  (∀ n a, db_matchAnswer w !! n = Some a →
          db_matchAnswer w' !! n = Some a ∨
          db_matchAnswer w' !! n = Some (RevealService.mark_correct a)) ∧
  length (db_matchAnswer w') = length (db_matchAnswer w) ∧
  (q_type question ≠ closest → w' = w).
Proof.
  cbn zeta.
  destruct (generateRevealPayload_writes matchId questionId question w)
    as [-> | (ids & Hc & ->)].
  - split_and!; try done. intros n a Hn. by left.
  - split_and!; try done.
    + intros n a Hn. cbn. unfold RevealService.updateMany_correct.
      rewrite list_lookup_fmap, Hn. cbn. case_bool_decide; [by right | by left].
    + cbn. unfold RevealService.updateMany_correct. by rewrite length_map.
Qed.

Section FrameFacts.
Import StateMachine Frame.

Lemma match_kept_refl m w : match_kept m w w.
Proof. done. Qed.

Lemma match_kept_trans m w1 w2 w3 :
  match_kept m w1 w2 → match_kept m w2 w3 → match_kept m w1 w3.
Proof. intros [H1 H2] [H3 H4]. split; congruence. Qed.

Lemma keeps_bind {A B} m (c : M Machine A) (k : A → M Machine B) :
  keeps_match m c → (∀ a, keeps_match m (k a)) → keeps_match m (bind c k).
Proof.
  intros Hc Hk mach. unfold bind. specialize (Hc mach).
  destruct (c mach) as [[a | e] mach1]; [| exact Hc].
  eapply match_kept_trans; [exact Hc | apply Hk].
Qed.

Lemma keeps_ret {A} m (a : A) : keeps_match m (ret a).
Proof. intros mach. apply match_kept_refl. Qed.

Lemma keeps_throw {A} m e : keeps_match m (@throw Machine A e).
Proof. intros mach. apply match_kept_refl. Qed.

Lemma keeps_loadState m m' : keeps_match m (loadState m').
Proof. intros mach. unfold loadState. by case_match. Qed.

Lemma keeps_this_get m : keeps_match m this_get.
Proof. intros mach. unfold this_get. by case_match. Qed.

Lemma keeps_this_set m f : keeps_match m (this_set f).
Proof. intros mach. unfold this_set. by case_match. Qed.

Lemma keeps_saveState m m' : m ≠ m' → keeps_match m (saveState m').
Proof.
  intros Hne mach. unfold saveState. case_match; [| done]. split; [| done]. cbn.
  apply lookup_insert_ne. by intros ?%stateKey_inj.
Qed.

Lemma keeps_liftW {A} m (c : M World A) :
  (∀ w, match_kept m w (snd (c w))) → keeps_match m (liftW c).
Proof.
  intros Hc mach. unfold liftW. specialize (Hc (world mach)).
  by destruct (c (world mach)).
Qed.

Lemma keeps_emit m m' ev : keeps_match m (emit m' ev).
Proof. intros mach. done. Qed.

Lemma keeps_emit_state m m' : keeps_match m (emit_state m').
Proof.
  apply keeps_bind; [apply keeps_this_get | intros; apply keeps_emit].
Qed.

Lemma keeps_emit_question_show m m' : keeps_match m (emit_question_show m').
Proof.
  apply keeps_bind; [apply keeps_this_get | intros; apply keeps_emit].
Qed.

Lemma keeps_findMatch m m' : keeps_match m (findMatch m').
Proof. intros mach. done. Qed.

Lemma keeps_updateMatch m m' f : m ≠ m' → keeps_match m (updateMatch m' f).
Proof.
  intros Hne. apply keeps_bind; [apply keeps_findMatch |]. intros [match_ |].
  - intros mach. split; [done |]. cbn. by apply lookup_alter_ne.
  - apply keeps_throw.
Qed.

Lemma keeps_setTimeout m m' delay now : keeps_match m (setTimeout m' delay now).
Proof. intros mach. done. Qed.

Lemma keeps_question_at m innings i j : keeps_match m (question_at innings i j).
Proof.
  unfold question_at. repeat case_match; first [apply keeps_ret | apply keeps_throw].
Qed.

Lemma keeps_validated m question : keeps_match m (validated question).
Proof.
  unfold validated. case_match; first [apply keeps_ret | apply keeps_throw].
Qed.

Lemma keeps_reveal m m' questionId question :
  keeps_match m (liftW (RevealService.generateRevealPayload m' questionId question)).
Proof.
  apply keeps_liftW. intros w.
  by destruct (generateRevealPayload_writes m' questionId question w)
    as [-> | (ids & _ & ->)].
Qed.

Lemma keeps_lineScore m m' i :
  keeps_match m (liftW (RevealService.updateLineScore m' i)).
Proof. apply keeps_liftW. intros w. by rewrite updateLineScore_reads. Qed.

Lemma keeps_paused m f : keeps_match m (liftW (modify (with_redis_paused f))).
Proof. apply keeps_liftW. intros w. done. Qed.

(** Walks through a computation built from the operations above. *)
Ltac keeps :=
  repeat first
    [ assumption
    | apply keeps_ret | apply keeps_throw | apply keeps_loadState
    | apply keeps_this_get | apply keeps_this_set
    | apply keeps_saveState; assumption
    | apply keeps_updateMatch; assumption
    | apply keeps_emit | apply keeps_emit_state | apply keeps_emit_question_show
    | apply keeps_findMatch | apply keeps_setTimeout | apply keeps_question_at
    | apply keeps_validated | apply keeps_reveal | apply keeps_lineScore
    | apply keeps_paused
    | apply keeps_bind; [| intros ?]
    | case_match ].

Lemma keeps_show_question m m' question i j settings now :
  keeps_match m (show_question m' question i j settings now).
Proof. unfold show_question. keeps. Qed.

Lemma keeps_endMatch m m' now : m ≠ m' → keeps_match m (endMatch m' now).
Proof. intros Hne. unfold endMatch. keeps. Qed.

Lemma keeps_triggerStretch m m' now : m ≠ m' → keeps_match m (triggerStretch m' now).
Proof. intros Hne. unfold triggerStretch. keeps. Qed.

Lemma keeps_nextQuestion m m' now : m ≠ m' → keeps_match m (nextQuestion m' now).
Proof.
  intros Hne. unfold nextQuestion.
  pose proof (keeps_endMatch m m' now Hne). pose proof (keeps_triggerStretch m m' now Hne).
  pose proof (keeps_show_question m m').
  keeps; try done.
Qed.

Lemma keeps_startMatch m m' now : m ≠ m' → keeps_match m (startMatch m' now).
Proof.
  intros Hne. unfold startMatch. pose proof (keeps_show_question m m'). keeps; try done.
Qed.

Lemma keeps_revealAnswer m m' : m ≠ m' → keeps_match m (revealAnswer m').
Proof. intros Hne. unfold revealAnswer. keeps. Qed.

Lemma keeps_pauseMatch m m' now : keeps_match m (pauseMatch m' now).
Proof. unfold pauseMatch. keeps. Qed.

Lemma keeps_resumeMatch m m' now : m ≠ m' → keeps_match m (resumeMatch m' now).
Proof. intros Hne. unfold resumeMatch. keeps. Qed.

Lemma keeps_skipQuestion m m' now : m ≠ m' → keeps_match m (skipQuestion m' now).
Proof.
  intros Hne. unfold skipQuestion. pose proof (keeps_nextQuestion m m' now Hne).
  keeps; try done.
Qed.

Lemma keeps_updateLeaderboard m m' players :
  m ≠ m' → keeps_match m (updateLeaderboard m' players).
Proof. intros Hne. unfold updateLeaderboard. keeps. Qed.

Lemma keeps_run {A} m (c : M Machine A) w :
  keeps_match m c → match_kept m w (snd (run c w)).
Proof.
  intros Hc. unfold run. specialize (Hc {| this_state := None; world := w |}).
  by destruct (c _).
Qed.

End FrameFacts.

Section FrameCommands.
Import StateMachine Frame.

Lemma keeps_host_action m m' action now w :
  m ≠ m' → match_kept m w (snd (HostHandler.hostAction m' action now w)).
Proof.
  intros Hne. unfold HostHandler.hostAction. apply keeps_run.
  destruct action;
    [apply keeps_pauseMatch | by apply keeps_resumeMatch | by apply keeps_skipQuestion
    | by apply keeps_revealAnswer | by apply keeps_triggerStretch
    | by apply keeps_startMatch].
Qed.

Lemma keeps_fireTimer m n now w t :
  timers w !! n = Some t → m ≠ t_matchId t → match_kept m w (fireTimer n now w).
Proof.
  intros Ht Hne. unfold fireTimer. rewrite Ht. unfold stretchTimeout.
  pose proof (keeps_nextQuestion m (t_matchId t) now Hne) as Hnext.
  assert (keeps_match m
            (this_set (set_inning 7) ;; this_set (set_questionIdx 0) ;;
             nextQuestion (t_matchId t) now)) as Hcb.
  { repeat (apply keeps_bind; [apply keeps_this_set | intros ?]). exact Hnext. }
  exact (Hcb {| this_state := t_this t; world := with_timers (delete n) w |}).
Qed.

(** What [answer:submit] does to the stored states and the match table:
    nothing, or a new leaderboard in the state of its own match. *)
Lemma answerSubmit_state user payload w :
  db_match (snd (PlayerHandler.answerSubmit user payload w)) = db_match w ∧
  (redis_state (snd (PlayerHandler.answerSubmit user payload w)) = redis_state w ∨
   ∃ s board,
     redis_state w !! stateKey (PlayerHandler.ap_matchId payload) = Some s ∧
     redis_state (snd (PlayerHandler.answerSubmit user payload w))
     = <[stateKey (PlayerHandler.ap_matchId payload) := set_leaderboard board s]>
         (redis_state w)).
Proof.
  remember (PlayerHandler.answerSubmit user payload w) as out eqn:Hout.
  unfold PlayerHandler.answerSubmit in Hout.
  destruct user as [playerId |]; [| by subst out; split; [| left]].
  destruct (String.eqb playerId ""); [by subst out; split; [| left] |].
  unfold bind at 1 in Hout. cbn [gets] in Hout.
  destruct (AnswerService.find_player _ _) as [player |];
    [| by subst out; split; [| left]].
  destruct (negb _); [by subst out; split; [| left] |].
  unfold bind at 1 in Hout. cbn [gets] in Hout.
  destruct (db_match w !! _) as [match_ |]; [| by subst out; split; [| left]].
  destruct (AnswerService.parse_questionId _) as [i q] eqn:Hparse.
  destruct (PlayerHandler.pack_question _ _ _) as [question |];
    [| by subst out; split; [| left]].
  unfold bind at 1 in Hout.
  destruct (AnswerService.submitAnswer _ _ _ w) as [[res | e] w1] eqn:Hsub.
  - apply submitAnswer_ok in Hsub as (i' & q' & _ & _ & _ & ->).
    unfold bind at 1 in Hout. cbn [get] in Hout. unfold bind at 1 in Hout.
    match type of Hout with
    | context [StateMachine.run ?c ?w0] =>
        assert (∃ r, StateMachine.run c w0 = (r, w0) ∨
                   ∃ s board, redis_state w0 !! stateKey (PlayerHandler.ap_matchId payload)
                              = Some s ∧
                     StateMachine.run c w0
                     = (r, with_emitted
                             (λ l, l ++ [(PlayerHandler.ap_matchId payload,
                                          ScoreUpdate board (ms_lineScore s))])
                             (with_redis_state
                                (insert (stateKey (PlayerHandler.ap_matchId payload))
                                   (set_leaderboard board s)) w0))) as (r & Hrun)
    end.
    { unfold StateMachine.run, updateLeaderboard, bind, loadState, this_set, saveState,
        this_get, emit, liftW, modify. cbn.
      destruct (redis_state w !! stateKey (PlayerHandler.ap_matchId payload))
        as [s |] eqn:Hs; cbn; rewrite ?Hs; cbn; [| eexists; by left].
      eexists. right. do 2 eexists. split; [reflexivity |]. reflexivity. }
    destruct Hrun as [Hrun | (s & board & Hs & Hrun)]; rewrite Hrun in Hout.
    + destruct r; subst out; by split; [| left].
    + destruct r; subst out;
        (split; [done | right; exists s, board; split; [exact Hs | done]]).
  - rewrite submitAnswer_unfold in Hsub.
    destruct (AnswerService.parse_questionId _) as [[a |] [b |]]; cbn zeta in Hsub;
      try (injection Hsub as _ <-; subst out; by split; [| left]).
    destruct (existsb _ _);
      [injection Hsub as _ <-; subst out; by split; [| left] | discriminate].
Qed.

Lemma keeps_answerSubmit m user payload w :
  m ≠ PlayerHandler.ap_matchId payload →
  match_kept m w (snd (PlayerHandler.answerSubmit user payload w)).
Proof.
  intros Hne. destruct (answerSubmit_state user payload w)
    as [Hm [Hs | (s & board & _ & Hs)]]; split; rewrite ?Hm, ?Hs; try done.
  apply lookup_insert_ne. by intros ?%stateKey_inj.
Qed.

End FrameCommands.

(** Matches are isolated from each other's commands: a host command, a
    stretch timer or an answer submission for one match changes neither the
    stored state nor the match row of any other match. *)
Theorem commands_stay_within_their_match (m m' : string) (w : World) :
  m ≠ m' →
  (∀ action now,
     Frame.match_kept m w (snd (HostHandler.hostAction m' action now w))) ∧
  (∀ n now t, timers w !! n = Some t → t_matchId t = m' →
     Frame.match_kept m w (fireTimer n now w)) ∧
  (∀ user payload, PlayerHandler.ap_matchId payload = m' →
     Frame.match_kept m w (snd (PlayerHandler.answerSubmit user payload w))).
Proof.
  intros Hne. split_and!.
  - intros action now. by apply keeps_host_action.
  - intros n now t Ht <-. by eapply keeps_fireTimer.
  - intros user payload <-. by apply keeps_answerSubmit.
Qed.

Lemma commands_stay_within_their_match_witness :
  Frame.match_kept "m1"
    (Fixture.fresh (Fixture.settings true false) Fixture.two_innings)
    (snd (HostHandler.hostAction "m2" HostHandler.ActStretch 1000
            (Fixture.fresh (Fixture.settings true false) Fixture.two_innings))).
Proof.
  exact (proj1 (commands_stay_within_their_match "m1" "m2"
                  (Fixture.fresh (Fixture.settings true false) Fixture.two_innings)
                  ltac:(discriminate)) HostHandler.ActStretch 1000).
Defined.

Section StretchFacts.
Import StateMachine HostHandler Stretch Frame.





End StretchFacts.



Section ShowingFacts.
Import StateMachine HostHandler Showing Frame.

Lemma shows_kept m w w' :
  match_kept m w w' → shows_pack_question m w → shows_pack_question m w'.
Proof.
  intros [Hs Hm] Hinv s. rewrite Hs, Hm. apply Hinv.
Qed.

(** The finishing move after the case analysis of a command. *)
Ltac shows_done Hinv :=
  let s' := fresh "s'" in
  let Hs' := fresh "Hs'" in
  let Hp' := fresh "Hp'" in
  intros s' Hs' Hp'; cbn -[Js.index] in Hs';
  first
    [ rewrite lookup_insert_eq in Hs'; injection Hs' as <-; cbn -[Js.index] in Hp';
      first
        [ discriminate Hp'
        | eexists _, _, _; cbn -[Js.index];
          rewrite ?lookup_alter_eq; cbn -[Js.index];
          repeat match goal with
                 | H : db_match _ !! _ = Some _ |- _ => rewrite H
                 end;
          cbn -[Js.index];
          split_and!; first [reflexivity | eassumption | by eexists]
        | match goal with
          | Hs0 : redis_state _ !! _ = Some ?s0 |- _ =>
              destruct (Hinv s0 Hs0 Hp')
                as (?match_ & ?inn & ?question & ? & ? & ? & ? & ? & ?)
          end;
          eexists _, _, _; cbn -[Js.index];
          split_and!; first [eassumption | by eexists] ]
    | destruct (Hinv s' Hs' Hp') as (?match_ & ?inn & ?question & ? & ? & ? & ? & ? & ?);
      eexists _, _, _; cbn -[Js.index];
      rewrite ?lookup_alter_eq; cbn -[Js.index];
      repeat match goal with
             | H : db_match _ !! _ = Some _ |- _ => rewrite H
             end;
      cbn -[Js.index];
      split_and!; first [reflexivity | eassumption] ].

Lemma shows_start m now w :
  shows_pack_question m w → shows_pack_question m (snd (hostAction m ActStart now w)).
Proof.
  intros Hinv. run_machine. cbn -[Js.index].
  destruct (redis_state w !! stateKey m) as [s |] eqn:Hs; cbn -[Js.index]; [| done].
  repeat (case_match; simplify_eq/=; rewrite ?Hs; cbn -[Js.index]).
  all: try shows_done Hinv.
  all: try done.
Qed.

Lemma shows_next m now w :
  shows_pack_question m w → shows_pack_question m (snd (run (nextQuestion m now) w)).
Proof.
  intros Hinv. run_machine. cbn -[Js.index].
  destruct (redis_state w !! stateKey m) as [s |] eqn:Hs; cbn -[Js.index]; [| done].
  repeat (case_match; simplify_eq/=; rewrite ?Hs; cbn -[Js.index]).
  all: try shows_done Hinv.
  all: try done.
Qed.

Lemma shows_skip m now w :
  shows_pack_question m w → shows_pack_question m (snd (hostAction m ActSkip now w)).
Proof.
  intros Hinv. unfold hostAction, run, skipQuestion. unfold bind at 1.
  unfold loadState at 1. cbn [world this_state].
  destruct (redis_state w !! stateKey m) as [s |] eqn:Hs; [| done].
  destruct (_ || _); [| done].
  pose proof (nextQuestion_reloads m now (Some s) w) as Hre.
  pose proof (shows_next m now w Hinv) as Hnext. unfold run in Hnext.
  destruct (nextQuestion m now {| this_state := None; world := w |}) as [r1 m1].
  destruct (nextQuestion m now {| this_state := Some s; world := w |}) as [r2 m2].
  cbn [snd] in *. by rewrite Hre.
Qed.

Lemma shows_pause_resume_stretch m action now w :
  action = ActPause ∨ action = ActResume ∨ action = ActStretch →
  shows_pack_question m w → shows_pack_question m (snd (hostAction m action now w)).
Proof.
  intros Hact Hinv. destruct Hact as [-> | [-> | ->]].
  all: run_machine; cbn -[Js.index].
  all: destruct (redis_state w !! stateKey m) as [s |] eqn:Hs; cbn -[Js.index]; [| done].
  all: repeat (case_match; simplify_eq/=; rewrite ?Hs; cbn -[Js.index]).
  all: try shows_done Hinv.
  all: try done.
Qed.

Lemma shows_reveal m now w :
  shows_pack_question m w → shows_pack_question m (snd (hostAction m ActReveal now w)).
Proof.
  intros Hinv. run_machine.
  cbn -[Js.index RevealService.generateRevealPayload RevealService.updateLineScore].
  destruct (redis_state w !! stateKey m) as [s |] eqn:Hs;
    cbn -[Js.index RevealService.generateRevealPayload RevealService.updateLineScore];
    [| done].
  repeat (case_match; simplify_eq/=; rewrite ?Hs;
          cbn -[Js.index RevealService.generateRevealPayload
                RevealService.updateLineScore]).
  all: repeat match goal with
         | H : RevealService.updateLineScore ?a ?b ?w0 = (_, ?w1) |- _ =>
             let E := fresh in
             pose proof (updateLineScore_reads a b w0) as E; rewrite H in E;
             cbn [snd] in E; subst w1; clear H
         end.
  all: repeat match goal with
         | H : RevealService.generateRevealPayload ?a ?b ?c ?w0 = (_, ?w1) |- _ =>
             let E := fresh in
             destruct (generateRevealPayload_writes a b c w0) as [E | (? & _ & E)];
             rewrite H in E; cbn [snd] in E; subst w1; clear H
         end.
  all: try shows_done Hinv.
  all: try done.
Qed.

Lemma shows_action m action now w :
  shows_pack_question m w → shows_pack_question m (snd (hostAction m action now w)).
Proof.
  intros Hinv. destruct action.
  - apply shows_pause_resume_stretch; auto.
  - apply shows_pause_resume_stretch; auto.
  - by apply shows_skip.
  - by apply shows_reveal.
  - apply shows_pause_resume_stretch; auto.
  - by apply shows_start.
Qed.

Lemma shows_timer m n now w :
  shows_pack_question m w → shows_pack_question m (fireTimer n now w).
Proof.
  intros Hinv. destruct (timers w !! n) as [t |] eqn:Ht;
    [| unfold fireTimer; by rewrite Ht].
  assert (shows_pack_question m (with_timers (delete n) w)) as Hinv' by exact Hinv.
  destruct (t_this t) as [s0 |] eqn:Hthis.
  - rewrite (timer_restarts n now w t Ht) by (by rewrite Hthis).
    destruct (decide (m = t_matchId t)) as [-> | Hne].
    + by apply shows_next.
    + eapply shows_kept; [| exact Hinv']. apply keeps_run. by apply keeps_nextQuestion.
  - unfold fireTimer. rewrite Ht. unfold stretchTimeout.
    unfold bind at 1. unfold this_set at 1. cbn [this_state]. by rewrite Hthis.
Qed.

Lemma shows_submit m user payload w :
  shows_pack_question m w →
  shows_pack_question m (snd (PlayerHandler.answerSubmit user payload w)).
Proof.
  intros Hinv.
  destruct (answerSubmit_state user payload w) as [Hdb [Hst | (s1 & board & Hs1 & Hst)]].
  - intros s. rewrite Hdb, Hst. apply Hinv.
  - destruct (decide (m = PlayerHandler.ap_matchId payload)) as [-> | Hne].
    + intros s. rewrite Hdb, Hst, lookup_insert_eq. intros [= <-] Hp.
      exact (Hinv s1 Hs1 Hp).
    + intros s. rewrite Hdb, Hst, lookup_insert_ne by (by intros ?%stateKey_inj).
      apply Hinv.
Qed.

End ShowingFacts.

(** What the players are shown is what the pack holds.  Whenever the
    stored phase is the question phase, the stored question is the pack's
    question at the stored inning and question index, accepted by
    [validateQuestion] and formatted for this position, with a deadline
    set; every host command (of this or any other match), every stretch
    timer and every answer submission keeps it so, also when the command
    fails half way. *)
Theorem shown_question_is_the_packs (m : string) (w : World) :
  Showing.shows_pack_question m w →
  (∀ m' action now,
     Showing.shows_pack_question m (snd (HostHandler.hostAction m' action now w))) ∧
  (∀ n now, Showing.shows_pack_question m (fireTimer n now w)) ∧
  (∀ user payload,
     Showing.shows_pack_question m (snd (PlayerHandler.answerSubmit user payload w))).
Proof.
  intros Hinv. split_and!.
  - intros m' action now. destruct (decide (m = m')) as [<- | Hne].
    + by apply shows_action.
    + eapply shows_kept; [| exact Hinv]. by apply keeps_host_action.
  - intros n now. by apply shows_timer.
  - intros user payload. by apply shows_submit.
Qed.

Lemma shown_question_is_the_packs_witness :
  Showing.shows_pack_question "m1"
    (snd (HostHandler.hostAction "m1" HostHandler.ActSkip 2000
            (Fixture.start (Fixture.fresh (Fixture.settings true false)
                              Fixture.two_innings)))).
Proof.
  assert (Showing.shows_pack_question "m1"
            (Fixture.start (Fixture.fresh (Fixture.settings true false)
                              Fixture.two_innings))) as Hinv.
  { intros s Hs _. vm_compute in Hs. injection Hs as <-.
    eexists _, _, _.
    split; [vm_compute; reflexivity |].
    split; [vm_compute; reflexivity |].
    split; [vm_compute; reflexivity |].
    split; [vm_compute; reflexivity |].
    split; [vm_compute; reflexivity | by eexists]. }
  exact (proj1 (shown_question_is_the_packs "m1" _ Hinv) "m1"%string
           HostHandler.ActSkip 2000).
Defined.

(** The id sent with the question being shown leads back to it: it parses
    to the stored inning and question index, and the lookup of the
    [answer:submit] handler with these indices finds the very pack question
    whose formatted form is on display. *)
Theorem shown_question_id_resolves (m : string) (w : World) (s : MatchState) :
  Showing.shows_pack_question m w →
  redis_state w !! StateMachine.stateKey m = Some s →
  ms_phase s = QUESTION →
  ∃ shown match_ question,
    ms_question s = Some shown ∧
    db_match w !! m = Some match_ ∧
    AnswerService.parse_questionId (qp_id shown)
      = (Some (ms_inning s), Some (ms_questionIdx s)) ∧
    PlayerHandler.pack_question (m_innings match_)
      (fst (AnswerService.parse_questionId (qp_id shown)))
      (snd (AnswerService.parse_questionId (qp_id shown))) = Some question ∧
    QuestionService.validateQuestion question = QuestionService.Valid ∧
    qp_text shown = q_text question ∧ qp_type shown = q_type question.
Proof.
  intros Hinv Hs Hp.
  destruct (Hinv s Hs Hp) as (match_ & inn & question & Hm & Hinn & Hq & Hv & Hshown & _).
  assert (0 ≤ ms_inning s) as Hi.
  { unfold Js.index in Hinn. destruct (Z.ltb_spec (ms_inning s) 0); [done | lia]. }
  assert (0 ≤ ms_questionIdx s) as Hj.
  { unfold Js.index in Hq. destruct (Z.ltb_spec (ms_questionIdx s) 0); [done | lia]. }
  eexists _, match_, question. split; [exact Hshown |]. split; [exact Hm |].
  cbn [qp_id QuestionService.formatQuestion QuestionService.fo_matchId
       QuestionService.fo_inning QuestionService.fo_questionIdx].
  rewrite parse_question_id by done. cbn [fst snd].
  split; [done |]. split; [| done].
  unfold PlayerHandler.pack_question. by rewrite Hinn.
Qed.

Lemma shown_question_id_resolves_witness :
  ∃ s shown,
    redis_state (Fixture.start (Fixture.fresh (Fixture.settings true false)
                                  Fixture.two_innings))
      !! StateMachine.stateKey "m1" = Some s ∧
    ms_question s = Some shown ∧
    AnswerService.parse_questionId (qp_id shown)
      = (Some (ms_inning s), Some (ms_questionIdx s)).
Proof.
  set (w := Fixture.start (Fixture.fresh (Fixture.settings true false)
                             Fixture.two_innings)).
  assert (Showing.shows_pack_question "m1" w) as Hinv.
  { intros s Hs _. vm_compute in Hs. injection Hs as <-.
    eexists _, _, _.
    split; [vm_compute; reflexivity |].
    split; [vm_compute; reflexivity |].
    split; [vm_compute; reflexivity |].
    split; [vm_compute; reflexivity |].
    split; [vm_compute; reflexivity | by eexists]. }
  assert (∃ s, redis_state w !! StateMachine.stateKey "m1" = Some s
               ∧ ms_phase s = QUESTION) as (s & Hs & Hp).
  { eexists. split; vm_compute; reflexivity. }
  destruct (shown_question_id_resolves "m1" w s Hinv Hs Hp)
    as (shown & match_ & question & Hshown & _ & Hparse & _).
  exists s, shown. exact (conj Hs (conj Hshown Hparse)).
Defined.

Section RevealFacts.
Import AnswerService RevealService StateMachine HostHandler Showing Ledger.

Lemma array_set_same {A} (hole : A) l i x :
  0 ≤ i → Js.index (Js.array_set hole l i x) i = Some x.
Proof.
  intros Hi. unfold Js.array_set, Js.index.
  destruct (Z.ltb_spec i 0); [lia |].
  destruct (Nat.ltb_spec (Z.to_nat i) (length l)).
  - by apply list_lookup_insert_eq.
  - rewrite lookup_app_r by lia. rewrite lookup_app_r by (rewrite length_replicate; lia).
    rewrite length_replicate.
    by replace (Z.to_nat i - length l - (Z.to_nat i - length l))%nat with 0%nat by lia.
Qed.

Lemma array_set_other {A} (hole : A) l i j x :
  0 ≤ j < Z.of_nat (length l) → j ≠ i →
  Js.index (Js.array_set hole l i x) j = Js.index l j.
Proof.
  intros Hj Hne. unfold Js.array_set, Js.index.
  destruct (Z.ltb_spec j 0); [lia |].
  destruct (Z.ltb_spec i 0); [done |].
  destruct (Nat.ltb_spec (Z.to_nat i) (length l)).
  - apply list_lookup_insert_ne. lia.
  - apply lookup_app_l. lia.
Qed.

Lemma sequence_of_rows players (rows : list MatchAnswer) :
  (∀ a, a ∈ rows → is_Some (find_player players (a_playerId a))) →
  ∃ l, sequence (map (of_row players) rows) = Ok l.
Proof.
  induction rows as [| a rows IH]; intros Hall; [by exists [] |].
  destruct (Hall a) as [p Hp]; [constructor |].
  destruct IH as [l Hl]; [intros b Hb; apply Hall; by constructor |].
  cbn. unfold of_row at 1. rewrite Hp, Hl. by eexists.
Qed.

Lemma getQuestionAnswers_ok matchId i q w :
  players_exist w → ∃ answers, getQuestionAnswers matchId i q w = (Ok answers, w).
Proof.
  intros Hfk. unfold getQuestionAnswers, smembers, bind, gets, ret. cbn.
  case_match; [by eexists |].
  destruct (sequence_of_rows (db_matchPlayer w)
              (filter (λ a, for_question matchId i q a = true) (db_matchAnswer w)))
    as [l ->]; [| by eexists].
  intros a [_ Ha]%list_elem_of_filter. by apply Hfk.
Qed.

Lemma players_exist_updateMany ids w :
  players_exist w → players_exist (with_db_matchAnswer (updateMany_correct ids) w).
Proof.
  intros Hfk a. cbn. unfold updateMany_correct.
  intros (b & -> & Hb)%list_elem_of_fmap.
  specialize (Hfk b Hb). by case_bool_decide.
Qed.

Lemma handleClosestQuestion_ok matchId i q question cv w :
  q_body question = ClosestBody cv →
  ∃ w1, handleClosestQuestion matchId i q question w = (Ok tt, w1).
Proof.
  intros Hb. unfold handleClosestQuestion. rewrite Hb.
  unfold bind, gets, ret, modify. cbn. repeat case_match; by eexists.
Qed.

Lemma generateRevealPayload_unfold matchId questionId question w i q :
  parse_questionId questionId = (Some i, Some q) →
  generateRevealPayload matchId questionId question w =
  match (match q_body question with
         | ClosestBody _ => handleClosestQuestion matchId i q question
         | _ => ret tt
         end) w with
  | (Ok _, w1) =>
      match getQuestionAnswers matchId i q w1 with
      | (Ok answers, w2) =>
          match QuestionService.getCorrectAnswer question with
          | JsUndefined => (Throw TypeError, w2)
          | correctAnswer =>
              (Ok {| rp_questionId := questionId;
                     rp_correctAnswer := correctAnswer;
                     rp_correctIndex :=
                       match q_body question with
                       | McBody _ ci | MediaBody _ ci => Some ci
                       | _ => None
                       end;
                     rp_clipUrl := q_clipUrl question;
                     rp_playerResults :=
                       map (λ answer, {| pr_playerId := qa_playerId answer;
                                         pr_nickname := qa_nickname answer;
                                         pr_isCorrect := qa_isCorrect answer;
                                         pr_runsAwarded := qa_runsAwarded answer |})
                         answers |}, w2)
          end
      | (Throw e, w2) => (Throw e, w2)
      end
  | (Throw e, w1) => (Throw e, w1)
  end.
Proof.
  intros Hparse. unfold generateRevealPayload. rewrite Hparse.
  unfold bind, ret, throw. cbn [int_arg]. unfold ret.
  destruct (q_body question);
    repeat match goal with
           | |- context [handleClosestQuestion ?a ?b ?c ?d ?e] =>
               destruct (handleClosestQuestion a b c d e) as [[[] | ?] ?]
           end; try done.
  all: destruct (getQuestionAnswers matchId i q _) as [[answers | e] w2]; [| done].
  all: by destruct (QuestionService.getCorrectAnswer question).
Qed.

Lemma generateRevealPayload_ok matchId questionId question w i q :
  parse_questionId questionId = (Some i, Some q) →
  QuestionService.getCorrectAnswer question ≠ JsUndefined →
  players_exist w →
  ∃ payload w1,
    generateRevealPayload matchId questionId question w = (Ok payload, w1) ∧
    rp_questionId payload = questionId ∧
    rp_correctAnswer payload = QuestionService.getCorrectAnswer question ∧
    players_exist w1.
Proof.
  intros Hparse Hanswer Hfk.
  rewrite (generateRevealPayload_unfold _ _ _ _ i q Hparse).
  assert (∃ w1, (match q_body question with
                 | ClosestBody _ => handleClosestQuestion matchId i q question
                 | _ => ret tt
                 end) w = (Ok tt, w1) ∧ players_exist w1) as (w1 & -> & Hfk1).
  { destruct (q_body question) eqn:Hb; try by eexists.
    destruct (handleClosestQuestion_ok matchId i q question _ w Hb) as [w1 Hw1].
    exists w1. split; [done |].
    destruct (handleClosestQuestion_writes matchId i q question w)
      as [Hw | (ids & _ & Hw)]; rewrite Hw1 in Hw; cbn [snd] in Hw; subst w1;
      [done | by apply players_exist_updateMany]. }
  destruct (getQuestionAnswers_ok matchId i q w1 Hfk1) as [answers ->].
  destruct (QuestionService.getCorrectAnswer question) eqn:Hca; try done;
    eexists _, _; (split; [reflexivity | done]).
Qed.

End RevealFacts.

Section RevealRun.
Import AnswerService RevealService StateMachine HostHandler Showing Ledger.

Lemma valid_has_answer q :
  QuestionService.validateQuestion q = QuestionService.Valid →
  QuestionService.getCorrectAnswer q ≠ JsUndefined.
Proof.
  intros Hv. pose proof (validateQuestion_choices q) as Hcs.
  unfold QuestionService.getCorrectAnswer.
  destruct (q_body q) as [cs ci | b | v | cs ci] eqn:Hb; try done.
  - destruct (Hcs cs ci Hv (or_introl eq_refl)) as [_ Hci].
    by destruct (index_in_bounds cs ci Hci) as [c ->].
  - destruct (Hcs cs ci Hv (or_intror eq_refl)) as [_ Hci].
    by destruct (index_in_bounds cs ci Hci) as [c ->].
Qed.

Lemma revealAnswer_run m now w s :
  shows_pack_question m w → players_exist w →
  redis_state w !! stateKey m = Some s → ms_phase s = QUESTION →
  ∃ shown payload w1 total,
    ms_question s = Some shown ∧
    rp_questionId payload = qp_id shown ∧
    RevealService.updateLineScore m (ms_inning s) w1 = (Ok total, w1) ∧
    redis_state w1 = redis_state w ∧ players_exist w1 ∧ 0 ≤ ms_inning s ∧
    let s' := set_endsAt None
                (set_phase REVEAL
                   (set_lineScore
                      (Js.array_set None (ms_lineScore s) (ms_inning s) (Some total)) s)) in
    hostAction m ActReveal now w
    = (Ok tt,
       with_emitted (λ l, l ++ [(m, QuestionReveal payload)])
         (with_emitted (λ l, l ++ [(m, StateUpdate s')])
            (with_redis_state (insert (stateKey m) s') w1))).
Proof.
  intros Hinv Hfk Hs Hp.
  destruct (Hinv s Hs Hp) as (match_ & inn & question & Hm & Hinn & Hq & Hv & Hshown & _).
  assert (0 ≤ ms_inning s) as Hi.
  { unfold Js.index in Hinn. destruct (Z.ltb_spec (ms_inning s) 0); [done | lia]. }
  assert (0 ≤ ms_questionIdx s) as Hj.
  { unfold Js.index in Hq. destruct (Z.ltb_spec (ms_questionIdx s) 0); [done | lia]. }
  destruct (generateRevealPayload_ok m
              (QuestionService.question_id m (ms_inning s) (ms_questionIdx s))
              question w (ms_inning s) (ms_questionIdx s))
    as (payload & w1 & Hpayload & Hid & _ & Hfk1);
    [by apply parse_question_id | by apply valid_has_answer | done |].
  pose proof (reveal_keeps_redis_state m
                (QuestionService.question_id m (ms_inning s) (ms_questionIdx s))
                question w) as Hkeep.
  rewrite Hpayload in Hkeep. cbn [snd] in Hkeep.
  pose proof (calculateInningRuns_sum m (ms_inning s) w1) as Hruns.
  eexists _, payload, w1, _. split; [exact Hshown |]. split; [exact Hid |].
  split; [exact Hruns |]. split; [exact Hkeep |]. split; [exact Hfk1 |].
  split; [exact Hi |]. cbn zeta.
  run_machine.
  cbn -[Js.index RevealService.generateRevealPayload RevealService.updateLineScore].
  rewrite Hs.
  cbn -[Js.index RevealService.generateRevealPayload RevealService.updateLineScore].
  rewrite Hp, Hshown, (bool_decide_eq_true_2 (QUESTION = QUESTION)) by done.
  cbn -[Js.index RevealService.generateRevealPayload RevealService.updateLineScore].
  rewrite Hm.
  cbn -[Js.index RevealService.generateRevealPayload RevealService.updateLineScore].
  rewrite Hinn, Hq.
  cbn -[Js.index RevealService.generateRevealPayload RevealService.updateLineScore].
  rewrite Hpayload.
  cbn -[Js.index RevealService.generateRevealPayload RevealService.updateLineScore].
  unfold RevealService.updateLineScore. rewrite Hruns.
  reflexivity.
Qed.

End RevealRun.

(** A reveal during the question phase goes through and scores the inning:
    when the shown question is the pack's and every answer has its player
    row, the command succeeds; the stored state keeps its position and its
    question, enters the reveal phase and drops the deadline; the line
    score of the current inning becomes the sum, over the answers recorded
    for that inning after the closest-question amendment, of
    [correct ? (bonus ? 4 : 1) : 0], the other innings keep their entries;
    and the last broadcast is the reveal of the question shown. *)
Theorem reveal_scores_the_inning (m : string) (now : Z) (w : World) (s : MatchState) :
  Showing.shows_pack_question m w →
  Ledger.players_exist w →
  redis_state w !! StateMachine.stateKey m = Some s →
  ms_phase s = QUESTION →
  ∃ w' s' shown payload,
    HostHandler.hostAction m HostHandler.ActReveal now w = (Ok tt, w') ∧
    redis_state w' !! StateMachine.stateKey m = Some s' ∧
    (ms_phase s', ms_inning s', ms_questionIdx s')
      = (REVEAL, ms_inning s, ms_questionIdx s) ∧
    ms_endsAt s' = None ∧
    ms_question s' = Some shown ∧ ms_question s = Some shown ∧
    Js.index (ms_lineScore s') (ms_inning s)
      = Some (Some (Rules.Zsum (map Rules.runs_of_answer
                                  (Ledger.inning_answers w' m (ms_inning s))))) ∧
    (∀ j, 0 ≤ j < Z.of_nat (length (ms_lineScore s)) → j ≠ ms_inning s →
          Js.index (ms_lineScore s') j = Js.index (ms_lineScore s) j) ∧
    last (emitted w') = Some (m, QuestionReveal payload) ∧
    rp_questionId payload = qp_id shown.
Proof.
  intros Hinv Hfk Hs Hp.
  destruct (revealAnswer_run m now w s Hinv Hfk Hs Hp)
    as (shown & payload & w1 & total & Hshown & Hid & Hruns & _ & _ & Hi & Hrun).
  cbn zeta in Hrun. rewrite Hrun.
  eexists _, _, shown, payload. split; [reflexivity |].
  cbn -[Js.index Js.array_set]. rewrite lookup_insert_eq.
  split; [reflexivity |]. cbn -[Js.index Js.array_set].
  split_and!; try done.
  - rewrite array_set_same by done. do 2 f_equal.
    unfold RevealService.updateLineScore in Hruns.
    rewrite calculateInningRuns_sum in Hruns. by injection Hruns as <-.
  - intros j Hj Hne. by apply array_set_other.
  - by rewrite last_snoc.
Qed.

Lemma reveal_scores_the_inning_witness :
  ∃ w' s',
    HostHandler.hostAction "m1" HostHandler.ActReveal 5000
      (Fixture.submit "p1" "m1-0-0" "Carter" 2000
         (Fixture.start (Fixture.fresh (Fixture.settings true false)
                           Fixture.two_innings))) = (Ok tt, w') ∧
    redis_state w' !! StateMachine.stateKey "m1" = Some s' ∧
    ms_phase s' = REVEAL.
Proof.
  set (w := Fixture.submit "p1" "m1-0-0" "Carter" 2000
              (Fixture.start (Fixture.fresh (Fixture.settings true false)
                                Fixture.two_innings))).
  assert (Showing.shows_pack_question "m1" w) as Hinv.
  { intros s Hs _. vm_compute in Hs. injection Hs as <-.
    eexists _, _, _.
    split; [vm_compute; reflexivity |].
    split; [vm_compute; reflexivity |].
    split; [vm_compute; reflexivity |].
    split; [vm_compute; reflexivity |].
    split; [vm_compute; reflexivity | by eexists]. }
  assert (Ledger.players_exist w) as Hfk.
  { intros a Ha. vm_compute in Ha.
    apply list_elem_of_singleton in Ha as ->. by eexists. }
  assert (∃ s, redis_state w !! StateMachine.stateKey "m1" = Some s
               ∧ ms_phase s = QUESTION) as (s & Hs & Hp).
  { eexists. split; vm_compute; reflexivity. }
  destruct (reveal_scores_the_inning "m1" 5000 w s Hinv Hfk Hs Hp)
    as (w' & s' & shown & payload & Hrun & Hs' & Hpos & _).
  exists w', s'. split; [exact Hrun |]. split; [exact Hs' |].
  by injection Hpos as -> _ _.
Defined.

Section SkipFacts.
Import StateMachine HostHandler Views.

Lemma skip_allowed s :
  ms_phase s = QUESTION ∨ ms_phase s = REVEAL →
  bool_decide (ms_phase s = QUESTION) || bool_decide (ms_phase s = REVEAL) = true.
Proof. by intros [-> | ->]. Qed.

(** Skip inside an inning. *)
Lemma skip_same_inning m now w s match_ inn question :
  redis_state w !! stateKey m = Some s →
  ms_phase s = QUESTION ∨ ms_phase s = REVEAL →
  db_match w !! m = Some match_ →
  Js.index (m_innings match_) (ms_inning s) = Some inn →
  ms_questionIdx s + 1 < Z.of_nat (length (i_questions inn)) →
  Js.index (i_questions inn) (ms_questionIdx s + 1) = Some question →
  QuestionService.validateQuestion question = QuestionService.Valid →
  ∃ w' s',
    hostAction m ActSkip now w = (Ok tt, w') ∧
    redis_state w' !! stateKey m = Some s' ∧
    (ms_phase s', ms_inning s', ms_questionIdx s')
      = (QUESTION, ms_inning s, ms_questionIdx s + 1) ∧
    ms_endsAt s' = Some (now + timerSec (m_settings match_) * 1000) ∧
    db_match w' = db_match w ∧ timers w' = timers w.
Proof.
  intros Hs Hphase Hm Hinn Hlt Hq Hv.
  run_machine. cbn -[Js.index]. rewrite Hs. cbn -[Js.index].
  rewrite (skip_allowed s Hphase). cbn -[Js.index]. rewrite Hs. cbn -[Js.index].
  rewrite Hm. cbn -[Js.index]. rewrite Hinn.
  destruct (Z.leb_spec (Z.of_nat (length (i_questions inn))) (ms_questionIdx s + 1));
    [lia |].
  cbn -[Js.index]. rewrite Hinn, Hq. cbn -[Js.index]. rewrite Hv. cbn -[Js.index].
  eexists _, _. split; [reflexivity |]. cbn -[Js.index].
  rewrite lookup_insert_eq. done.
Qed.

(** Skip at the end of an inning that is neither the last nor the one
    before the stretch. *)
Lemma skip_next_inning m now w s match_ inn inn' question :
  redis_state w !! stateKey m = Some s →
  ms_phase s = QUESTION ∨ ms_phase s = REVEAL →
  db_match w !! m = Some match_ →
  Js.index (m_innings match_) (ms_inning s) = Some inn →
  Z.of_nat (length (i_questions inn)) ≤ ms_questionIdx s + 1 →
  ms_inning s + 1 < Z.of_nat (length (m_innings match_)) →
  ms_inning s ≠ 6 →
  Js.index (m_innings match_) (ms_inning s + 1) = Some inn' →
  Js.index (i_questions inn') 0 = Some question →
  QuestionService.validateQuestion question = QuestionService.Valid →
  ∃ w' s',
    hostAction m ActSkip now w = (Ok tt, w') ∧
    redis_state w' !! stateKey m = Some s' ∧
    (ms_phase s', ms_inning s', ms_questionIdx s') = (QUESTION, ms_inning s + 1, 0) ∧
    ms_endsAt s' = Some (now + timerSec (m_settings match_) * 1000) ∧
    db_match w' = db_match w ∧ timers w' = timers w.
Proof.
  intros Hs Hphase Hm Hinn Hle Hmore H6 Hinn' Hq Hv.
  run_machine. cbn -[Js.index]. rewrite Hs. cbn -[Js.index].
  rewrite (skip_allowed s Hphase). cbn -[Js.index]. rewrite Hs. cbn -[Js.index].
  rewrite Hm. cbn -[Js.index]. rewrite Hinn.
  rewrite (proj2 (Z.leb_le _ _) Hle).
  destruct (Z.leb_spec (Z.of_nat (length (m_innings match_))) (ms_inning s + 1));
    [lia |].
  rewrite (proj2 (Z.eqb_neq _ _) H6).
  cbn -[Js.index]. rewrite Hinn', Hq. cbn -[Js.index]. rewrite Hv. cbn -[Js.index].
  eexists _, _. split; [reflexivity |]. cbn -[Js.index].
  rewrite lookup_insert_eq. done.
Qed.

(** Skip at the end of inning index 6 of a longer pack. *)
Lemma skip_into_stretch m now w s match_ inn :
  redis_state w !! stateKey m = Some s →
  ms_phase s = QUESTION ∨ ms_phase s = REVEAL →
  db_match w !! m = Some match_ →
  Js.index (m_innings match_) (ms_inning s) = Some inn →
  Z.of_nat (length (i_questions inn)) ≤ ms_questionIdx s + 1 →
  ms_inning s + 1 < Z.of_nat (length (m_innings match_)) →
  ms_inning s = 6 →
  ∃ w' s',
    hostAction m ActSkip now w = (Ok tt, w') ∧
    redis_state w' !! stateKey m = Some s' ∧
    (ms_phase s', ms_inning s', ms_questionIdx s') = (STRETCH, 6, ms_questionIdx s) ∧
    ms_endsAt s' = Some (now + 30000) ∧
    db_match w' = db_match w ∧
    timers w' = timers w ++ [{| t_due := now + 30000; t_matchId := m;
                                t_this := Some s' |}].
Proof.
  intros Hs Hphase Hm Hinn Hle Hmore H6.
  run_machine. cbn -[Js.index]. rewrite Hs. cbn -[Js.index].
  rewrite (skip_allowed s Hphase). cbn -[Js.index]. rewrite Hs. cbn -[Js.index].
  rewrite Hm. cbn -[Js.index]. rewrite Hinn.
  rewrite (proj2 (Z.leb_le _ _) Hle).
  destruct (Z.leb_spec (Z.of_nat (length (m_innings match_))) (ms_inning s + 1));
    [lia |].
  rewrite (proj2 (Z.eqb_eq _ _) H6).
  cbn -[Js.index]. rewrite Hs. cbn -[Js.index].
  eexists _, (set_endsAt (Some (now + 30000)) (set_phase STRETCH s)).
  split; [reflexivity |]. cbn -[Js.index].
  rewrite lookup_insert_eq, H6. done.
Qed.

End SkipFacts.

(** A skip during the question or reveal phase walks the pack in order: to
    the next question of the inning while there is one; at the end of an
    inning to the first question of the next inning, except that the end of
    inning index 6 starts the stretch instead, the position staying where it
    was and one timer being scheduled.  Each question shown gets the full
    timer of the match as its deadline. *)
Theorem skip_advances_in_pack_order m now w s match_ inn :
  redis_state w !! StateMachine.stateKey m = Some s →
  ms_phase s = QUESTION ∨ ms_phase s = REVEAL →
  db_match w !! m = Some match_ →
  Js.index (m_innings match_) (ms_inning s) = Some inn →
  let i := ms_inning s in
  let j := ms_questionIdx s in
  let deadline := Some (now + timerSec (m_settings match_) * 1000) in
  let outcome (phase : MatchPhase) (i' j' : Z) (endsAt : option Z)
              (added : list Timer) : Prop :=
    ∃ w' s',
      HostHandler.hostAction m HostHandler.ActSkip now w = (Ok tt, w') ∧
      redis_state w' !! StateMachine.stateKey m = Some s' ∧
      (ms_phase s', ms_inning s', ms_questionIdx s') = (phase, i', j') ∧
      ms_endsAt s' = endsAt ∧
      db_match w' = db_match w ∧
      map t_due (timers w') = map t_due (timers w) ++ map t_due added in
  (j + 1 < Z.of_nat (length (i_questions inn)) →
   ∀ question,
     Js.index (i_questions inn) (j + 1) = Some question →
     QuestionService.validateQuestion question = QuestionService.Valid →
     outcome QUESTION i (j + 1) deadline []) ∧
  (Z.of_nat (length (i_questions inn)) ≤ j + 1 →
   i + 1 < Z.of_nat (length (m_innings match_)) →
   (i ≠ 6 →
    ∀ inn' question,
      Js.index (m_innings match_) (i + 1) = Some inn' →
      Js.index (i_questions inn') 0 = Some question →
      QuestionService.validateQuestion question = QuestionService.Valid →
      outcome QUESTION (i + 1) 0 deadline []) ∧
   (i = 6 →
    outcome STRETCH 6 j (Some (now + 30000))
      [{| t_due := now + 30000; t_matchId := m; t_this := None |}])).
Proof.
  intros Hs Hphase Hm Hinn. cbn zeta. split.
  - intros Hlt question Hq Hv.
    destruct (skip_same_inning m now w s match_ inn question Hs Hphase Hm Hinn Hlt Hq Hv)
      as (w' & s' & Hrun & Hs' & Hpos & Hends & Hdb & Ht).
    exists w', s'. rewrite Ht, app_nil_r. done.
  - intros Hle Hmore. split.
    + intros H6 inn' question Hinn' Hq Hv.
      destruct (skip_next_inning m now w s match_ inn inn' question
                  Hs Hphase Hm Hinn Hle Hmore H6 Hinn' Hq Hv)
        as (w' & s' & Hrun & Hs' & Hpos & Hends & Hdb & Ht).
      exists w', s'. rewrite Ht, app_nil_r. done.
    + intros H6.
      destruct (skip_into_stretch m now w s match_ inn Hs Hphase Hm Hinn Hle Hmore H6)
        as (w' & s' & Hrun & Hs' & Hpos & Hends & Hdb & Ht).
      exists w', s'. rewrite Ht, map_app. done.
Qed.

Lemma skip_advances_in_pack_order_witness :
  ∃ w' s',
    HostHandler.hostAction "m1" HostHandler.ActSkip 2000
      (Fixture.start (Fixture.fresh (Fixture.settings true false) Fixture.two_innings))
      = (Ok tt, w') ∧
    redis_state w' !! StateMachine.stateKey "m1" = Some s' ∧
    (ms_phase s', ms_inning s', ms_questionIdx s') = (QUESTION, 0, 0 + 1).
Proof.
  set (w := Fixture.start (Fixture.fresh (Fixture.settings true false)
                             Fixture.two_innings)).
  assert (∃ s match_ inn,
            redis_state w !! StateMachine.stateKey "m1" = Some s ∧
            ms_phase s = QUESTION ∧ ms_inning s = 0 ∧ ms_questionIdx s = 0 ∧
            db_match w !! "m1"%string = Some match_ ∧
            Js.index (m_innings match_) (ms_inning s) = Some inn ∧
            ms_questionIdx s + 1 < Z.of_nat (length (i_questions inn)) ∧
            Js.index (i_questions inn) (ms_questionIdx s + 1) = Some Fixture.q_closest)
    as (s & match_ & inn & Hs & Hp & Hi & Hj & Hm & Hinn & Hlt & Hq).
  { eexists _, _, _. split; [vm_compute; reflexivity |].
    split; [vm_compute; reflexivity |]. split; [vm_compute; reflexivity |].
    split; [vm_compute; reflexivity |]. split; [vm_compute; reflexivity |].
    split; [vm_compute; reflexivity |]. split; vm_compute; reflexivity. }
  destruct (proj1 (skip_advances_in_pack_order "m1" 2000 w s match_ inn
                     Hs (or_introl Hp) Hm Hinn) Hlt Fixture.q_closest Hq eq_refl)
    as (w' & s' & Hrun & Hs' & Hpos & _).
  exists w', s'. rewrite Hi, Hj in Hpos. exact (conj Hrun (conj Hs' Hpos)).
Defined.

(** A skip past the last question of the last inning ends the match: the
    stored state enters the postgame phase without question or deadline,
    the match row becomes COMPLETED with the current time as its end, no
    timer is scheduled, and the last broadcast announces the stored
    leaderboard with its first entry as most valuable player (the empty
    string when the leaderboard is empty). *)
Theorem skip_past_the_last_question_ends_the_match m now w s match_ inn :
  redis_state w !! StateMachine.stateKey m = Some s →
  ms_phase s = QUESTION ∨ ms_phase s = REVEAL →
  db_match w !! m = Some match_ →
  Js.index (m_innings match_) (ms_inning s) = Some inn →
  Z.of_nat (length (i_questions inn)) ≤ ms_questionIdx s + 1 →
  Z.of_nat (length (m_innings match_)) ≤ ms_inning s + 1 →
  ∃ w' s' updated,
    HostHandler.hostAction m HostHandler.ActSkip now w = (Ok tt, w') ∧
    redis_state w' !! StateMachine.stateKey m = Some s' ∧
    (ms_phase s', ms_inning s', ms_questionIdx s')
      = (POSTGAME, ms_inning s, ms_questionIdx s) ∧
    ms_question s' = None ∧ ms_endsAt s' = None ∧
    ms_leaderboard s' = ms_leaderboard s ∧
    db_match w' !! m = Some updated ∧
    (m_status updated, m_endedAt updated, m_startedAt updated)
      = (COMPLETED, Some now, m_startedAt match_) ∧
    timers w' = timers w ∧
    last (emitted w')
    = Some (m, MatchEnd (ms_leaderboard s)
                 (default ""%string (ps_playerId <$> head (ms_leaderboard s)))).
Proof.
  intros Hs Hphase Hm Hinn Hle Hlast.
  assert (Hb := skip_allowed s Hphase).
  run_machine. cbn -[Js.index]. rewrite Hs. cbn -[Js.index].
  rewrite Hb. cbn -[Js.index]. rewrite Hs. cbn -[Js.index].
  rewrite Hm. cbn -[Js.index]. rewrite Hinn.
  rewrite (proj2 (Z.leb_le _ _) Hle), (proj2 (Z.leb_le _ _) Hlast).
  cbn -[Js.index]. rewrite Hs. cbn -[Js.index]. rewrite Hm. cbn -[Js.index].
  eexists _, _, _. split; [reflexivity |]. cbn -[Js.index].
  rewrite lookup_insert_eq, lookup_alter_eq, Hm, last_snoc. cbn.
  split_and!; try done. by destruct (ms_leaderboard s).
Qed.

Lemma skip_past_the_last_question_ends_the_match_witness :
  ∃ w' s',
    HostHandler.hostAction "m1" HostHandler.ActSkip 2000 Fixture.single_question
      = (Ok tt, w') ∧
    redis_state w' !! StateMachine.stateKey "m1" = Some s' ∧
    ms_phase s' = POSTGAME.
Proof.
  assert (∃ s match_ inn,
            redis_state Fixture.single_question !! StateMachine.stateKey "m1" = Some s ∧
            ms_phase s = QUESTION ∧
            db_match Fixture.single_question !! "m1"%string = Some match_ ∧
            Js.index (m_innings match_) (ms_inning s) = Some inn ∧
            Z.of_nat (length (i_questions inn)) ≤ ms_questionIdx s + 1 ∧
            Z.of_nat (length (m_innings match_)) ≤ ms_inning s + 1)
    as (s & match_ & inn & Hs & Hp & Hm & Hinn & Hle & Hlast).
  { eexists _, _, _. split; [vm_compute; reflexivity |].
    split; [vm_compute; reflexivity |]. split; [vm_compute; reflexivity |].
    split; [vm_compute; reflexivity |]. split; vm_compute; discriminate. }
  destruct (skip_past_the_last_question_ends_the_match "m1" 2000
              Fixture.single_question s match_ inn Hs (or_introl Hp) Hm Hinn Hle Hlast)
    as (w' & s' & updated & Hrun & Hs' & Hpos & _).
  exists w', s'. split; [exact Hrun |]. split; [exact Hs' |].
  by injection Hpos as -> _ _.
Defined.

Section PauseFacts.
Import AnswerService RevealService StateMachine Pause.

Lemma unpaused_idem w : unpaused (unpaused w) = unpaused w.
Proof. done. Qed.

Lemma unpaused_machine_idem mach :
  unpaused_machine (unpaused_machine mach) = unpaused_machine mach.
Proof. done. Qed.

Lemma blind_ret {A} (a : A) : blind (ret a).
Proof. done. Qed.

Lemma blind_throw {A} e : blind (@throw World A e).
Proof. done. Qed.

Lemma blind_bind {A B} (c : M World A) (k : A → M World B) :
  blind c → (∀ a, blind (k a)) → blind (bind c k).
Proof.
  intros Hc Hk w. unfold bind. destruct (Hc w) as [Hr Hw].
  destruct (c w) as [r1 w1], (c (unpaused w)) as [r2 w2]. cbn [fst snd] in *.
  subst r2. destruct r1 as [a | e]; [| done].
  destruct (Hk a w1) as [H1 H2], (Hk a w2) as [H3 H4].
  rewrite Hw in H1, H2. split; congruence.
Qed.

Lemma blind_gets {A} (f : World → A) :
  (∀ w, f w = f (unpaused w)) → blind (gets f).
Proof. intros Hf w. unfold gets. cbn. by rewrite <- Hf. Qed.

Lemma blind_modify (g : World → World) :
  (∀ w, unpaused (g w) = unpaused (g (unpaused w))) → blind (modify g).
Proof. intros Hg w. unfold modify. cbn. split; [done | apply Hg]. Qed.

Lemma blind_int_arg o : blind (int_arg o).
Proof. by destruct o. Qed.

Lemma blind_matchAnswer_create m p i q choice correct ms bonus :
  blind (matchAnswer_create m p i q choice correct ms bonus).
Proof. intros w. unfold matchAnswer_create. cbn. by case_match. Qed.

Ltac blind_world :=
  repeat first
    [ assumption
    | match goal with H : _ |- _ => solve [apply H] end
    | apply blind_ret | apply blind_throw | apply blind_int_arg
    | apply blind_matchAnswer_create
    | apply blind_gets; done
    | apply blind_modify; done
    | apply blind_bind; [| intros ?]
    | case_match ].

Lemma blind_submitAnswer request question settings :
  blind (submitAnswer request question settings).
Proof.
  unfold submitAnswer, isGrandSlam, sadd.
  destruct (parse_questionId _). blind_world.
Qed.

Lemma blind_getQuestionAnswers m i q : blind (getQuestionAnswers m i q).
Proof.
  unfold getQuestionAnswers, smembers. blind_world. intros w. done.
Qed.

Lemma blind_handleClosestQuestion m i q question :
  blind (handleClosestQuestion m i q question).
Proof. unfold handleClosestQuestion. blind_world. Qed.

Lemma blind_generateRevealPayload m questionId question :
  blind (generateRevealPayload m questionId question).
Proof.
  unfold generateRevealPayload.
  pose proof (blind_handleClosestQuestion m) as H1.
  pose proof (blind_getQuestionAnswers m) as H2.
  destruct (parse_questionId _). blind_world.
Qed.

Lemma blind_calculateInningRuns m i : blind (calculateInningRuns m i).
Proof. unfold calculateInningRuns. blind_world. Qed.

Lemma machine_bind {A B} (c : M Machine A) (k : A → M Machine B) :
  blind_machine c → (∀ a, blind_machine (k a)) → blind_machine (bind c k).
Proof.
  intros Hc Hk mach. unfold bind. destruct (Hc mach) as [Hr Hw].
  destruct (c mach) as [r1 m1], (c (unpaused_machine mach)) as [r2 m2].
  cbn [fst snd] in *. subst r2. destruct r1 as [a | e]; [| done].
  destruct (Hk a m1) as [H1 H2], (Hk a m2) as [H3 H4].
  rewrite Hw in H1, H2. split; congruence.
Qed.

Lemma machine_ret {A} (a : A) : blind_machine (ret a).
Proof. done. Qed.

Lemma machine_throw {A} e : blind_machine (@throw Machine A e).
Proof. done. Qed.

Lemma machine_liftW {A} (c : M World A) : blind c → blind_machine (liftW c).
Proof.
  intros Hc mach. unfold liftW, unpaused_machine. cbn [world this_state].
  destruct (Hc (world mach)) as [Hr Hw].
  destruct (c (world mach)) as [r1 w1], (c (unpaused (world mach))) as [r2 w2].
  cbn [fst snd world this_state] in *. by rewrite Hr, Hw.
Qed.

Lemma machine_loadState m : blind_machine (loadState m).
Proof. intros mach. unfold loadState. cbn. by case_match. Qed.

Lemma machine_saveState m : blind_machine (saveState m).
Proof. intros mach. unfold saveState. cbn. by case_match. Qed.

Lemma machine_this_get : blind_machine this_get.
Proof. intros mach. unfold this_get. cbn. by case_match. Qed.

Lemma machine_this_set f : blind_machine (this_set f).
Proof. intros mach. unfold this_set. cbn. by case_match. Qed.

Lemma machine_emit m ev : blind_machine (emit m ev).
Proof. apply machine_liftW, blind_modify. done. Qed.

Lemma machine_findMatch m : blind_machine (findMatch m).
Proof. intros mach. done. Qed.

Lemma machine_setTimeout m delay now : blind_machine (setTimeout m delay now).
Proof. intros mach. done. Qed.

Lemma machine_paused f : blind_machine (liftW (modify (with_redis_paused f))).
Proof. apply machine_liftW, blind_modify. done. Qed.

Lemma machine_db_match f : blind_machine (liftW (modify (with_db_match f))).
Proof. apply machine_liftW, blind_modify. done. Qed.

Lemma machine_reveal m questionId question :
  blind_machine (liftW (generateRevealPayload m questionId question)).
Proof. apply machine_liftW, blind_generateRevealPayload. Qed.

Lemma machine_lineScore m i : blind_machine (liftW (RevealService.updateLineScore m i)).
Proof. apply machine_liftW, blind_calculateInningRuns. Qed.

Ltac blind_machine :=
  repeat first
    [ assumption
    | match goal with H : _ |- _ => solve [apply H] end
    | apply machine_ret | apply machine_throw | apply machine_loadState
    | apply machine_saveState | apply machine_this_get | apply machine_this_set
    | apply machine_emit | apply machine_findMatch | apply machine_setTimeout
    | apply machine_paused | apply machine_db_match | apply machine_reveal
    | apply machine_lineScore
    | apply machine_bind; [| intros ?]
    | case_match ].

Lemma machine_updateMatch m f : blind_machine (updateMatch m f).
Proof. unfold updateMatch. blind_machine. Qed.

Lemma machine_emit_state m : blind_machine (emit_state m).
Proof. unfold emit_state. blind_machine. Qed.

Lemma machine_emit_question_show m : blind_machine (emit_question_show m).
Proof. unfold emit_question_show. blind_machine. Qed.

Lemma machine_question_at innings i j : blind_machine (question_at innings i j).
Proof. unfold question_at. blind_machine. Qed.

Lemma machine_validated question : blind_machine (validated question).
Proof. unfold validated. blind_machine. Qed.

Lemma machine_show_question m question i j settings now :
  blind_machine (show_question m question i j settings now).
Proof. unfold show_question. blind_machine. Qed.

Lemma machine_endMatch m now : blind_machine (endMatch m now).
Proof.
  pose proof (machine_updateMatch m). pose proof (machine_emit_state m).
  unfold endMatch. blind_machine.
Qed.

Lemma machine_triggerStretch m now : blind_machine (triggerStretch m now).
Proof. pose proof (machine_emit_state m). unfold triggerStretch. blind_machine. Qed.

Lemma machine_nextQuestion m now : blind_machine (nextQuestion m now).
Proof.
  pose proof (machine_endMatch m now). pose proof (machine_triggerStretch m now).
  pose proof (machine_show_question m). pose proof (machine_emit_state m).
  pose proof (machine_emit_question_show m). pose proof machine_question_at.
  pose proof machine_validated.
  unfold nextQuestion. blind_machine.
Qed.

Lemma machine_startMatch m now : blind_machine (startMatch m now).
Proof.
  pose proof (machine_updateMatch m).
  pose proof (machine_show_question m). pose proof (machine_emit_state m).
  pose proof (machine_emit_question_show m). pose proof machine_question_at.
  pose proof machine_validated.
  unfold startMatch. blind_machine.
Qed.

Lemma machine_revealAnswer m : blind_machine (revealAnswer m).
Proof.
  pose proof (machine_emit_state m). pose proof machine_question_at.
  unfold revealAnswer. blind_machine.
Qed.

Lemma machine_pauseMatch m now : blind_machine (pauseMatch m now).
Proof. unfold pauseMatch. blind_machine. Qed.

Lemma machine_resumeMatch m now : blind_machine (resumeMatch m now).
Proof. unfold resumeMatch. blind_machine. Qed.

Lemma machine_skipQuestion m now : blind_machine (skipQuestion m now).
Proof. pose proof (machine_nextQuestion m now). unfold skipQuestion. blind_machine. Qed.

Lemma machine_updateLeaderboard m players : blind_machine (updateLeaderboard m players).
Proof. unfold updateLeaderboard. blind_machine. Qed.

Lemma machine_stretchTimeout m now : blind_machine (stretchTimeout m now).
Proof. pose proof (machine_nextQuestion m now). unfold stretchTimeout. blind_machine. Qed.

Lemma blind_run {A} (c : M Machine A) : blind_machine c → blind (run c).
Proof.
  intros Hc w. unfold run.
  destruct (Hc {| this_state := None; world := w |}) as [Hr Hw].
  unfold unpaused_machine in *. cbn [this_state world] in *.
  destruct (c {| this_state := None; world := w |}) as [r1 m1],
    (c {| this_state := None; world := unpaused w |}) as [r2 m2].
  cbn [fst snd] in *. split; [done |]. by apply (f_equal world) in Hw.
Qed.

Lemma blind_hostAction m action now : blind (HostHandler.hostAction m action now).
Proof.
  unfold HostHandler.hostAction. apply blind_run.
  destruct action;
    [apply machine_pauseMatch | apply machine_resumeMatch | apply machine_skipQuestion
    | apply machine_revealAnswer | apply machine_triggerStretch
    | apply machine_startMatch].
Qed.

Lemma blind_get_bind {B} (k : World → M World B) :
  (∀ w0, blind (k w0)) → (∀ w0, k (unpaused w0) = k w0) → blind (bind get k).
Proof.
  intros Hk Hsame w. unfold bind, get. cbn. rewrite Hsame. apply Hk.
Qed.

Lemma blind_answerSubmit user payload : blind (PlayerHandler.answerSubmit user payload).
Proof.
  unfold PlayerHandler.answerSubmit.
  pose proof blind_submitAnswer as Hsub.
  destruct user as [playerId |]; [| apply blind_throw].
  destruct (String.eqb playerId ""); [apply blind_throw |].
  apply blind_bind; [by apply blind_gets | intros players].
  destruct (find_player players playerId) as [player |]; [| apply blind_throw].
  destruct (negb _); [apply blind_throw |].
  apply blind_bind; [by apply blind_gets | intros found].
  destruct found as [match_ |]; [| apply blind_throw].
  destruct (parse_questionId _) as [i q].
  destruct (PlayerHandler.pack_question _ _ _) as [question |]; [| apply blind_throw].
  apply blind_bind; [apply Hsub | intros result].
  apply blind_get_bind; [| done]. intros w0.
  apply blind_bind; [| intros ?; apply blind_ret].
  apply (blind_run (loadState (PlayerHandler.ap_matchId payload) ;;
                    updateLeaderboard (PlayerHandler.ap_matchId payload)
                      (PlayerHandler.playerScores w0 (PlayerHandler.ap_matchId payload)))).
  apply machine_bind; [apply machine_loadState | intros ?].
  apply machine_updateLeaderboard.
Qed.

End PauseFacts.

(** Pausing is advisory.  The pause flag is written by pause and resume
    and read by nothing: every host command and every answer submission
    returns the same result and leaves the same stores, pause flags aside,
    whether or not the match is paused, and so does a stretch timer that
    fires during a pause. *)
Theorem pause_flag_is_never_read (w : World) (f : gset string → gset string) :
  (∀ m action now,
     fst (HostHandler.hostAction m action now (with_redis_paused f w))
       = fst (HostHandler.hostAction m action now w) ∧
     Pause.unpaused (snd (HostHandler.hostAction m action now (with_redis_paused f w)))
       = Pause.unpaused (snd (HostHandler.hostAction m action now w))) ∧
  (∀ user payload,
     fst (PlayerHandler.answerSubmit user payload (with_redis_paused f w))
       = fst (PlayerHandler.answerSubmit user payload w) ∧
     Pause.unpaused (snd (PlayerHandler.answerSubmit user payload (with_redis_paused f w)))
       = Pause.unpaused (snd (PlayerHandler.answerSubmit user payload w))) ∧
  (∀ n now,
     Pause.unpaused (fireTimer n now (with_redis_paused f w))
       = Pause.unpaused (fireTimer n now w)).
Proof.
  split_and!.
  - intros m action now.
    destruct (blind_hostAction m action now w) as [H1 H2].
    destruct (blind_hostAction m action now (with_redis_paused f w)) as [H3 H4].
    split; [by rewrite H1, H3 | by rewrite H2, H4].
  - intros user payload.
    destruct (blind_answerSubmit user payload w) as [H1 H2].
    destruct (blind_answerSubmit user payload (with_redis_paused f w)) as [H3 H4].
    split; [by rewrite H1, H3 | by rewrite H2, H4].
  - intros n now. unfold fireTimer. cbn [timers with_redis_paused].
    destruct (timers w !! n) as [t |]; [| done].
    destruct (machine_stretchTimeout (t_matchId t) now
                {| this_state := t_this t; world := with_timers (delete n) w |})
      as [_ H1].
    destruct (machine_stretchTimeout (t_matchId t) now
                {| this_state := t_this t;
                   world := with_timers (delete n) (with_redis_paused f w) |})
      as [_ H2].
    apply (f_equal world) in H1, H2. cbn [world Pause.unpaused_machine] in H1, H2.
    by rewrite H1, H2.
Qed.

(** Pause does not stop the clock and resume winds it back: a pause
    leaves the stored state, deadline included, and the timers as they
    were; a resume during the question phase sets the deadline to a full
    timer from now, however much of the time had been used, and clears the
    pause flag. *)
Theorem pause_keeps_the_deadline_resume_resets_it m now w s match_ e :
  redis_state w !! StateMachine.stateKey m = Some s →
  ms_phase s = QUESTION →
  ms_endsAt s = Some e → e ≠ 0 →
  db_match w !! m = Some match_ →
  (∃ w', HostHandler.hostAction m HostHandler.ActPause now w = (Ok tt, w') ∧
         redis_state w' = redis_state w ∧ timers w' = timers w ∧
         m ∈ redis_paused w' ∧
         last (emitted w') = Some (m, MatchPaused now)) ∧
  (∃ w', HostHandler.hostAction m HostHandler.ActResume now w = (Ok tt, w') ∧
         redis_state w' !! StateMachine.stateKey m
           = Some (set_endsAt (Some (now + timerSec (m_settings match_) * 1000)) s) ∧
         (m ∉ redis_paused w') ∧
         last (emitted w')
           = Some (m, MatchResumed now
                        (Some (now + timerSec (m_settings match_) * 1000)))).
Proof.
  intros Hs Hp He Hne Hm. split.
  - run_machine. cbn. rewrite Hs. cbn. eexists. split; [reflexivity |]. cbn.
    rewrite last_snoc. split_and!; try done.
    by apply elem_of_union_r, elem_of_singleton.
  - run_machine. cbn. rewrite Hs. cbn. rewrite Hp, He.
    rewrite (bool_decide_eq_true_2 (QUESTION = QUESTION)) by done.
    cbn. rewrite (proj2 (Z.eqb_neq e 0) Hne). cbn. rewrite Hm. cbn.
    eexists. split; [reflexivity |]. cbn.
    rewrite lookup_insert_eq, last_snoc. split_and!; try done.
    apply not_elem_of_difference. right. by apply elem_of_singleton.
Qed.

Lemma pause_keeps_the_deadline_resume_resets_it_witness :
  ∃ w', HostHandler.hostAction "m1" HostHandler.ActResume 9000
          Fixture.single_question = (Ok tt, w') ∧
        (ms_endsAt <$> redis_state w' !! StateMachine.stateKey "m1")
          = Some (Some (9000 + 20 * 1000)).
Proof.
  assert (∃ s match_ e,
            redis_state Fixture.single_question !! StateMachine.stateKey "m1" = Some s ∧
            ms_phase s = QUESTION ∧ ms_endsAt s = Some e ∧ e ≠ 0 ∧
            db_match Fixture.single_question !! "m1"%string = Some match_ ∧
            timerSec (m_settings match_) = 20)
    as (s & match_ & e & Hs & Hp & He & Hne & Hm & Ht).
  { eexists _, _, _. split; [vm_compute; reflexivity |].
    split; [vm_compute; reflexivity |]. split; [vm_compute; reflexivity |].
    split; [discriminate |]. split; vm_compute; reflexivity. }
  destruct (proj2 (pause_keeps_the_deadline_resume_resets_it "m1" 9000
                     Fixture.single_question s match_ e Hs Hp He Hne Hm))
    as (w' & Hrun & Hs' & _).
  exists w'. split; [exact Hrun |]. rewrite Hs', Ht. reflexivity.
Defined.



(** A start from the lobby with a valid first question opens the match:
    the match row becomes IN_PROGRESS with the current time as its start,
    the stored state shows question 0 of inning 0 in the question phase
    with a full timer as deadline and keeps line score and leaderboard, and
    the state update and the question are broadcast, in this order. *)
Theorem start_opens_the_first_question m now w s match_ inn question :
  redis_state w !! StateMachine.stateKey m = Some s →
  ms_phase s = LOBBY →
  db_match w !! m = Some match_ →
  Js.index (m_innings match_) 0 = Some inn →
  Js.index (i_questions inn) 0 = Some question →
  QuestionService.validateQuestion question = QuestionService.Valid →
  ∃ w' s' updated,
    HostHandler.hostAction m HostHandler.ActStart now w = (Ok tt, w') ∧
    redis_state w' !! StateMachine.stateKey m = Some s' ∧
    (ms_phase s', ms_inning s', ms_questionIdx s') = (QUESTION, 0, 0) ∧
    ms_endsAt s' = Some (now + timerSec (m_settings match_) * 1000) ∧
    ms_question s'
    = Some (QuestionService.formatQuestion
              {| QuestionService.fo_matchId := m;
                 QuestionService.fo_question := question;
                 QuestionService.fo_inning := 0;
                 QuestionService.fo_questionIdx := 0;
                 QuestionService.fo_timerSec := timerSec (m_settings match_) |}) ∧
    (ms_lineScore s', ms_leaderboard s') = (ms_lineScore s, ms_leaderboard s) ∧
    db_match w' !! m = Some updated ∧
    (m_status updated, m_startedAt updated, m_endedAt updated)
      = (IN_PROGRESS, Some now, m_endedAt match_) ∧
    emitted w'
    = emitted w ++ [(m, StateUpdate s');
                    (m, QuestionShow (ms_question s') (ms_endsAt s'))].
Proof.
  intros Hs Hp Hm Hinn Hq Hv. run_machine. cbn -[Js.index]. rewrite Hs. cbn -[Js.index].
  rewrite Hp, (bool_decide_eq_true_2 (LOBBY = LOBBY)) by done. cbn -[Js.index].
  rewrite Hm. cbn -[Js.index]. rewrite Hm. cbn -[Js.index].
  rewrite Hinn, Hq. cbn -[Js.index]. rewrite Hv. cbn -[Js.index].
  eexists _, _, _. split; [reflexivity |]. cbn -[Js.index].
  rewrite lookup_insert_eq, lookup_alter_eq, Hm. cbn.
  split_and!; try done. by rewrite <- app_assoc.
Qed.

Lemma start_opens_the_first_question_witness :
  ∃ w' s',
    HostHandler.hostAction "m1" HostHandler.ActStart 1000
      (Fixture.fresh (Fixture.settings true false) Fixture.two_innings) = (Ok tt, w') ∧
    redis_state w' !! StateMachine.stateKey "m1" = Some s' ∧
    (ms_phase s', ms_inning s', ms_questionIdx s') = (QUESTION, 0, 0).
Proof.
  destruct (start_opens_the_first_question "m1" 1000
              (Fixture.fresh (Fixture.settings true false) Fixture.two_innings)
              (Fixture.initialState "m1" 2)
              (Fixture.lobby_match (Fixture.settings true false) Fixture.two_innings)
              (Fixture.inning [Fixture.q_mc; Fixture.q_closest]) Fixture.q_mc
              eq_refl eq_refl eq_refl eq_refl eq_refl eq_refl)
    as (w' & s' & updated & Hrun & Hs' & Hpos & _).
  exists w', s'. exact (conj Hrun (conj Hs' Hpos)).
Defined.

Section WholeFacts.
Import Rules RevealService AnswerService.

Lemma pretty_N_go_first (x : N) :
  (0 < x)%N → ∃ c r, pretty_N_go x "" = String c r ∧ digit_char c.
Proof.
  intros Hx. pose proof (pretty_go_all_digits x "" I) as Hall.
  destruct (digits_pretty_go x "" 0 0%nat) as (k & Hk & Hpos).
  rewrite digits_nil in Hk. specialize (Hpos Hx).
  destruct (pretty_N_go x "") as [| c r].
  2:{ exists c, r. split; [done |]. apply Hall. }
  cbn in Hk. injection Hk as _ Hk. lia.
Qed.

Lemma digits_pretty_N (x : N) :
  (0 < x)%N →
  ∃ k, Js.digits 0 0 (pretty_N_go x "") = (Z.of_N x, S k, ""%string).
Proof.
  intros Hx. destruct (digits_pretty_go x "" 0 0%nat) as (k & Hk & Hpos).
  rewrite digits_nil in Hk. specialize (Hpos Hx).
  destruct k as [| k]; [lia |]. exists k. rewrite Hk.
  replace (0 * 10 ^ Z.of_nat (S k) + Z.of_N x) with (Z.of_N x) by lia.
  reflexivity.
Qed.

(** [parseFloat] reads the decimal text of an integer as that integer. *)
Lemma parseFloat_pretty (z : Z) :
  ∃ x, Js.parseFloat (pretty z) = Some x ∧ (x == inject_Z z)%Q.
Proof.
  destruct z as [| p | p].
  - eexists. split; [vm_compute; reflexivity | done].
  - unfold pretty, pretty_Z, pretty, pretty_positive, pretty, pretty_N.
    rewrite decide_False by done.
    destruct (pretty_N_go_first (N.pos p)) as (c & r & Hstr & Hc); [lia |].
    destruct (digits_pretty_N (N.pos p)) as (k & Hk); [lia |].
    unfold Js.parseFloat. rewrite Hstr in *.
    pose proof (digit_char_ascii c Hc) as Hascii.
    apply digit_char_plain in Hc as (Hws & Hm & Hp).
    unfold Js.trim_start. rewrite strip_plain by done.
    rewrite sign_of_plain by done. rewrite Hk. cbn [Nat.eqb andb].
    eexists. split; [reflexivity |].
    unfold Qeq. cbn. lia.
  - unfold pretty, pretty_Z, pretty, pretty_positive, pretty, pretty_N.
    rewrite decide_False by done.
    destruct (digits_pretty_N (N.pos p)) as (k & Hk); [lia |].
    unfold Js.parseFloat.
    change ("-" +:+ pretty_N_go (N.pos p) "")%string
      with (String "-" (pretty_N_go (N.pos p) "")).
    unfold Js.trim_start. rewrite strip_plain by (vm_compute; (lia || reflexivity)).
    cbn [Js.sign_of]. rewrite Hk. cbn [Nat.eqb andb].
    eexists. split; [reflexivity |].
    unfold Qeq. cbn. lia.
Qed.

Lemma whole_distance (c : Z) (a : MatchAnswer) (z : Z) :
  Whole.whole_choice a z →
  ∃ d, distance (inject_Z c) a = Some d ∧ (d == inject_Z (Z.abs (c - z)))%Q.
Proof.
  intros [Hz _]. unfold distance. rewrite Hz.
  destruct (parseFloat_pretty z) as (x & -> & Hx).
  eexists. split; [reflexivity |]. rewrite Hx.
  unfold Qminus. rewrite <- inject_Z_opp, <- inject_Z_plus.
  unfold inject_Z. by rewrite <- Zabs_Qabs.
Qed.

Lemma pretty_Z_inj (x y : Z) : pretty x = pretty y → x = y.
Proof. apply (inj pretty). Qed.

Lemma nearest_achieves_minimum (c : Z) (subs : list MatchAnswer) (a : MatchAnswer) :
  (∀ b, b ∈ subs → ∃ z, Whole.whole_choice b z) →
  a ∈ subs →
  achieves_minimum (inject_Z c) subs a ↔ Whole.nearest c subs a.
Proof.
  intros Hwhole Ha. destruct (Hwhole a Ha) as [z Hz].
  destruct (whole_distance c a z Hz) as (d & Hd & Hdz). split.
  - intros (d0 & Hd0 & Hmin). assert (d0 = d) as -> by congruence.
    exists z. split; [done |]. intros b z' Hb Hz'.
    destruct (whole_distance c b z' Hz') as (d' & Hd' & Hdz').
    specialize (Hmin b d' Hb Hd'). rewrite Hdz, Hdz' in Hmin.
    by rewrite Zle_Qle.
  - intros (z0 & [Hz0 Hb0] & Hmin).
    assert (z0 = z) as ->.
    { apply pretty_Z_inj. destruct Hz as [Hz _]. congruence. }
    exists d. split; [done |]. intros b d' Hb Hd'.
    destruct (Hwhole b Hb) as [z' Hz'].
    destruct (whole_distance c b z' Hz') as (d'' & Hd'' & Hdz').
    assert (d'' = d') as -> by congruence.
    rewrite Hdz, Hdz'. rewrite <- Zle_Qle. by apply (Hmin b z').
Qed.

End WholeFacts.

(** Closest questions on whole numbers.  When the correct value and all
    the answers submitted for the question are integers of at most [2^52]
    in size, written in decimal digits (so that [parseFloat] and the
    distances are exact in the doubles of the code), [handleClosestQuestion]
    marks as correct, without bonus, exactly the answers that are nearest
    to the correct value, ties included, and leaves every other row, the
    cache and the match state as they were. *)
Theorem closest_whole_numbers_mark_the_nearest matchId i q question (c : Z) w :
  q_body question = ClosestBody (inject_Z c) →
  Z.abs c ≤ 2 ^ 52 →
  NoDup (map a_id (db_matchAnswer w)) →
  let subs := Rules.submissions (db_matchAnswer w) matchId i q in
  (∀ b, b ∈ subs → ∃ z, Whole.whole_choice b z) →
  ∃ w',
    RevealService.handleClosestQuestion matchId i q question w = (Ok tt, w') ∧
    redis_sets w' = redis_sets w ∧ redis_state w' = redis_state w ∧
    ∀ n a, db_matchAnswer w !! n = Some a →
      (a ∈ subs ∧ Whole.nearest c subs a →
         db_matchAnswer w' !! n = Some (RevealService.mark_correct a)) ∧
      (¬ (a ∈ subs ∧ Whole.nearest c subs a) →
         db_matchAnswer w' !! n = Some a).
Proof.
  intros Hbody _ Hnd subs Hwhole.
  destruct (handleClosestQuestion_marks_minimisers matchId i q question (inject_Z c) w Hbody Hnd)
    as (w' & Hrun & Hsets & Hstate & Hrows).
  exists w'. split_and!; try done.
  intros n a Hn. destruct (Hrows n a Hn) as [Hyes Hno]. split.
  - intros [Ha Hnear]. apply Hyes. split; [done |].
    by apply nearest_achieves_minimum.
  - intros Hnot. apply Hno. intros [Ha Hmin]. apply Hnot. split; [done |].
    by apply (nearest_achieves_minimum c subs a Hwhole Ha).
Qed.

Lemma closest_whole_numbers_mark_the_nearest_witness :
  ∃ w',
    RevealService.handleClosestQuestion "m1" 0 0 Fixture.q_closest
      Fixture.closest_submitted = (Ok tt, w') ∧
    redis_sets w' = redis_sets Fixture.closest_submitted.
Proof.
  assert (NoDup (map a_id (db_matchAnswer Fixture.closest_submitted))) as Hids.
  { vm_compute.
    repeat (apply NoDup_cons; split;
            [ let H := fresh in
              intros H;
              repeat (apply elem_of_cons in H as [H | H]; [discriminate H |]);
              by apply elem_of_nil in H
            | ]).
    apply NoDup_nil_2. }
  assert (∀ b, b ∈ Rules.submissions (db_matchAnswer Fixture.closest_submitted) "m1" 0 0 →
               ∃ z, Whole.whole_choice b z) as Hwhole.
  { intros b Hb. vm_compute in Hb.
    repeat (apply elem_of_cons in Hb as [-> | Hb];
            [first [ exists 54; split; [vm_compute; reflexivity | vm_compute; discriminate]
                   | exists 50; split; [vm_compute; reflexivity | vm_compute; discriminate] ] |]).
    by apply elem_of_nil in Hb. }
  destruct (closest_whole_numbers_mark_the_nearest "m1" 0 0 Fixture.q_closest 54
              Fixture.closest_submitted eq_refl ltac:(vm_compute; discriminate)
              Hids Hwhole)
    as (w' & Hrun & Hsets & _).
  exists w'. exact (conj Hrun Hsets).
Defined.

(** ** Pack import *)

Section PackFacts.
Import PackValidation QuestionService.

Lemma inning_errors_nil inningIdx inn :
  inning_errors inningIdx inn = [] ↔
  ∀ q, q ∈ i_questions inn → validateQuestionCorrectIndex q = true.
Proof.
  unfold inning_errors. generalize (i_questions inn) as qs.
  intros qs. revert inningIdx.
  assert (∀ (f : nat → Question → option string) (l : list Question),
            (∀ i q, f i q = None ↔ validateQuestionCorrectIndex q = true) →
            omap id (imap f l) = [] ↔
            ∀ q, q ∈ l → validateQuestionCorrectIndex q = true) as Hgen.
  { intros f l. revert f. induction l as [| q l IH]; intros f Hf.
    - split; [intros _ q Hq; by apply elem_of_nil in Hq | done].
    - cbn. destruct (f 0%nat q) as [e |] eqn:Hfq; cbn.
      + split; [done |]. intros Hall.
        assert (f 0%nat q = None) as Hnone by (apply Hf, Hall; constructor).
        congruence.
      + rewrite (IH (f ∘ S)) by (intros i q'; apply Hf).
        apply Hf in Hfq. split.
        * intros Hall q' [-> | Hq']%elem_of_cons; [done | by apply Hall].
        * intros Hall q' Hq'. apply Hall. by constructor. }
  intros inningIdx. apply Hgen. intros i q.
  by destruct (validateQuestionCorrectIndex q).
Qed.

Lemma validatePack_valid innings :
  valid (validatePack innings) = true ↔
  ∀ inn q, inn ∈ innings → q ∈ i_questions inn →
           validateQuestionCorrectIndex q = true.
Proof.
  unfold validatePack. cbn [valid]. rewrite Nat.eqb_eq, length_zero_iff_nil.
  assert (∀ (f : nat → Inning → list string) (l : list Inning),
            (∀ i inn, f i inn = [] ↔
                      ∀ q, q ∈ i_questions inn → validateQuestionCorrectIndex q = true) →
            concat (imap f l) = [] ↔
            ∀ inn q, inn ∈ l → q ∈ i_questions inn →
                     validateQuestionCorrectIndex q = true) as Hgen.
  { intros f l. revert f. induction l as [| inn l IH]; intros f Hf.
    - split; [intros _ inn q Hinn; by apply elem_of_nil in Hinn | done].
    - cbn. rewrite app_nil, (IH (f ∘ S)) by (intros i inn'; apply Hf).
      rewrite Hf. split.
      + intros [H1 H2] inn' q [-> | Hinn']%elem_of_cons; [apply H1 | by apply H2].
      + intros Hall. split.
        * intros q. apply Hall. constructor.
        * intros inn' q Hinn'. apply Hall. by constructor. }
  apply Hgen. intros i inn. apply inning_errors_nil.
Qed.

Lemma string_length_zero (s : string) : String.length s = 0%nat ↔ s = ""%string.
Proof. by destruct s. Qed.

Lemma accepted_question is_url innings inn q :
  accepted is_url innings = true →
  inn ∈ innings → q ∈ i_questions inn →
  questionSchema_ok is_url q = true ∧ validateQuestionCorrectIndex q = true.
Proof.
  unfold accepted, inningsSchema_ok. rewrite !andb_true_iff.
  intros [[_ Hall] Hvalid] Hinn Hq. split.
  - rewrite forallb_forall in Hall. specialize (Hall inn).
    rewrite <- list_elem_of_In in Hall. specialize (Hall Hinn).
    unfold inningSchema_ok in Hall. rewrite !andb_true_iff in Hall.
    destruct Hall as [_ Hqs]. rewrite forallb_forall in Hqs. apply Hqs.
    by apply list_elem_of_In.
  - by eapply validatePack_valid.
Qed.

Lemma schema_question_valid is_url q :
  is_url ""%string = false →
  questionSchema_ok is_url q = true →
  validateQuestionCorrectIndex q = true →
  validateQuestion q
  = if (String.length (Js.trim (q_text q)) =? 0)%nat
    then Invalid "Question text is required" else Valid.
Proof.
  intros Hurl Hschema Hindex. unfold questionSchema_ok, baseQuestion_ok in Hschema.
  rewrite !andb_true_iff in Hschema. destruct Hschema as [[[Htext Hmedia] _] Hbody].
  apply Nat.leb_le in Htext. unfold validateQuestion.
  destruct (String.eqb_spec (q_text q) "") as [Hempty | _].
  { rewrite Hempty in Htext. cbn in Htext. lia. }
  cbn [orb]. destruct (String.length (Js.trim (q_text q)) =? 0)%nat; [done |].
  unfold validateQuestionCorrectIndex in Hindex.
  destruct (q_body q) as [cs ci | b | v | cs ci]; try done.
  - unfold choices_ok in Hbody. rewrite !andb_true_iff in Hbody.
    destruct Hbody as [[H2 _] H0]. apply Nat.leb_le in H2. apply Z.leb_le in H0.
    apply Z.ltb_lt in Hindex. unfold check_choices.
    destruct (Z.ltb_spec (Z.of_nat (length cs)) 2); [lia |].
    destruct (Z.ltb_spec ci 0); [lia |].
    destruct (Z.leb_spec (Z.of_nat (length cs)) ci); [lia | done].
  - destruct (q_mediaUrl q) as [u |] eqn:Hu; [| done].
    cbn in Hmedia. unfold truthy.
    destruct (String.eqb_spec u "") as [-> | _]; [congruence |]. cbn [negb].
    unfold choices_ok in Hbody. rewrite !andb_true_iff in Hbody.
    destruct Hbody as [[H2 _] H0]. apply Nat.leb_le in H2. apply Z.leb_le in H0.
    apply Z.ltb_lt in Hindex. unfold check_choices.
    destruct (Z.ltb_spec (Z.of_nat (length cs)) 2); [lia |].
    destruct (Z.ltb_spec ci 0); [lia |].
    destruct (Z.leb_spec (Z.of_nat (length cs)) ci); [lia | done].
Qed.

End PackFacts.

(** What pack import lets through.  For every question of a pack that
    passes [packSchema] and [validatePack], reading
    [choices[correctIndex]] is in bounds, and [validateQuestion] accepts the
    question unless its text is blank: the schema asks for one character,
    the state machine for one character after trimming, so a question whose
    text is white space only is imported and then refused when it is due to
    be shown, with 'Question text is required'. *)
Theorem accepted_question_is_valid_unless_blank
    (is_url : string → bool) (innings : list Inning) (inn : Inning) (q : Question) :
  is_url ""%string = false →
  PackValidation.accepted is_url innings = true →
  inn ∈ innings → q ∈ i_questions inn →
  (QuestionService.validateQuestion q = QuestionService.Valid
   ↔ Js.trim (q_text q) ≠ ""%string) ∧
  (Js.trim (q_text q) = ""%string →
   QuestionService.validateQuestion q
   = QuestionService.Invalid "Question text is required") ∧
  QuestionService.getCorrectAnswer q ≠ JsUndefined.
Proof.
  intros Hurl Hacc Hinn Hq.
  destruct (accepted_question is_url innings inn q Hacc Hinn Hq) as [Hschema Hindex].
  pose proof (schema_question_valid is_url q Hurl Hschema Hindex) as Hv.
  destruct (Nat.eqb_spec (String.length (Js.trim (q_text q))) 0) as [Hz | Hnz].
  - apply string_length_zero in Hz. split_and!.
    + rewrite Hv. split; [done | by intros []].
    + by rewrite Hv.
    + unfold PackValidation.questionSchema_ok, PackValidation.choices_ok in Hschema.
      unfold PackValidation.validateQuestionCorrectIndex in Hindex.
      unfold QuestionService.getCorrectAnswer.
      rewrite !andb_true_iff in Hschema. destruct Hschema as [_ Hbody].
      destruct (q_body q) as [cs ci | b | v | cs ci]; try done.
      * rewrite !andb_true_iff in Hbody. destruct Hbody as [_ H0].
        apply Z.leb_le in H0. apply Z.ltb_lt in Hindex.
        by destruct (index_in_bounds cs ci (conj H0 Hindex)) as [c ->].
      * destruct (q_mediaUrl q); [| done].
        rewrite !andb_true_iff in Hbody. destruct Hbody as [_ H0].
        apply Z.leb_le in H0. apply Z.ltb_lt in Hindex.
        by destruct (index_in_bounds cs ci (conj H0 Hindex)) as [c ->].
  - split_and!.
    + rewrite Hv. split; [| done]. intros _ Hblank.
      by apply string_length_zero in Hblank.
    + intros Hblank. by apply string_length_zero in Hblank.
    + by apply valid_has_answer.
Qed.


Lemma accepted_question_is_valid_unless_blank_witness :
  QuestionService.validateQuestion Packs.q_no_break_space
  = QuestionService.Invalid "Question text is required".
Proof.
  exact (proj1 (proj2 (accepted_question_is_valid_unless_blank
                         Packs.starts_with_http
                         [Fixture.inning [Packs.q_space; Packs.q_no_break_space]]
                         (Fixture.inning [Packs.q_space; Packs.q_no_break_space])
                         Packs.q_no_break_space
                         eq_refl eq_refl
                         ltac:(repeat constructor) ltac:(repeat constructor)))
           eq_refl).
Defined.

Section PlayFacts.
Import StateMachine HostHandler PackValidation Content Showing.

Lemma index_elem_of {A} (l : list A) i x : Js.index l i = Some x → x ∈ l.
Proof.
  unfold Js.index. destruct (i <? 0); [done |]. apply list_elem_of_lookup_2.
Qed.

Lemma index_Some {A} (l : list A) i :
  0 ≤ i < Z.of_nat (length l) → ∃ x, Js.index l i = Some x.
Proof. intros Hi. by destruct (index_in_bounds l i Hi) as [x ->]; exists x. Qed.

Lemma index_range {A} (l : list A) i x :
  Js.index l i = Some x → 0 ≤ i < Z.of_nat (length l).
Proof.
  unfold Js.index. destruct (Z.ltb_spec i 0); [done |].
  intros Hx%lookup_lt_Some. lia.
Qed.

Lemma accepted_valid is_url innings inn q :
  is_url ""%string = false → accepted is_url innings = true →
  no_blank_text innings → inn ∈ innings → q ∈ i_questions inn →
  QuestionService.validateQuestion q = QuestionService.Valid.
Proof.
  intros Hurl Hacc Hnb Hinn Hq.
  destruct (accepted_question is_url innings inn q Hacc Hinn Hq) as [Hschema Hindex].
  rewrite (schema_question_valid is_url q Hurl Hschema Hindex).
  destruct (Nat.eqb_spec (String.length (Js.trim (q_text q))) 0) as [Hz | _]; [| done].
  apply string_length_zero in Hz. by destruct (Hnb inn q Hinn Hq).
Qed.

Lemma accepted_first_question is_url innings inn :
  accepted is_url innings = true → inn ∈ innings →
  ∃ q, Js.index (i_questions inn) 0 = Some q.
Proof.
  unfold accepted, inningsSchema_ok. rewrite !andb_true_iff.
  intros [[_ Hall] _] Hinn. rewrite forallb_forall in Hall.
  specialize (Hall inn). rewrite <- list_elem_of_In in Hall. specialize (Hall Hinn).
  unfold inningSchema_ok in Hall. rewrite !andb_true_iff in Hall.
  destruct Hall as [[[_ H1] _] _]. apply Nat.leb_le in H1.
  apply index_Some. lia.
Qed.

Lemma accepted_first_inning is_url innings :
  accepted is_url innings = true → ∃ inn, Js.index innings 0 = Some inn.
Proof.
  unfold accepted, inningsSchema_ok. rewrite !andb_true_iff.
  intros [[[H1 _] _] _]. apply Nat.leb_le in H1. apply index_Some. lia.
Qed.

Lemma startMatch_ok m now w s match_ inn question :
  redis_state w !! stateKey m = Some s →
  ms_phase s = LOBBY →
  db_match w !! m = Some match_ →
  Js.index (m_innings match_) 0 = Some inn →
  Js.index (i_questions inn) 0 = Some question →
  QuestionService.validateQuestion question = QuestionService.Valid →
  ∃ w', hostAction m ActStart now w = (Ok tt, w') ∧
        Views.stored_position m w' = Some (QUESTION, 0, 0).
Proof.
  intros Hs Hp Hm Hinn Hq Hv. run_machine. cbn -[Js.index]. rewrite Hs. cbn -[Js.index].
  rewrite Hp, (bool_decide_eq_true_2 (LOBBY = LOBBY)) by done. cbn -[Js.index].
  rewrite Hm. cbn -[Js.index]. rewrite Hm. cbn -[Js.index].
  rewrite Hinn, Hq. cbn -[Js.index]. rewrite Hv. cbn -[Js.index].
  eexists. split; [reflexivity |]. unfold Views.stored_position. cbn.
  by rewrite lookup_insert_eq.
Qed.

Lemma skip_ends_ok m now w s match_ inn :
  redis_state w !! stateKey m = Some s →
  ms_phase s = QUESTION ∨ ms_phase s = REVEAL →
  db_match w !! m = Some match_ →
  Js.index (m_innings match_) (ms_inning s) = Some inn →
  Z.of_nat (length (i_questions inn)) ≤ ms_questionIdx s + 1 →
  Z.of_nat (length (m_innings match_)) ≤ ms_inning s + 1 →
  ∃ w', hostAction m ActSkip now w = (Ok tt, w').
Proof.
  intros Hs Hphase Hm Hinn Hle Hlast.
  assert (Hb := skip_allowed s Hphase).
  run_machine. cbn -[Js.index]. rewrite Hs. cbn -[Js.index].
  rewrite Hb. cbn -[Js.index]. rewrite Hs. cbn -[Js.index].
  rewrite Hm. cbn -[Js.index]. rewrite Hinn.
  rewrite (proj2 (Z.leb_le _ _) Hle), (proj2 (Z.leb_le _ _) Hlast).
  cbn -[Js.index]. rewrite Hs. cbn -[Js.index]. rewrite Hm. cbn -[Js.index].
  by eexists.
Qed.

End PlayFacts.

(** An imported pack plays without content errors.  On a match whose
    pack passed import ([packSchema] and [validatePack]) and has no blank
    question text, a start from the lobby succeeds and shows question 0 of
    inning 0, and a skip while a pack question is on display always
    succeeds: no missing inning, no missing question, no question refused
    by [validateQuestion]. *)
Theorem accepted_pack_plays_without_content_errors
    (is_url : string → bool) (m : string) (now : Z) (w : World)
    (s : MatchState) (match_ : Match) :
  is_url ""%string = false →
  PackValidation.accepted is_url (m_innings match_) = true →
  Content.no_blank_text (m_innings match_) →
  redis_state w !! StateMachine.stateKey m = Some s →
  db_match w !! m = Some match_ →
  (ms_phase s = LOBBY →
   ∃ w', HostHandler.hostAction m HostHandler.ActStart now w = (Ok tt, w') ∧
         Views.stored_position m w' = Some (QUESTION, 0, 0)) ∧
  (ms_phase s = QUESTION → Showing.shows_pack_question m w →
   ∃ w', HostHandler.hostAction m HostHandler.ActSkip now w = (Ok tt, w')).
Proof.
  intros Hurl Hacc Hnb Hs Hm. split.
  - intros Hp.
    destruct (accepted_first_inning is_url _ Hacc) as [inn Hinn].
    assert (inn ∈ m_innings match_) as Hin by (by eapply index_elem_of).
    destruct (accepted_first_question is_url _ inn Hacc Hin) as [q Hq].
    eapply (startMatch_ok m now w s match_ inn q); try done.
    eapply accepted_valid; try done. by eapply index_elem_of.
  - intros Hp Hinv.
    destruct (Hinv s Hs Hp) as (match' & inn & question & Hm' & Hinn & Hq & _).
    assert (match' = match_) as -> by congruence.
    assert (inn ∈ m_innings match_) as Hin by (by eapply index_elem_of).
    pose proof (index_range _ _ _ Hinn) as Hi.
    destruct (Z.lt_ge_cases (ms_questionIdx s + 1) (Z.of_nat (length (i_questions inn))))
      as [Hlt | Hge].
    + pose proof (index_range _ _ _ Hq) as Hj.
      destruct (index_Some (i_questions inn) (ms_questionIdx s + 1)) as [q' Hq']; [lia |].
      destruct (skip_same_inning m now w s match_ inn q' Hs (or_introl Hp) Hm Hinn Hlt Hq')
        as (w' & s' & Hrun & _).
      { eapply accepted_valid; try done. by eapply index_elem_of. }
      by exists w'.
    + destruct (Z.lt_ge_cases (ms_inning s + 1) (Z.of_nat (length (m_innings match_))))
        as [Hmore | Hlast].
      * destruct (decide (ms_inning s = 6)) as [H6 | H6].
        -- destruct (skip_into_stretch m now w s match_ inn Hs (or_introl Hp) Hm Hinn
                       Hge Hmore H6) as (w' & s' & Hrun & _).
           by exists w'.
        -- destruct (index_Some (m_innings match_) (ms_inning s + 1)) as [inn' Hinn'];
             [lia |].
           assert (inn' ∈ m_innings match_) as Hin' by (by eapply index_elem_of).
           destruct (accepted_first_question is_url _ inn' Hacc Hin') as [q' Hq'].
           destruct (skip_next_inning m now w s match_ inn inn' q' Hs (or_introl Hp) Hm
                       Hinn Hge Hmore H6 Hinn' Hq') as (w' & s' & Hrun & _).
           { eapply accepted_valid; try done. by eapply index_elem_of. }
           by exists w'.
      * exact (skip_ends_ok m now w s match_ inn Hs (or_introl Hp) Hm Hinn Hge Hlast).
Qed.

Lemma accepted_pack_plays_without_content_errors_witness :
  ∃ w', HostHandler.hostAction "m1" HostHandler.ActStart 1000
          (Fixture.fresh (Fixture.settings true false) Fixture.two_innings)
        = (Ok tt, w') ∧
        Views.stored_position "m1" w' = Some (QUESTION, 0, 0).
Proof.
  refine (proj1 (accepted_pack_plays_without_content_errors
                   Packs.starts_with_http "m1" 1000
                   (Fixture.fresh (Fixture.settings true false) Fixture.two_innings)
                   (Fixture.initialState "m1" 2)
                   (Fixture.lobby_match (Fixture.settings true false) Fixture.two_innings)
                   eq_refl eq_refl _ eq_refl eq_refl) eq_refl).
  intros inn q Hinn Hq.
  repeat (apply elem_of_cons in Hinn as [-> | Hinn]);
    [| | by apply elem_of_nil in Hinn];
    repeat (apply elem_of_cons in Hq as [-> | Hq]);
    try (by apply elem_of_nil in Hq); discriminate.
Defined.

(** ** Joining and leaving *)

Section PlayerFacts.
Import PlayerService PlayerHandler AnswerService.







Lemma active_after_leave players id now matchId :
  active_players (update_player id (set_leftAt (Some now)) players) matchId
  = filter (λ p, p_id p ≠ id) (active_players players matchId).
Proof.
  unfold active_players, update_player.
  induction players as [| p l IH]; [done |].
  cbn [map]. rewrite (filter_cons _ p l). rewrite filter_cons. rewrite IH.
  destruct (String.eqb_spec (p_id p) id) as [Hid | Hid].
  - rewrite decide_False by (cbn; rewrite andb_false_r; done).
    destruct (decide _) as [_ | _]; [| done].
    rewrite (filter_cons (λ p0, p_id p0 ≠ id)). by rewrite decide_False by auto.
  - destruct (decide _) as [_ | _]; [| done].
    rewrite (filter_cons (λ p0, p_id p0 ≠ id)). by rewrite decide_True by done.
Qed.




End PlayerFacts.



Section LeaveFacts.
Import PlayerService PlayerHandler AnswerService.

Lemma playerScores_filter ledger matchId id (players : list MatchPlayer) :
  map (playerScore ledger matchId) (filter (λ p, p_id p ≠ id) players)
  = filter (λ ps, ps_playerId ps ≠ id) (map (playerScore ledger matchId) players).
Proof.
  induction players as [| p l IH]; [done |].
  cbn [map]. rewrite (filter_cons _ p l).
  rewrite (filter_cons (λ ps, ps_playerId ps ≠ id)). cbn [playerScore ps_playerId].
  destruct (decide (p_id p ≠ id)); cbn [map]; by rewrite IH.
Qed.

Lemma getPlayerScore_spec matchId (p : MatchPlayer) w :
  getPlayerScore matchId (p_id p) w
  = (ps_runs (playerScore (db_matchAnswer w) matchId p),
     ps_correct (playerScore (db_matchAnswer w) matchId p),
     ps_total (playerScore (db_matchAnswer w) matchId p)).
Proof.
  unfold getPlayerScore, playerScore. cbn [ps_runs ps_correct ps_total].
  by rewrite answers_of_spec.
Qed.

Lemma leaveMatch_stores matchId playerId now w w' :
  leaveMatch matchId playerId now w = (inr tt, w') →
  db_matchPlayer w'
    = update_player playerId (set_leftAt (Some now)) (db_matchPlayer w) ∧
  db_matchAnswer w' = db_matchAnswer w ∧ db_match w' = db_match w ∧
  (∀ s', redis_state w' !! StateMachine.stateKey matchId = Some s' →
         ∃ s, redis_state w !! StateMachine.stateKey matchId = Some s ∧
              s' = set_players (filter (λ p, p_id p ≠ playerId) (ms_players s)) s).
Proof.
  unfold leaveMatch. destruct (find_player _ _); [| done].
  cbn -[update_player].
  destruct (redis_state w !! StateMachine.stateKey matchId) as [s |] eqn:Hs.
  - intros [= <-]. cbn -[update_player]. split_and!; try done.
    intros s'. rewrite lookup_insert_eq. intros [= <-]. by exists s.
  - intros [= <-]. cbn -[update_player]. split_and!; try done.
    intros s'. by rewrite Hs.
Qed.

End LeaveFacts.

(** Leaving forfeits the leaderboard entry, not the runs.  After a leave
    the scores the [answer:submit] handler computes for the leaderboard are
    those of before without the entry of the player who left, in every
    match, and the player is gone from the players of the stored state;
    the ledger is untouched, so the line score still counts the player's
    answers and [getPlayerScore] still reports the runs, correct answers
    and total of the entry that was dropped. *)
Theorem leaving_forfeits_the_leaderboard_entry matchId (p : MatchPlayer) now w w' :
  PlayerService.leaveMatch matchId (p_id p) now w = (inr tt, w') →
  (∀ m, PlayerHandler.playerScores w' m
        = filter (λ ps, ps_playerId ps ≠ p_id p) (PlayerHandler.playerScores w m)) ∧
  (∀ s', redis_state w' !! StateMachine.stateKey matchId = Some s' →
         p_id p ∉ map p_id (ms_players s')) ∧
  db_matchAnswer w' = db_matchAnswer w ∧
  (∀ m i, fst (AnswerService.calculateInningRuns m i w')
          = fst (AnswerService.calculateInningRuns m i w)) ∧
  (∀ m, PlayerService.getPlayerScore m (p_id p) w'
        = (ps_runs (PlayerHandler.playerScore (db_matchAnswer w) m p),
           ps_correct (PlayerHandler.playerScore (db_matchAnswer w) m p),
           ps_total (PlayerHandler.playerScore (db_matchAnswer w) m p))).
Proof.
  intros Hleave.
  destruct (leaveMatch_stores matchId (p_id p) now w w' Hleave)
    as (Hplayers & Hledger & _ & Hstate).
  split_and!.
  - intros m. unfold PlayerHandler.playerScores.
    by rewrite Hplayers, Hledger, active_after_leave, playerScores_filter.
  - intros s' Hs'. destruct (Hstate s' Hs') as (s & _ & ->). cbn.
    intros (q & Hid & [Hq _]%list_elem_of_filter)%list_elem_of_fmap. done.
  - done.
  - intros m i. by rewrite !calculateInningRuns_sum, Hledger.
  - intros m. rewrite getPlayerScore_spec. by rewrite Hledger.
Qed.

Lemma leaving_forfeits_the_leaderboard_entry_witness :
  map ps_playerId
    (PlayerHandler.playerScores
       (snd (PlayerService.leaveMatch "m1" "p2" 9000 Fixture.two_answers)) "m1")
  = map ps_playerId
      (filter (λ ps, ps_playerId ps ≠ "p2"%string)
         (PlayerHandler.playerScores Fixture.two_answers "m1")).
Proof.
  assert (PlayerService.leaveMatch "m1" (p_id (Fixture.player "p2")) 9000
            Fixture.two_answers
          = (inr tt, snd (PlayerService.leaveMatch "m1" "p2" 9000 Fixture.two_answers)))
    as Hleave by (vm_compute; reflexivity).
  exact (f_equal (map ps_playerId)
           (proj1 (leaving_forfeits_the_leaderboard_entry "m1" (Fixture.player "p2") 9000
                     Fixture.two_answers _ Hleave) "m1"%string)).
Defined.


Section CsvFacts.
Import CsvParser.

Lemma sep_free_app sep (a b : string) :
  sep_free sep (a ++ b) ↔ sep_free sep a ∧ sep_free sep b.
Proof.
  induction a as [| c r IH]; [rewrite append_nil; cbn; tauto |].
  rewrite append_cons. cbn. rewrite IH. tauto.
Qed.

Lemma sep_free_elem sep (s : string) :
  sep_free sep s ↔ sep ∉ list_ascii_of_string s.
Proof.
  induction s as [| c r IH]; cbn.
  - split; [intros _ H; by apply elem_of_nil in H | done].
  - rewrite not_elem_of_cons, IH. split; intros [H1 H2]; split; congruence.
Qed.

Lemma sep_free_strip sep backwards s :
  sep_free sep s → sep_free sep (Js.strip backwards s).
Proof.
  remember (String.length s) as n eqn:Hn. revert s Hn.
  induction n as [n IH] using lt_wf_ind. intros s -> Hs.
  destruct s as [| a r1]; [done |]. cbn [Js.strip].
  destruct (Js.is_whitespace a).
  { apply (IH (String.length r1)); [cbn; lia | done | by destruct Hs]. }
  destruct r1 as [| b r2]; [done |].
  destruct (if backwards then _ else _).
  { apply (IH (String.length r2)); [cbn; lia | done | by destruct Hs as (_ & _ & ?)]. }
  destruct r2 as [| c r3]; [done |].
  destruct (if backwards then _ else _); [| done].
  apply (IH (String.length r3)); [cbn; lia | done |].
  by destruct Hs as (_ & _ & _ & ?).
Qed.

Lemma sep_free_rev_string sep s : sep_free sep s → sep_free sep (Js.rev_string s).
Proof.
  rewrite !sep_free_elem. unfold Js.rev_string.
  rewrite list_ascii_of_string_of_list_ascii. intros H Hin. apply H.
  apply list_elem_of_In, in_rev. by apply list_elem_of_In.
Qed.

Lemma sep_free_trim sep s : sep_free sep s → sep_free sep (Js.trim s).
Proof.
  intros H. unfold Js.trim.
  by apply sep_free_rev_string, sep_free_strip, sep_free_rev_string,
    sep_free_strip.
Qed.

Lemma append_assoc (a b c : string) : ((a ++ b) ++ c)%string = (a ++ (b ++ c))%string.
Proof.
  induction a as [| x r IH]; [done |]. by rewrite !append_cons, IH.
Qed.

(** Characters that are no quote, and no comma outside quotes, go to the
    current cell. *)
Lemma loop_chars result current inQuotes (s rest : string) :
  sep_free quote s → (inQuotes = false → sep_free "," s) →
  parseCSVLine_loop result current inQuotes (s ++ rest)
  = parseCSVLine_loop result (current ++ s) inQuotes rest.
Proof.
  revert current. induction s as [| c r IH]; intros current Hq Hc.
  - by rewrite append_nil, append_empty_r.
  - destruct Hq as [Hq1 Hq2]. rewrite append_cons. cbn [parseCSVLine_loop].
    destruct (Ascii.eqb_spec c quote) as [-> | _]; [done |].
    assert ((Ascii.eqb c "," && negb inQuotes) = false) as ->.
    { destruct inQuotes; [by rewrite andb_false_r |].
      destruct (Hc eq_refl) as [Hc1 _]. by destruct (Ascii.eqb_spec c ","). }
    rewrite IH; [| done | intros Hi; by destruct (Hc Hi)].
    by rewrite append_assoc.
Qed.

(** A well-formed cell is read as its content, whatever follows. *)
Lemma loop_cell result current (c : Csv.Cell) (rest : string) :
  Csv.well_formed c →
  parseCSVLine_loop result current false (Csv.written c ++ rest)
  = parseCSVLine_loop result (current ++ Csv.content c) false rest.
Proof.
  destruct c as [s | s]; cbn [Csv.well_formed Csv.written Csv.content].
  - intros [Hc Hq]. by apply loop_chars.
  - intros Hq. rewrite append_cons. cbn [parseCSVLine_loop].
    rewrite Ascii.eqb_refl. cbn [negb]. rewrite append_assoc.
    rewrite loop_chars by done. rewrite append_cons, append_nil.
    cbn [parseCSVLine_loop]. by rewrite Ascii.eqb_refl.
Qed.

Lemma loop_line result (cells : list Csv.Cell) :
  cells ≠ [] → Forall Csv.well_formed cells →
  parseCSVLine_loop result "" false (Csv.line cells) = result ++ Csv.values cells.
Proof.
  intros Hne Hwf. revert result.
  induction Hwf as [| c rest Hc Hrest IH]; [done |]. intros result.
  destruct rest as [| c' rest].
  - cbn [Csv.line]. rewrite <- (append_empty_r (Csv.written c)).
    rewrite loop_cell by done. by rewrite append_nil.
  - change (Csv.line (c :: c' :: rest))
      with (Csv.written c ++ String "," (Csv.line (c' :: rest)))%string.
    rewrite loop_cell by done. rewrite append_nil. cbn [parseCSVLine_loop].
    change (Ascii.eqb "," quote) with false. cbn [Ascii.eqb andb negb].
    change (Ascii.eqb "," ",") with true. cbn [andb].
    rewrite IH by done. by rewrite <- app_assoc.
Qed.

(** Without quotes the loop is [split] followed by [trim]. *)
Lemma loop_split result current (line : string) :
  sep_free quote line →
  parseCSVLine_loop result current false line
  = result ++ map Js.trim
      (Js.split_go "," (rev (list_ascii_of_string current)) line).
Proof.
  revert result current. induction line as [| c r IH]; intros result current Hq.
  - cbn. by rewrite rev_involutive, string_of_list_ascii_of_string.
  - destruct Hq as [Hq1 Hq2]. cbn [parseCSVLine_loop Js.split_go].
    destruct (Ascii.eqb_spec c quote) as [-> | _]; [done |]. cbn [negb].
    rewrite andb_true_r. destruct (Ascii.eqb c ",").
    + rewrite IH by done. cbn [map list_ascii_of_string rev].
      by rewrite rev_involutive, string_of_list_ascii_of_string, <- app_assoc.
    + rewrite IH by done. do 3 f_equal.
      clear. induction current as [| x y IHc]; [done |].
      rewrite append_cons. cbn [list_ascii_of_string rev]. rewrite IHc.
      reflexivity.
Qed.

(** No quote reaches a cell. *)
Lemma loop_quote_free result current inQuotes (line : string) :
  Forall (sep_free quote) result → sep_free quote current →
  Forall (sep_free quote) (parseCSVLine_loop result current inQuotes line).
Proof.
  revert result current inQuotes.
  induction line as [| c r IH]; intros result current inQuotes Hres Hcur.
  - cbn. apply Forall_app. split; [done |].
    apply Forall_cons. split; [by apply sep_free_trim | done].
  - cbn [parseCSVLine_loop]. destruct (Ascii.eqb_spec c quote) as [-> | Hc].
    + by apply IH.
    + destruct (Ascii.eqb c "," && negb inQuotes).
      * apply IH; [| done]. apply Forall_app. split; [done |].
        apply Forall_cons. split; [by apply sep_free_trim | done].
      * apply IH; [done |]. apply sep_free_app. split; [done |]. by cbn.
Qed.

(** Two quotes in a row change nothing. *)
Lemma loop_doubled_quote result current inQuotes (a b : string) :
  parseCSVLine_loop result current inQuotes (a ++ String quote (String quote b))
  = parseCSVLine_loop result current inQuotes (a ++ b).
Proof.
  revert result current inQuotes.
  induction a as [| c r IH]; intros result current inQuotes.
  - rewrite !append_nil. cbn [parseCSVLine_loop]. rewrite Ascii.eqb_refl.
    by rewrite negb_involutive.
  - rewrite !append_cons. cbn [parseCSVLine_loop].
    destruct (Ascii.eqb c quote); [apply IH |].
    destruct (Ascii.eqb c "," && negb inQuotes); apply IH.
Qed.

End CsvFacts.

(** What [parseCSVLine] makes of quotes.  A line of well-formed cells,
    bare or quoted, reads as the trimmed contents of its cells, so that a
    quoted cell may hold commas but loses its outer white space like a
    bare one.  On a line without quotes the parser is [split(',')] followed
    by [trim].  No cell it returns ever holds a quote character: two
    quotes in a row, the usual way to write one quote inside a quoted cell,
    read as nothing at all. *)
Theorem parseCSVLine_quotes (cells : list Csv.Cell) (line : string) :
  (cells ≠ [] → Forall Csv.well_formed cells →
   CsvParser.parseCSVLine (Csv.line cells) = Csv.values cells) ∧
  (sep_free CsvParser.quote line →
   CsvParser.parseCSVLine line = map Js.trim (Js.split "," line)) ∧
  Forall (sep_free CsvParser.quote) (CsvParser.parseCSVLine line) ∧
  (∀ a b, line = (a ++ String CsvParser.quote (String CsvParser.quote b))%string →
          CsvParser.parseCSVLine line = CsvParser.parseCSVLine (a ++ b)).
Proof.
  split_and!.
  - intros Hne Hwf. unfold CsvParser.parseCSVLine. by rewrite loop_line.
  - intros Hq. unfold CsvParser.parseCSVLine, Js.split. by rewrite loop_split.
  - by apply loop_quote_free.
  - intros a b ->. apply loop_doubled_quote.
Qed.

Section CsvRowFacts.
Import CsvParser QuestionService.

Lemma last_row (a b : string) (l : list string) x :
  last (a :: b :: l ++ [x]) = Some x.
Proof. by rewrite !app_comm_cons, last_snoc. Qed.

Lemma last_row3 (a b c : string) (l : list string) x :
  last (a :: b :: c :: l ++ [x]) = Some x.
Proof. by rewrite !app_comm_cons, last_snoc. Qed.

Lemma slice_choices (pre choices : list string) x :
  slice (pre ++ choices ++ [x]) (length pre) (length (pre ++ choices ++ [x]) - 1)
  = choices.
Proof.
  unfold slice. rewrite drop_app_length, !length_app. cbn [length].
  replace (length pre + (length choices + 1) - 1 - length pre)%nat
    with (length choices) by lia.
  by rewrite take_app_length.
Qed.

Lemma mc_row text (choices : list string) n :
  (2 ≤ length choices)%nat → 0 ≤ n →
  parseQuestionRow ("mc" :: text :: choices ++ [pretty n])%string
  = inr {| q_text := text; q_mediaUrl := None; q_clipUrl := None;
           q_body := McBody choices n |}.
Proof.
  intros Hlen Hn. unfold parseQuestionRow. cbn [lookup list_lookup].
  change (String.eqb "mc" "mc") with true. cbv iota.
  change (length ("mc"%string :: text :: choices ++ [pretty n]))
    with (S (S (length (choices ++ [pretty n])))).
  rewrite length_app. cbn [length].
  destruct (Nat.ltb_spec (S (S (length choices + 1))) 5); [lia |].
  rewrite last_row, parseInt_pretty by done. do 3 f_equal.
  pose proof (slice_choices ["mc"; text]%string choices (pretty n)) as Hs.
  cbn [length app] in Hs. rewrite length_app in Hs. cbn [length] in Hs.
  exact Hs.
Qed.

Lemma media_row text url (choices : list string) n :
  (2 ≤ length choices)%nat → 0 ≤ n →
  parseQuestionRow ("media" :: text :: url :: choices ++ [pretty n])%string
  = inr {| q_text := text; q_mediaUrl := Some url; q_clipUrl := None;
           q_body := MediaBody choices n |}.
Proof.
  intros Hlen Hn. unfold parseQuestionRow. cbn [lookup list_lookup].
  change (String.eqb "media" "mc") with false.
  change (String.eqb "media" "tf") with false.
  change (String.eqb "media" "closest") with false.
  change (String.eqb "media" "media") with true. cbv iota.
  change (length ("media"%string :: text :: url :: choices ++ [pretty n]))
    with (S (S (S (length (choices ++ [pretty n]))))).
  rewrite length_app. cbn [length].
  destruct (Nat.ltb_spec (S (S (S (length choices + 1)))) 6); [lia |].
  rewrite last_row3, parseInt_pretty by done. do 2 f_equal.
  pose proof (slice_choices ["media"; text; url]%string choices (pretty n)) as Hs.
  cbn [length app] in Hs. rewrite length_app in Hs. cbn [length] in Hs.
  by rewrite Hs.
Qed.

Lemma tf_row text (b : bool) :
  parseQuestionRow ["tf"; text; Js.bool_toString b]%string
  = inr {| q_text := text; q_mediaUrl := None; q_clipUrl := None;
           q_body := TfBody b |}.
Proof. by destruct b. Qed.

Lemma trim_empty : Js.trim "" = ""%string.
Proof. reflexivity. Qed.

Lemma mc_valid text (choices : list string) n :
  (2 ≤ length choices)%nat → 0 ≤ n →
  validateQuestion {| q_text := text; q_mediaUrl := None; q_clipUrl := None;
                      q_body := McBody choices n |} = Valid
  ↔ Js.trim text ≠ ""%string ∧ n < Z.of_nat (length choices).
Proof.
  intros Hlen Hn. unfold validateQuestion, check_choices. cbn [q_text q_body].
  destruct (String.eqb_spec text "") as [-> | Htext]; cbn [orb].
  { rewrite trim_empty. split; [done | by intros [? _]]. }
  destruct (Js.trim text) as [| c r] eqn:Htrim; cbn [String.length Nat.eqb].
  { split; [done | by intros [? _]]. }
  destruct (Z.ltb_spec (Z.of_nat (length choices)) 2); [lia |].
  destruct (Z.ltb_spec n 0); [lia |]. cbn [orb].
  destruct (Z.leb_spec (Z.of_nat (length choices)) n).
  - split; [done | intros [_ ?]; lia].
  - split; [intros _; split; [done | lia] | done].
Qed.

End CsvRowFacts.

(** A question line of a CSV pack reads back as it was written.  For
    well-formed cells whose trimmed contents are the tag, the text, the
    choices (at least two) and a correct index from 0 to [2^53] (the
    integers [parseInt] reads exactly),
    [parseCSVLine] and then [parseQuestionRow] give the multiple choice or
    media question of that text, those choices and that index, and for a
    true/false line the question with that answer.  The index is read but
    not compared with the choices: the multiple choice question that comes
    out passes [validateQuestion] exactly when its text is not blank and
    the index is below the number of choices. *)
Theorem csv_question_line_reads_back (cells : list Csv.Cell) (text : string)
    (choices : list string) (n : Z) :
  Forall Csv.well_formed cells → (2 ≤ length choices)%nat → 0 ≤ n ≤ 2 ^ 53 →
  let read := CsvParser.parseQuestionRow (CsvParser.parseCSVLine (Csv.line cells)) in
  let multiple_choice :=
    {| q_text := text; q_mediaUrl := None; q_clipUrl := None;
       q_body := McBody choices n |} in
  (Csv.values cells = ("mc" :: text :: choices ++ [pretty n])%string →
   read = inr multiple_choice) ∧
  (QuestionService.validateQuestion multiple_choice = QuestionService.Valid
   ↔ Js.trim text ≠ ""%string ∧ n < Z.of_nat (length choices)) ∧
  (∀ url,
     Csv.values cells = ("media" :: text :: url :: choices ++ [pretty n])%string →
     read = inr {| q_text := text; q_mediaUrl := Some url; q_clipUrl := None;
                   q_body := MediaBody choices n |}) ∧
  (∀ b : bool,
     Csv.values cells = ["tf"; text; Js.bool_toString b]%string →
     read = inr {| q_text := text; q_mediaUrl := None; q_clipUrl := None;
                   q_body := TfBody b |}).
Proof.
  intros Hwf Hlen [Hn _]. cbn zeta.
  assert (∀ row, Csv.values cells = row → row ≠ [] →
                 CsvParser.parseCSVLine (Csv.line cells) = row) as Hline.
  { intros row <- Hrow. unfold CsvParser.parseCSVLine.
    rewrite loop_line; [done | | done]. by intros ->. }
  split_and!.
  - intros Hv. rewrite (Hline _ Hv) by done. by apply mc_row.
  - by apply mc_valid.
  - intros url Hv. rewrite (Hline _ Hv) by done. by apply media_row.
  - intros b Hv. rewrite (Hline _ Hv) by done. apply tf_row.
Qed.

Lemma csv_question_line_reads_back_witness :
  CsvParser.parseQuestionRow
    (CsvParser.parseCSVLine
       (Csv.line [Csv.Bare "mc"; Csv.Quoted "Who, me?"; Csv.Bare " Carter";
                  Csv.Bare "Alomar "; Csv.Bare "5"]))
  = inr {| q_text := "Who, me?"; q_mediaUrl := None; q_clipUrl := None;
           q_body := McBody ["Carter"; "Alomar"] 5 |}.
Proof.
  assert (Forall Csv.well_formed
            [Csv.Bare "mc"; Csv.Quoted "Who, me?"; Csv.Bare " Carter";
             Csv.Bare "Alomar "; Csv.Bare "5"]) as Hwf.
  { repeat (apply Forall_cons; split); [.. | apply Forall_nil];
      vm_compute; intuition discriminate. }
  refine (proj1 (csv_question_line_reads_back _ "Who, me?" ["Carter"; "Alomar"] 5
                   Hwf _ _) _).
  - cbn. lia.
  - split; [lia | by vm_compute].
  - vm_compute. reflexivity.
Defined.


Lemma parseCSVLine_quotes_witness :
  CsvParser.parseCSVLine (Csv.line [Csv.Bare "mc"; Csv.Quoted " Who, me? "; Csv.Bare "5"])
  = ["mc"; "Who, me?"; "5"]%string.
Proof.
  refine (proj1 (parseCSVLine_quotes
                   [Csv.Bare "mc"; Csv.Quoted " Who, me? "; Csv.Bare "5"] "") _ _).
  - done.
  - repeat (apply Forall_cons; split); [.. | apply Forall_nil];
      vm_compute; intuition discriminate.
Defined.
